(** * History normalisation, response cleaning and response orchestration

    A shallow embedding of the chat client's core:
    - [src/types.ts]               the data model ([Message], [Chat], ...);
    - [src/services/aiService.ts]  [mapHistory], [cleanResponse], [getAIResponse];
    - the chat window component    [responders], [triggerNextAI];
    - [src/App.tsx]                [triggerAIResponseForChat].

    Strings are sequences of code units; a code unit is an [ascii], that is
    the range 0..255 of JavaScript's UTF-16 code units.  [String.length] is
    JavaScript's [.length]. *)

From Stdlib Require Import String Ascii List ZArith Bool Arith Lia.
From Stdlib Require Import QArith DecimalString.
From Equations Require Import Equations.
Import ListNotations.
Open Scope string_scope.
Open Scope Z_scope.
Open Scope nat_scope.
Open Scope list_scope.

(** String concatenation, JavaScript's [+] on strings and template literals. *)
Infix "^^" := String.append (at level 60, right associativity).

(** The line feed written ["\n"] in the source. *)
Definition LF : string := String "010"%char "".

(* ================================================================== *)
(** * JavaScript string primitives used by the source *)
(* ================================================================== *)

Module Js.

(** WhiteSpace and LineTerminator code units below 256: TAB, LF, VT, FF, CR,
    SPACE and NBSP.  [trim] and the regular expression class [\s] use this
    set. *)
Definition is_white_space (c : ascii) : bool :=
  let n := nat_of_ascii c in
  ((9 <=? n) && (n <=? 13)) || (n =? 32) || (n =? 160).

(** LineTerminator code units below 256: LF and CR. *)
Definition is_line_terminator (c : ascii) : bool :=
  let n := nat_of_ascii c in
  (n =? 10) || (n =? 13).

Fixpoint trimStart (s : string) : string :=
  match s with
  | String c s' => if is_white_space c then trimStart s' else s
  | EmptyString => EmptyString
  end.

Fixpoint trimEnd (s : string) : string :=
  match s with
  | EmptyString => EmptyString
  | String c s' =>
      match trimEnd s' with
      | EmptyString => if is_white_space c then EmptyString else String c EmptyString
      | t => String c t
      end
  end.

(** [String.prototype.trim]. *)
Definition trim (s : string) : string := trimEnd (trimStart s).

(** Upper-casing of one code unit.  ASCII and Latin-1 letters move down by
    32; sharp s becomes "SS".  The two Latin-1 letters whose capital lies
    above 255 (micro sign, y with diaeresis) are left as they are. *)
Definition upper_char (c : ascii) : string :=
  let n := nat_of_ascii c in
  if (97 <=? n) && (n <=? 122) then String (ascii_of_nat (n - 32)) ""
  else if n =? 223 then "SS"
  else if (224 <=? n) && (n <=? 254) && negb (n =? 247)
       then String (ascii_of_nat (n - 32)) ""
  else String c "".

(** [String.prototype.toUpperCase]. *)
Fixpoint toUpperCase (s : string) : string :=
  match s with
  | EmptyString => EmptyString
  | String c s' => upper_char c ^^ toUpperCase s'
  end.

(** [String.prototype.startsWith]. *)
Definition startsWith (s p : string) : bool := String.prefix p s.

(** [String.prototype.includes]. *)
Fixpoint includes (s sub : string) : bool :=
  String.prefix sub s ||
  match s with
  | String _ s' => includes s' sub
  | EmptyString => false
  end.

(** [s.substring(n)]: the code units from index [n] on. *)
Fixpoint substring_from (n : nat) (s : string) : string :=
  match n, s with
  | O, _ => s
  | S k, String _ s' => substring_from k s'
  | S _, EmptyString => EmptyString
  end.

(** Truthiness of a string: [!s] holds for the empty string only. *)
Definition truthy (s : string) : bool := negb (s =? "")%string.

(** [a || b] on strings. *)
Definition or_else (a b : string) : string := if truthy a then a else b.

(** [a || b] where [a] may be [undefined]. *)
Definition opt_or_else (a : option string) (b : string) : string :=
  match a with
  | Some s => or_else s b
  | None => b
  end.

(** Decimal rendering of an integer inside a template literal. *)
Definition string_of_Z (z : Z) : string := NilZero.string_of_int (Z.to_int z).

(** [arr[arr.length - 1]]. *)
Definition last_opt {A : Type} (l : list A) : option A :=
  match rev l with
  | x :: _ => Some x
  | [] => None
  end.

(** [arr.slice(-n)]: the last [n] elements, all of them when there are fewer. *)
Definition slice_last {A : Type} (n : nat) (l : list A) : list A :=
  skipn (List.length l - n) l.

(** Assignment to the last element of an array, [arr[arr.length-1] = f(...)]. *)
Definition update_last {A : Type} (f : A -> A) (l : list A) : list A :=
  match last_opt l with
  | Some x => removelast l ++ [f x]
  | None => l
  end.

End Js.

(* ================================================================== *)
(** * Data model, [src/types.ts] *)
(* ================================================================== *)

Inductive ModelProvider : Set := openai | deepseek | gemini.

Definition ModelProvider_eqb (a b : ModelProvider) : bool :=
  match a, b with
  | openai, openai | deepseek, deepseek | gemini, gemini => true
  | _, _ => false
  end.

(** The provider as the string it is at run time. *)
Definition provider_string (p : ModelProvider) : string :=
  match p with
  | openai => "openai"
  | deepseek => "deepseek"
  | gemini => "gemini"
  end.

Module Sender.
Inductive t : Set := user | ai | system.
Definition eqb (a b : t) : bool :=
  match a, b with
  | user, user | ai, ai | system, system => true
  | _, _ => false
  end.
End Sender.

Module Message.
Record t : Set := mk {
  id : string;
  text : string;
  sender : Sender.t;
  authorId : option string;
  authorName : option string;
  timestamp : Z;
  isError : option bool
}.
End Message.

(** The role vocabulary of a normalised turn. *)
Module Role.
Inductive t : Set := user | assistant | model.
Definition eqb (a b : t) : bool :=
  match a, b with
  | user, user | assistant, assistant | model, model => true
  | _, _ => false
  end.
End Role.

(** One element of the array [mapHistory] returns. *)
Record Turn : Set := mkTurn { role : Role.t; content : string }.

(* ================================================================== *)
(** * [src/services/aiService.ts]: [mapHistory] *)
(* ================================================================== *)

Definition MAX_HISTORY_MESSAGES : nat := 40.
Definition MAX_HISTORY_CHARS : Z := 12000.

(** [history.filter(m => m.sender !== 'system')]. *)
Definition chatMessages (history : list Message.t) : list Message.t :=
  filter (fun m => negb (Sender.eqb (Message.sender m) Sender.system)) history.

(** The [for] loop of step 1.  [pending] holds [recent[i], recent[i-1], ..,
    recent[0]], the messages still to be visited. *)
Fixpoint window_loop (pending : list Message.t) (totalChars : Z)
    (finalMessages : list Message.t) : list Message.t :=
  match pending with
  | [] => finalMessages
  | msg :: rest =>
      let len := Z.of_nat (String.length (Message.text msg)) in
      if ((totalChars + len >? MAX_HISTORY_CHARS)%Z
          && (0 <? List.length finalMessages))
      then finalMessages
      else window_loop rest (totalChars + len)%Z (msg :: finalMessages)
  end.

(** Step 1 of [mapHistory]: filter, count window, character window. *)
Definition windowMessages (history : list Message.t) : list Message.t :=
  let recent := Js.slice_last MAX_HISTORY_MESSAGES (chatMessages history) in
  window_loop (rev recent) 0%Z [].

Definition authorLabel (msg : Message.t) : string :=
  Js.opt_or_else (Message.authorName msg)
    (match Message.sender msg with
     | Sender.user => "User"
     | _ => "Assistant"
     end).

(** Step 2: the callback of [finalMessages.map]. *)
Definition mapMessage (provider : ModelProvider) (msg : Message.t) : Turn :=
  {| role :=
       match provider with
       | gemini =>
           match Message.sender msg with
           | Sender.user => Role.user
           | _ => Role.model
           end
       | _ =>
           match Message.sender msg with
           | Sender.user => Role.user
           | _ => Role.assistant
           end
       end;
     content :=
       "--- SOURCE: " ^^ Js.toUpperCase (authorLabel msg) ^^ " ---" ^^ LF
       ^^ Js.trim (Message.text msg) ^^ LF
       ^^ "--- END " ^^ Js.toUpperCase (authorLabel msg) ^^ " ---" |}.

(** The callback of [mapped.forEach]: glue a turn to the previous one when the
    roles agree, push it otherwise.  Both the strict and the Gemini branch run
    this loop. *)
Definition merge_step (acc : list Turn) (m : Turn) : list Turn :=
  match Js.last_opt acc with
  | Some l =>
      if Role.eqb (role l) (role m)
      then removelast acc ++ [ {| role := role l;
                                  content := content l ^^ LF ^^ LF ^^ content m |} ]
      else acc ++ [m]
  | None => acc ++ [m]
  end.

Definition merge_runs (mapped : list Turn) : list Turn :=
  fold_left merge_step mapped [].

(** Rule 1: a leading assistant turn is shifted out and a user turn holding
    its content is unshifted in its place. *)
Definition rule1 (strictHistory : list Turn) : list Turn :=
  match strictHistory with
  | first :: rest =>
      match role first with
      | Role.assistant =>
          {| role := Role.user;
             content := "[PREVIOUS CONTEXT]:" ^^ LF ^^ content first |} :: rest
      | _ => strictHistory
      end
  | [] => strictHistory
  end.

Definition is_assistant (t : Turn) : bool := Role.eqb (role t) Role.assistant.

(** Rule 2: a trailing assistant turn is popped and poured into the turn
    before it; a lone assistant turn is replaced by a user turn. *)
Definition rule2 (strictHistory : list Turn) : list Turn :=
  match Js.last_opt strictHistory with
  | None => strictHistory
  | Some lastTurn =>
      if (1 <? List.length strictHistory) && is_assistant lastTurn
      then
        Js.update_last
          (fun t => {| role := role t;
                       content := content t ^^ LF ^^ LF ^^ "[FOLLOW-UP RESPONSE]:"
                                  ^^ LF ^^ content lastTurn |})
          (removelast strictHistory)
      else
        match strictHistory with
        | [onlyMsg] =>
            if is_assistant onlyMsg
            then [ {| role := Role.user;
                      content := "[DIALOGUE CONTEXT]:" ^^ LF ^^ content onlyMsg |} ]
            else strictHistory
        | _ => strictHistory
        end
  end.

Definition mapHistory (history : list Message.t) (provider : ModelProvider)
  : list Turn :=
  if List.length history =? 0 then []
  else
    let finalMessages := windowMessages history in
    let mapped := map (mapMessage provider) finalMessages in
    match provider with
    | gemini => merge_runs mapped
    | _ => rule2 (rule1 (merge_runs mapped))
    end.


(* ================================================================== *)
(** * The regular expressions of [cleanResponse] *)
(* ================================================================== *)

(** A backtracking matcher in continuation style, after the matcher semantics
    of the language standard, for the constructs the two patterns use:
    literal characters under the [i] flag, [\s], [.], greedy [+] and [*],
    lazy [*?], and [^] and [$] under the [m] flag.  Alternatives are tried
    in the standard's order, so the match found is the one the engine
    reports. *)
Module Regex.

Inductive CharSet : Set :=
| Lit (c : ascii)      (* a pattern character, compared under the [i] flag *)
| WhiteSpace           (* [\s] *)
| Dot.                 (* [.] *)

Inductive Term : Set :=
| BOL                       (* [^] with the [m] flag *)
| EOL                       (* [$] with the [m] flag *)
| One (cs : CharSet)
| Plus (cs : CharSet)       (* greedy [+] *)
| Star (cs : CharSet)       (* greedy [*] *)
| LazyStar (cs : CharSet).  (* [*?] *)

Definition Pattern : Set := list Term.

(** Canonicalize of the standard, without the [u] flag: the upper-case form
    when it is a single code unit. *)
Definition canonicalize (c : ascii) : ascii :=
  match Js.upper_char c with
  | String u EmptyString => u
  | _ => c
  end.

Definition char_matches (cs : CharSet) (c : ascii) : bool :=
  match cs with
  | Lit p => Ascii.eqb (canonicalize c) (canonicalize p)
  | WhiteSpace => Js.is_white_space c
  | Dot => negb (Js.is_line_terminator c)
  end.

(** [$] with the [m] flag: at the end of the input or before a line
    terminator. *)
Definition at_eol (s : string) : bool :=
  match s with
  | EmptyString => true
  | String c _ => Js.is_line_terminator c
  end.

(** A matcher state is the text still ahead [s], the number [n] of code
    units the match has consumed, and [bol]: the position is the start of
    the input or follows a line terminator.  A continuation returns the
    length of the whole match. *)
Definition Cont : Set := bool -> nat -> string -> option nat.

Fixpoint star_greedy (cs : CharSet) (k : Cont) (bol : bool) (n : nat)
    (s : string) : option nat :=
  match s with
  | String c s' =>
      if char_matches cs c then
        match star_greedy cs k (Js.is_line_terminator c) (S n) s' with
        | Some r => Some r
        | None => k bol n s
        end
      else k bol n s
  | EmptyString => k bol n s
  end.

Fixpoint star_lazy (cs : CharSet) (k : Cont) (bol : bool) (n : nat)
    (s : string) : option nat :=
  match k bol n s with
  | Some r => Some r
  | None =>
      match s with
      | String c s' =>
          if char_matches cs c
          then star_lazy cs k (Js.is_line_terminator c) (S n) s'
          else None
      | EmptyString => None
      end
  end.

Definition one_then (cs : CharSet) (k : Cont) : Cont :=
  fun _ n s =>
    match s with
    | String c s' =>
        if char_matches cs c then k (Js.is_line_terminator c) (S n) s' else None
    | EmptyString => None
    end.

Fixpoint m (p : Pattern) (k : Cont) : Cont :=
  match p with
  | [] => k
  | t :: p' =>
      let k' := m p' k in
      match t with
      | BOL => fun bol n s => if bol then k' bol n s else None
      | EOL => fun bol n s => if at_eol s then k' bol n s else None
      | One cs => one_then cs k'
      | Plus cs => one_then cs (star_greedy cs k')
      | Star cs => star_greedy cs k'
      | LazyStar cs => star_lazy cs k'
      end
  end.

(** The length of the match of [p] that starts at the current position. *)
Definition match_here (p : Pattern) (bol : bool) (s : string) : option nat :=
  m p (fun _ n _ => Some n) bol 0 s.

(** [text.replace(p, "")] for a pattern with the [g] flag.  The text is
    scanned from left to right; [skip] is the number of code units of the
    current match that are still to be dropped.  An empty match replaces
    nothing and the scan moves on by one code unit. *)
Fixpoint replace_loop (p : Pattern) (skip : nat) (bol : bool) (s : string)
  : string :=
  match s with
  | EmptyString => EmptyString
  | String c s' =>
      match skip with
      | S k => replace_loop p k (Js.is_line_terminator c) s'
      | O =>
          match match_here p bol s with
          | Some (S k) => replace_loop p k (Js.is_line_terminator c) s'
          | _ => String c (replace_loop p 0 (Js.is_line_terminator c) s')
          end
      end
  end.

Definition replaceAll (p : Pattern) (s : string) : string :=
  replace_loop p 0 true s.

(** Does [p] match, non-trivially, at some position of the text? *)
Fixpoint matches_from (p : Pattern) (bol : bool) (s : string) : bool :=
  match s with
  | EmptyString => false
  | String c s' =>
      match match_here p bol s with
      | Some (S _) => true
      | _ => matches_from p (Js.is_line_terminator c) s'
      end
  end.

Definition has_match (p : Pattern) (s : string) : bool := matches_from p true s.

(** A run of literal characters. *)
Fixpoint lits (s : string) : Pattern :=
  match s with
  | EmptyString => []
  | String c s' => One (Lit c) :: lits s'
  end.

End Regex.

(* ================================================================== *)
(** * [src/services/aiService.ts]: [cleanResponse] *)
(* ================================================================== *)

(** [/^-+\s*SOURCE:.*?-+\s*$/gim] *)
Definition sourceTag : Regex.Pattern :=
  [Regex.BOL; Regex.Plus (Regex.Lit "-"); Regex.Star Regex.WhiteSpace]
  ++ Regex.lits "SOURCE:"
  ++ [Regex.LazyStar Regex.Dot; Regex.Plus (Regex.Lit "-");
      Regex.Star Regex.WhiteSpace; Regex.EOL].

(** [/^-+\s*END.*?-+\s*$/gim] *)
Definition endTag : Regex.Pattern :=
  [Regex.BOL; Regex.Plus (Regex.Lit "-"); Regex.Star Regex.WhiteSpace]
  ++ Regex.lits "END"
  ++ [Regex.LazyStar Regex.Dot; Regex.Plus (Regex.Lit "-");
      Regex.Star Regex.WhiteSpace; Regex.EOL].

Definition cleanResponse (text : string) : string :=
  if negb (Js.truthy text) then ""
  else Js.trim (Regex.replaceAll endTag (Regex.replaceAll sourceTag text)).

(* ================================================================== *)
(** * The surroundings of the asynchronous code *)
(* ================================================================== *)

(** The body of a chat-completions request, [JSON.stringify(payload)]. *)
Module Payload.
Record t : Set := mk {
  model : string;
  messages : list (string * string);   (* [{role, content}] *)
  max_tokens : Z;
  temperature : option Q               (* absent for 'deepseek-reasoner' *)
}.
End Payload.

(** A [fetch] call: always a POST with a JSON content type. *)
Module Request.
Record t : Set := mk {
  url : string;
  authorization : string;              (* the Authorization header *)
  body : Payload.t
}.
End Request.

(** A [generateContent] call on a client built by [new GoogleGenAI]. *)
Module GenerateRequest.
Record t : Set := mk {
  apiKey : string;                     (* the key the client was built with *)
  model : string;
  contents : list (Role.t * string);   (* [{role, parts: [{text}]}] *)
  systemInstruction : string;
  temperature : Q;
  thinkingBudget : option Z
}.
End GenerateRequest.

(** What the code reads from a parsed response body that is not [null]: a
    JSON object, or another value, on which both paths read as absent. *)
Record ResponseData : Set := mkData {
  error_message : option string;         (* [data.error?.message] *)
  choice_content : option string         (* [data.choices?.[0]?.message?.content] *)
}.

(** The value [res.json()] resolves to.  Reading a property of [null]
    raises a TypeError, whose message is the engine's. *)
Inductive Parsed : Set :=
| Value (data : ResponseData)
| Null (typeError : string).

Inductive FetchOutcome : Set :=
| FetchRejects (message : string)             (* [fetch] rejects: no response *)
| JsonRejects (status : nat) (message : string) (* [res.json()] rejects *)
| RespondsNull (status : nat) (typeError : string) (* the body parses to [null] *)
| Responds (status : nat) (data : ResponseData).

Inductive GenerateOutcome : Set :=
| GenerateThrows (message : string)
| GenerateReturns (text : option string).     (* [response.text] *)

Inductive Event : Set :=
| Fetch (r : Request.t)
| GenerateContent (r : GenerateRequest.t)
| Sleep (ms : Z)
| ConsoleError (label message : string).

(** Everything the code does not receive as an argument: the process
    environment, the two back ends and the clock.  A back end answers a
    request knowing what has happened so far. *)
Record World : Type := mkWorld {
  API_KEY : option string;               (* [process.env.API_KEY] *)
  fetch_reply : list Event -> Request.t -> FetchOutcome;
  generate_reply : list Event -> GenerateRequest.t -> GenerateOutcome;
  clock : nat -> Z                       (* the n-th reading of [Date.now()] *)
}.

Record State : Set := mkState {
  trace : list Event;                    (* oldest first *)
  clock_reads : nat
}.

(** How an asynchronous function settles: [Throws] carries [error.message]. *)
Inductive Completion (A : Type) : Type :=
| Returns (a : A)
| Throws (message : string).
Arguments Returns {A} a.
Arguments Throws {A} message.

Definition Async (A : Type) : Type := World -> State -> Completion A * State.

Definition ret {A : Type} (a : A) : Async A := fun _ st => (Returns a, st).

Definition throw {A : Type} (message : string) : Async A :=
  fun _ st => (Throws message, st).

Definition bind {A B : Type} (c : Async A) (k : A -> Async B) : Async B :=
  fun w st =>
    match c w st with
    | (Returns a, st') => k a w st'
    | (Throws e, st') => (Throws e, st')
    end.

Notation "x <- c ;; k" := (bind c (fun x => k))
  (at level 61, c at next level, right associativity).
Notation "c ;;; k" := (bind c (fun _ => k))
  (at level 61, right associativity).

(** [try { c } catch (e) { h e }]. *)
Definition try_catch {A : Type} (c : Async A) (h : string -> Async A) : Async A :=
  fun w st =>
    match c w st with
    | (Returns a, st') => (Returns a, st')
    | (Throws e, st') => h e w st'
    end.

Definition emit (e : Event) : Async unit :=
  fun _ st => (Returns tt, {| trace := trace st ++ [e]; clock_reads := clock_reads st |}).

Definition getenv_API_KEY : Async (option string) :=
  fun w st => (Returns (API_KEY w), st).

Definition Date_now : Async Z :=
  fun w st => (Returns (clock w (clock_reads st)),
               {| trace := trace st; clock_reads := S (clock_reads st) |}).

(** [await fetch(...)] followed by [await res.json()]. *)
Definition fetch_json (r : Request.t) : Async (nat * Parsed) :=
  fun w st =>
    let st' := {| trace := trace st ++ [Fetch r]; clock_reads := clock_reads st |} in
    match fetch_reply w (trace st) r with
    | FetchRejects e => (Throws e, st')
    | JsonRejects _ e => (Throws e, st')
    | RespondsNull status typeError => (Returns (status, Null typeError), st')
    | Responds status data => (Returns (status, Value data), st')
    end.

(** [await ai.models.generateContent(...)]; [Error] carries [e.message]. *)
Definition generateContent (r : GenerateRequest.t) : Async (option string) :=
  fun w st =>
    let st' := {| trace := trace st ++ [GenerateContent r]; clock_reads := clock_reads st |} in
    match generate_reply w (trace st) r with
    | GenerateThrows e => (Throws e, st')
    | GenerateReturns text => (Returns text, st')
    end.

Definition sleep (ms : Z) : Async unit := emit (Sleep ms).

(** [res.ok] *)
Definition res_ok (status : nat) : bool := (200 <=? status) && (status <=? 299).

Definition Math_max (a b : Q) : Q := if Qle_bool a b then b else a.
Definition Math_min (a b : Q) : Q := if Qle_bool a b then a else b.

Definition role_string (r : Role.t) : string :=
  match r with
  | Role.user => "user"
  | Role.assistant => "assistant"
  | Role.model => "model"
  end.

(* ================================================================== *)
(** * [src/services/aiService.ts]: [getAIResponse] *)
(* ================================================================== *)

(** The [catch] clause of the REST branch: log the error and throw it again.
    Every [throw] and every rejected [await] inside the [try] block passes
    through it. *)
Definition caught {A : Type} (provider : ModelProvider) (e : string) : Async A :=
  emit (ConsoleError ("AI Request Failure (" ^^ provider_string provider ^^ "):") e) ;;;
  throw e.

Definition baseUrl (provider : ModelProvider) : string :=
  match provider with
  | openai => "https://api.openai.com/v1/chat/completions"
  | _ => "https://api.deepseek.com/chat/completions"
  end.

(** The [fetch] request of the REST branch. *)
Definition rest_request (provider : ModelProvider) (modelName systemPrompt : string)
    (history : list Message.t) (apiKey : string) (safeTemperature : Q) : Request.t :=
  let normalizedHistory := mapHistory history provider in
  let messages :=
    ("system", Js.or_else systemPrompt "You are a helpful assistant.")
    :: map (fun h => (role_string (role h), content h)) normalizedHistory in
  {| Request.url := baseUrl provider;
     Request.authorization := "Bearer " ^^ apiKey;
     Request.body :=
       {| Payload.model := modelName;
          Payload.messages := messages;
          Payload.max_tokens := 2048;
          Payload.temperature :=
            if (modelName =? "deepseek-reasoner")%string then None
            else Some safeTemperature |} |}.

(** The [generateContent] request of the Gemini branch; [key] is
    [process.env.API_KEY]. *)
Definition gemini_request (key : option string) (modelName systemPrompt : string)
    (history : list Message.t) (safeTemperature : Q) : GenerateRequest.t :=
  let normalizedHistory := mapHistory history gemini in
  {| GenerateRequest.apiKey := Js.opt_or_else key "";
     GenerateRequest.model := modelName;
     GenerateRequest.contents := map (fun h => (role h, content h)) normalizedHistory;
     GenerateRequest.systemInstruction := systemPrompt;
     GenerateRequest.temperature := safeTemperature;
     GenerateRequest.thinkingBudget :=
       if Js.includes modelName "pro" then Some 32768%Z else None |}.

(** [getAIResponse].  The test [res.status === 429 && retryCount < 1] is
    written as two nested tests.  The retry is [return getAIResponse(...)]
    without [await], so its own rejection does not pass through the [catch]
    clause of the caller.  The body is first read after the test for 401
    ([data.error?.message]) and, for a successful answer, at
    [data.choices]: there a [null] body raises its TypeError, inside the
    [try] block. *)
Equations? getAIResponse (provider : ModelProvider) (modelName systemPrompt : string)
    (history : list Message.t) (apiKey : string) (temperature : Q)
    (retryCount : nat) (w : World) (st : State)
  : Completion string * State by wf (1 - retryCount) lt :=
getAIResponse provider modelName systemPrompt history apiKey temperature retryCount w st :=
  let safeTemperature := Math_min (Math_max temperature 0) (12 # 10) in
  match provider with
  | gemini =>
      (key <- getenv_API_KEY ;;
       text <- try_catch
                 (generateContent
                    (gemini_request key modelName systemPrompt history safeTemperature))
                 (fun e => throw ("Gemini: " ^^ e)) ;;
       ret (cleanResponse (Js.opt_or_else text "No response."))) w st
  | _ =>
      if negb (Js.truthy apiKey)
      then throw ("API Key missing for " ^^ Js.toUpperCase (provider_string provider)) w st
      else
        match fetch_json
                (rest_request provider modelName systemPrompt history apiKey
                   safeTemperature) w st with
        | (Throws e, st1) => caught provider e w st1
        | (Returns (status, body), st1) =>
            if negb (res_ok status) then
              if status =? 401 then
                caught provider
                  (Js.toUpperCase (provider_string provider)
                   ^^ ": Authentication Failed. Check API Key.") w st1
              else
                match body with
                | Null typeError => caught provider typeError w st1
                | Value data =>
                    let message :=
                      Js.opt_or_else (error_message data)
                        ("Error " ^^ Js.string_of_Z (Z.of_nat status)) in
                    if status =? 429 then
                      match lt_dec retryCount 1 with
                      | left _ =>
                          let st2 := snd (sleep 2000 w st1) in
                          getAIResponse provider modelName systemPrompt history apiKey
                            temperature (retryCount + 1) w st2
                      | right _ =>
                          caught provider
                            (Js.toUpperCase (provider_string provider) ^^ ": " ^^ message)
                            w st1
                      end
                    else
                      caught provider
                        (Js.toUpperCase (provider_string provider) ^^ ": " ^^ message)
                        w st1
                end
            else
              match body with
              | Null typeError => caught provider typeError w st1
              | Value data =>
                  ret (cleanResponse (Js.opt_or_else (choice_content data) "No content."))
                    w st1
              end
        end
  end.
Proof.
  all: change (1 - (retryCount + 1) < 1 - retryCount); lia.
Qed.

(* ================================================================== *)
(** * Data model, [src/types.ts], continued *)
(* ================================================================== *)

Inductive AppTheme : Set := light | dark | theme_system.
Inductive ActiveTab : Set := tab_chats | tab_settings | tab_import.

Module TagFolder.
Record t : Set := mk {
  id : string;
  name : string;
  description : string;
  emoji : string;
  isPinned : bool
}.
End TagFolder.

Module Chat.
Record t : Set := mk {
  id : string;
  name : string;
  avatar : string;
  provider : ModelProvider;
  modelName : string;
  systemPrompt : string;
  temperature : option Q;
  lastMessage : option string;
  lastTimestamp : option Z;
  isPinned : bool;
  messages : list Message.t;
  tags : list string;
  parentId : option string;
  draft : option string;
  isGroup : option bool;
  participantIds : option (list string)
}.

(** [{ ...c, messages, lastMessage, lastTimestamp }] *)
Definition with_messages (c : t) (msgs : list Message.t) (last : string) (ts : Z) : t :=
  {| id := id c; name := name c; avatar := avatar c; provider := provider c;
     modelName := modelName c; systemPrompt := systemPrompt c;
     temperature := temperature c;
     lastMessage := Some last; lastTimestamp := Some ts;
     isPinned := isPinned c; messages := msgs; tags := tags c;
     parentId := parentId c; draft := draft c; isGroup := isGroup c;
     participantIds := participantIds c |}.
End Chat.

Module AppSettings.
Record t : Set := mk {
  openaiKey : string;
  deepseekKey : string;
  defaultProvider : ModelProvider;
  activeTab : ActiveTab;
  theme : AppTheme;
  customFolders : list TagFolder.t;
  globalSystemPrompt : string
}.
End AppSettings.

(* ================================================================== *)
(** * The chat window: [responders] and [triggerNextAI] *)
(* ================================================================== *)

Module Responder.
Record t : Set := mk {
  id : string;
  name : string;
  avatar : string;
  icon : string;
  color : string
}.
End Responder.

(** [allChats.filter(c => (chat.participantIds || []).includes(c.id))] *)
Definition participants (chat : Chat.t) (allChats : list Chat.t) : list Chat.t :=
  let list := match Chat.participantIds chat with Some l => l | None => [] end in
  filter (fun c => existsb (String.eqb (Chat.id c)) list) allChats.

Definition responders (chat : Chat.t) (allChats : list Chat.t) : list Responder.t :=
  [ Responder.mk "user" "Me" "" "fa-user" "blue";
    Responder.mk (Chat.id chat) (Chat.name chat) (Chat.avatar chat) "fa-robot" "orange" ]
  ++ map (fun p => Responder.mk (Chat.id p) (Chat.name p) (Chat.avatar p)
                     "fa-robot" "orange")
       (filter (fun p => negb (Chat.id p =? Chat.id chat)%string)
          (participants chat allChats)).

(** [Array.prototype.findIndex]: the first index that satisfies [f], else -1. *)
Fixpoint findIndex {A : Type} (f : A -> bool) (l : list A) : Z :=
  match l with
  | [] => (-1)%Z
  | x :: l' =>
      if f x then 0%Z
      else let r := findIndex f l' in
           if (r <? 0)%Z then (-1)%Z else (r + 1)%Z
  end.

(** [m.sender === 'ai' && m.authorId] *)
Definition is_authored_ai (m : Message.t) : bool :=
  Sender.eqb (Message.sender m) Sender.ai
  && match Message.authorId m with
     | Some a => Js.truthy a
     | None => false
     end.

(** [[...chat.messages].reverse().find(m => m.sender === 'ai' && m.authorId)] *)
Definition lastAiMsg (messages : list Message.t) : option Message.t :=
  find is_authored_ai (rev messages).





(* ================================================================== *)
(** * [src/App.tsx]: [triggerAIResponseForChat] *)
(* ================================================================== *)

(** The state setters the function calls.  [setChats] receives an updater,
    which the framework applies to the list of chats current at that time. *)
Inductive StateUpdate : Type :=
| setChats (updater : list Chat.t -> list Chat.t)
| setDraftSubChat (d : option Chat.t)
| setActiveChatId (i : option string)
| setPendingBranch (b : option (string * Message.t)).

Record AppState : Type := mkApp {
  chats : list Chat.t;
  draftSubChat : option Chat.t;
  activeChatId : option string;
  pendingBranch : option (string * Message.t)   (* parentId, rootMsg *)
}.

Definition apply_update (s : AppState) (u : StateUpdate) : AppState :=
  match u with
  | setChats f => mkApp (f (chats s)) (draftSubChat s) (activeChatId s) (pendingBranch s)
  | setDraftSubChat d => mkApp (chats s) d (activeChatId s) (pendingBranch s)
  | setActiveChatId i => mkApp (chats s) (draftSubChat s) i (pendingBranch s)
  | setPendingBranch b => mkApp (chats s) (draftSubChat s) (activeChatId s) b
  end.

Definition apply_updates (us : list StateUpdate) (s : AppState) : AppState :=
  fold_left apply_update us s.

(** [prev.map(c => c.id === chatId ? { ...c, messages, lastMessage, lastTimestamp } : c)] *)
Definition replace_messages (chatId : string) (finalMessages : list Message.t)
    (last : string) (ts : Z) (prev : list Chat.t) : list Chat.t :=
  map (fun c => if (Chat.id c =? chatId)%string
                then Chat.with_messages c finalMessages last ts
                else c) prev.

(** The responder resolved at the top of [triggerAIResponseForChat]. *)
Definition targetAssistant (chats : list Chat.t) (chatBase : Chat.t)
    (specificAuthorId : option string) : option Chat.t :=
  let isGroup := match Chat.isGroup chatBase with Some b => b | None => false end in
  let participantIds :=
    match Chat.participantIds chatBase with Some l => l | None => [] end in
  match specificAuthorId with
  | Some a =>
      if Js.truthy a && negb (a =? "user")%string
      then find (fun c => (Chat.id c =? a)%string) chats
      else if negb isGroup && (List.length participantIds =? 0) then Some chatBase
      else match participantIds with
           | p0 :: _ => find (fun c => (Chat.id c =? p0)%string) chats
           | [] => None
           end
  | None =>
      if negb isGroup && (List.length participantIds =? 0) then Some chatBase
      else match participantIds with
           | p0 :: _ => find (fun c => (Chat.id c =? p0)%string) chats
           | [] => None
           end
  end.

(** [draftSubChat && draftSubChat.id === chatId] *)
Definition isDraft (draftSubChat : option Chat.t) (chatId : string) : bool :=
  match draftSubChat with
  | Some d => (Chat.id d =? chatId)%string
  | None => false
  end.

(** [isDraft ? draftSubChat : chats.find(c => c.id === chatId)] *)
Definition chatBase (chats : list Chat.t) (draftSubChat : option Chat.t)
    (chatId : string) : option Chat.t :=
  if isDraft draftSubChat chatId then draftSubChat
  else find (fun c => (Chat.id c =? chatId)%string) chats.

(** The key the application holds for the responder's provider. *)
Definition apiKey_for (settings : AppSettings.t) (p : ModelProvider) : string :=
  match p with
  | openai => AppSettings.openaiKey settings
  | deepseek => AppSettings.deepseekKey settings
  | gemini => ""
  end.

(** The loop over [prefixesToStrip]. *)
Definition strip_prefixes (name : string) (cleanedText : string) : string :=
  fold_left
    (fun cleaned prefix =>
       if Js.startsWith cleaned prefix
       then Js.trim (Js.substring_from (String.length prefix) cleaned)
       else cleaned)
    [ "[" ^^ name ^^ "]:";
      name ^^ ":";
      "--- SOURCE: " ^^ Js.toUpperCase name ^^ " ---" ]
    cleanedText.

(** [triggerAIResponseForChat], a closure over the [chats], [draftSubChat]
    and [settings] of the render it was created in.  It returns the state
    updates it has requested, in order.  In the two [prev.map] updaters the
    source writes [lastTimestamp: Date.now()] inside the updater, where it
    is evaluated when the framework applies it, for each chat that matches;
    here that reading is taken once, when the updater is handed over.  The
    updates are the same; only [clock_reads] can count a reading the source
    does not make, when no chat of the list matches. *)
Definition triggerAIResponseForChat (chats : list Chat.t)
    (draftSubChat : option Chat.t) (settings : AppSettings.t)
    (chatId : string) (currentMessages : list Message.t)
    (specificAuthorId : option string) : Async (list StateUpdate) :=
  let isDraft := isDraft draftSubChat chatId in
  match chatBase chats draftSubChat chatId with
  | None => ret []
  | Some chatBase =>
  match targetAssistant chats chatBase specificAuthorId with
  | None => ret []
  | Some target =>
      let apiKey := apiKey_for settings (Chat.provider target) in
      let finalSystemPrompt :=
        Chat.systemPrompt target ^^ LF ^^ LF ^^ AppSettings.globalSystemPrompt settings in
      if negb (ModelProvider_eqb (Chat.provider target) gemini) && negb (Js.truthy apiKey)
      then
        t_id <- Date_now ;;
        t_stamp <- Date_now ;;
        let systemMsg :=
          {| Message.id := "sys-" ^^ Js.string_of_Z t_id;
             Message.text := "⚠️ Error: No API key for "
                             ^^ Js.toUpperCase (provider_string (Chat.provider target))
                             ^^ ".";
             Message.sender := Sender.system;
             Message.authorId := None;
             Message.authorName := None;
             Message.timestamp := t_stamp;
             Message.isError := Some true |} in
        let finalMessages := currentMessages ++ [systemMsg] in
        t_last <- Date_now ;;
        ret [ setChats (replace_messages chatId finalMessages
                          (Message.text systemMsg) t_last) ]
      else
        try_catch
          (aiResponseText <-
             getAIResponse (Chat.provider target) (Chat.modelName target)
               finalSystemPrompt currentMessages apiKey
               (match Chat.temperature target with Some t => t | None => 7 # 10 end)
               0 ;;
           let cleanedText := strip_prefixes (Chat.name target) (Js.trim aiResponseText) in
           t_id <- Date_now ;;
           t_stamp <- Date_now ;;
           let aiMsg :=
             {| Message.id := "ai-" ^^ Js.string_of_Z t_id;
                Message.text := cleanedText;
                Message.sender := Sender.ai;
                Message.authorId := Some (Chat.id target);
                Message.authorName := Some (Chat.name target);
                Message.timestamp := t_stamp;
                Message.isError := None |} in
           let finalMessages := currentMessages ++ [aiMsg] in
           t_last <- Date_now ;;
           if isDraft then
             let finalizedChat :=
               Chat.with_messages chatBase finalMessages cleanedText t_last in
             ret [ setChats (fun prev =>
                               finalizedChat
                               :: filter (fun c => negb (Chat.id c =? Chat.id finalizedChat)%string)
                                    prev);
                   setDraftSubChat None;
                   setActiveChatId (Some (Chat.id finalizedChat));
                   setPendingBranch None ]
           else
             ret [ setChats (replace_messages chatId finalMessages cleanedText t_last) ])
          (fun e =>
             t_id <- Date_now ;;
             t_stamp <- Date_now ;;
             let errorMsg :=
               {| Message.id := "err-" ^^ Js.string_of_Z t_id;
                  Message.text := e;
                  Message.sender := Sender.system;
                  Message.authorId := None;
                  Message.authorName := None;
                  Message.timestamp := t_stamp;
                  Message.isError := Some true |} in
             let finalMessages := currentMessages ++ [errorMsg] in
             t_last <- Date_now ;;
             ret [ setChats (replace_messages chatId finalMessages
                               (Message.text errorMsg) t_last) ])
  end
  end.

(* ================================================================== *)
(** * Vocabulary of the statements *)
(* ================================================================== *)

(** The characters a window holds, summed as the loop sums them. *)
Definition total_chars (l : list Message.t) : Z :=
  fold_right (fun m acc => (Z.of_nat (String.length (Message.text m)) + acc)%Z) 0%Z l.

(** What the loop has admitted stays within the budget, unless it is the
    single message that is always admitted. *)
Definition within_budget (w : list Message.t) : Prop :=
  (total_chars w <= MAX_HISTORY_CHARS)%Z \/ List.length w <= 1.

Definition is_suffix {A : Type} (w l : list A) : Prop := exists older, l = older ++ w.

Definition is_system (m : Message.t) : bool := Sender.eqb (Message.sender m) Sender.system.

(** The turn sequence reads user, assistant, user, ... from [expected] on. *)
Fixpoint alternates_from (expected : Role.t) (l : list Turn) : bool :=
  match l with
  | [] => true
  | t :: l' =>
      Role.eqb (role t) expected
      && alternates_from (match expected with
                          | Role.user => Role.assistant
                          | _ => Role.user
                          end) l'
  end.

Definition is_user (t : Turn) : bool := Role.eqb (role t) Role.user.

(** Strict alternation as the provider demands it: user, assistant, ...,
    starting and ending on a user turn. *)
Definition strict_alternation (l : list Turn) : bool :=
  alternates_from Role.user l
  && match l with t :: _ => is_user t | [] => false end
  && match Js.last_opt l with Some t => is_user t | None => false end.

Definition has_content (t : Turn) : Prop := content t <> "".

(** A message as the chat window builds it. *)
Definition message (s : Sender.t) (author : option string) (t : string) : Message.t :=
  {| Message.id := "m"; Message.text := t; Message.sender := s;
     Message.authorId := None; Message.authorName := author;
     Message.timestamp := 0%Z; Message.isError := None |}.

(* ================================================================== *)
(** * Sample inputs *)
(* ================================================================== *)

(** A history that holds a single error banner. *)
Definition only_system_history : list Message.t :=
  [ message Sender.system None "Error: No API key for OPENAI." ].

(** [[{sender: 'ai', authorName: "Bot", text: "hi"}]] *)
Definition bot_says_hi : list Message.t :=
  [ message Sender.ai (Some "Bot") "hi" ].

(** An assistant message followed by a user message. *)
Definition assistant_then_user : list Message.t :=
  [ message Sender.ai (Some "Bot") "a"; message Sender.user None "b" ].

(** Fifty messages of one character each. *)
Definition fifty_short : list Message.t :=
  repeat (message Sender.user None "x") 50.

(** A message of 12,003 characters. *)
Definition oversized : Message.t :=
  message Sender.ai (Some "Bot") (string_of_list_ascii (repeat "a"%char (3 * 4001))).

(** Two short messages, the oversized one, then an error banner. *)
Definition long_last : list Message.t :=
  [ message Sender.user None "hello"; message Sender.ai (Some "Bot") "hi";
    oversized; message Sender.system None "Error 500" ].

(* ================================================================== *)
(** * Vocabulary of the statements about [cleanResponse] *)
(* ================================================================== *)

(** The lines of a text: the pieces between line terminators. *)
Fixpoint lines (s : string) : list string :=
  match s with
  | EmptyString => [EmptyString]
  | String c s' =>
      if Js.is_line_terminator c then EmptyString :: lines s'
      else match lines s' with
           | l :: ls => String c l :: ls
           | [] => [String c EmptyString]
           end
  end.

Fixpoint all_chars (f : ascii -> bool) (s : string) : bool :=
  match s with
  | EmptyString => true
  | String c s' => f c && all_chars f s'
  end.

Definition is_hyphen (c : ascii) : bool := Ascii.eqb c "-".

(** One or more hyphens. *)
Definition hyphens (s : string) : Prop := s <> "" /\ all_chars is_hyphen s = true.

(** Equality of two strings up to the case of their letters. *)
Fixpoint ci_eqb (a b : string) : bool :=
  match a, b with
  | EmptyString, EmptyString => true
  | String x a', String y b' =>
      Ascii.eqb (Regex.canonicalize x) (Regex.canonicalize y) && ci_eqb a' b'
  | _, _ => false
  end.

(** A line that starts with hyphens, continues (after optional blanks) with
    the keyword in any case, and ends with hyphens. *)
Definition tag_line (keyword line : string) : Prop :=
  exists h w k rest h',
    line = h ^^ w ^^ k ^^ rest ^^ h'
    /\ hyphens h
    /\ all_chars Js.is_white_space w = true
    /\ ci_eqb k keyword = true
    /\ hyphens h'.

(** The shape shared by the two patterns. *)
Definition tagPattern (keyword : string) : Regex.Pattern :=
  [Regex.BOL; Regex.Plus (Regex.Lit "-"); Regex.Star Regex.WhiteSpace]
  ++ Regex.lits keyword
  ++ [Regex.LazyStar Regex.Dot; Regex.Plus (Regex.Lit "-");
      Regex.Star Regex.WhiteSpace; Regex.EOL].

(** A continuation that does not look at the line-start flag. *)
Definition blind (k : Regex.Cont) : Prop := forall b b' n s, k b n s = k b' n s.

(** Is the position after [pre] the start of a line, when the position
    before it is ([b] true) or is not? *)
Fixpoint bol_after (b : bool) (pre : string) : bool :=
  match pre with
  | EmptyString => b
  | String c pre' => bol_after (Js.is_line_terminator c) pre'
  end.

(** A tag line behind one blank. *)
Definition indented_tag : string := " --- SOURCE: x ---".

(** The block [mapHistory] builds for the message "hi" by "Bot". *)
Definition echoed_block : string :=
  "--- SOURCE: BOT ---" ^^ LF ^^ "hi" ^^ LF ^^ "--- END BOT ---".

(** A continuation never reports a match shorter than what is consumed. *)
Definition grows (k : Regex.Cont) : Prop :=
  forall b n s r, k b n s = Some r -> n <= r.

(** No line terminator occurs in the text. *)
Definition lt_free (s : string) : Prop :=
  all_chars (fun c => negb (Js.is_line_terminator c)) s = true.

(* ================================================================== *)
(** * Vocabulary of the statements about [getAIResponse] *)
(* ================================================================== *)

(** The state after further events. *)
Definition log (st : State) (es : list Event) : State :=
  {| trace := trace st ++ es; clock_reads := clock_reads st |}.

Definition is_fetch (e : Event) : bool :=
  match e with
  | Fetch _ => true
  | _ => false
  end.

Definition is_sleep (e : Event) : bool :=
  match e with
  | Sleep _ => true
  | _ => false
  end.

(** The number of [fetch] calls in a trace. *)
Definition count_fetches (tr : list Event) : nat := List.length (filter is_fetch tr).

(** The same surroundings with another [process.env.API_KEY]. *)
Definition with_API_KEY (key : option string) (w : World) : World :=
  {| API_KEY := key;
     fetch_reply := fetch_reply w;
     generate_reply := generate_reply w;
     clock := clock w |}.

(** [Math.min(Math.max(temperature, 0), 1.2)] *)
Definition safeTemperature (temperature : Q) : Q :=
  Math_min (Math_max temperature 0) (12 # 10).

(** The [console.error] of the [catch] clause. *)
Definition failure_log (provider : ModelProvider) (e : string) : Event :=
  ConsoleError ("AI Request Failure (" ^^ provider_string provider ^^ "):") e.

(** [`${provider.toUpperCase()}: ${message}`] *)
Definition provider_error (provider : ModelProvider) (status : nat)
    (data : ResponseData) : string :=
  Js.toUpperCase (provider_string provider) ^^ ": "
  ^^ Js.opt_or_else (error_message data) ("Error " ^^ Js.string_of_Z (Z.of_nat status)).

Definition authentication_failed (provider : ModelProvider) : string :=
  Js.toUpperCase (provider_string provider) ^^ ": Authentication Failed. Check API Key.".

Definition key_missing (provider : ModelProvider) : string :=
  "API Key missing for " ^^ Js.toUpperCase (provider_string provider).

(** Surroundings in which the REST back ends answer 429 to the first
    request and 200 to any later one, and the SDK back end accepts one key. *)
Definition busy_once : World :=
  {| API_KEY := Some "valid-key";
     fetch_reply := fun tr _ =>
       if count_fetches tr =? 0
       then Responds 429 (mkData (Some "Rate limit reached") None)
       else Responds 200 (mkData None (Some "Hello"));
     generate_reply := fun _ r =>
       if (GenerateRequest.apiKey r =? "valid-key")%string
       then GenerateReturns (Some "Hello")
       else GenerateThrows "API key not valid";
     clock := fun n => (1700000000000 + Z.of_nat n)%Z |}.

(** Surroundings whose REST back ends always answer 429. *)
Definition always_busy : World :=
  {| API_KEY := None;
     fetch_reply := fun _ _ => Responds 429 (mkData None None);
     generate_reply := fun _ _ => GenerateThrows "offline";
     clock := fun n => Z.of_nat n |}.

(** Surroundings whose REST back ends always answer 401. *)
Definition unauthorized : World :=
  {| API_KEY := None;
     fetch_reply := fun _ _ => Responds 401 (mkData (Some "Incorrect API key") None);
     generate_reply := fun _ _ => GenerateThrows "offline";
     clock := fun n => Z.of_nat n |}.

(** Surroundings in which a gateway answers the first request with status
    429 and an empty body, which is not JSON, and any later request is
    answered 200. *)
Definition busy_gateway : World :=
  {| API_KEY := None;
     fetch_reply := fun tr _ =>
       if count_fetches tr =? 0
       then JsonRejects 429 "Unexpected end of JSON input"
       else Responds 200 (mkData None (Some "Hello"));
     generate_reply := fun _ _ => GenerateThrows "offline";
     clock := fun n => Z.of_nat n |}.

(** Surroundings in which a gateway answers 401 with an empty body. *)
Definition unauthorized_gateway : World :=
  {| API_KEY := None;
     fetch_reply := fun _ _ => JsonRejects 401 "Unexpected end of JSON input";
     generate_reply := fun _ _ => GenerateThrows "offline";
     clock := fun n => Z.of_nat n |}.

(** Surroundings in which the first request is answered with status 429 and
    the body [null], and any later request is answered 200. *)
Definition busy_null : World :=
  {| API_KEY := None;
     fetch_reply := fun tr _ =>
       if count_fetches tr =? 0
       then RespondsNull 429 "Cannot read properties of null (reading 'error')"
       else Responds 200 (mkData None (Some "Hello"));
     generate_reply := fun _ _ => GenerateThrows "offline";
     clock := fun n => Z.of_nat n |}.

Definition initial : State := {| trace := []; clock_reads := 0 |}.

(** The request [getAIResponse] sends for the sample call
    [getAIResponse('openai', 'gpt-4o', 'Be brief.', [Bot: hi], 'sk-test', 0.7)]. *)
Definition sample_request : Request.t :=
  rest_request openai "gpt-4o" "Be brief." bot_says_hi "sk-test" (safeTemperature (7 # 10)).

(* ================================================================== *)
(** * Sample conversations *)
(* ================================================================== *)

(** An assistant persona with no messages. *)
Definition persona (id name : string) (p : ModelProvider) : Chat.t :=
  {| Chat.id := id; Chat.name := name; Chat.avatar := ""; Chat.provider := p;
     Chat.modelName := "gpt-4o"; Chat.systemPrompt := "Be brief.";
     Chat.temperature := None; Chat.lastMessage := None; Chat.lastTimestamp := None;
     Chat.isPinned := false; Chat.messages := []; Chat.tags := [];
     Chat.parentId := None; Chat.draft := None; Chat.isGroup := None;
     Chat.participantIds := None |}.

(** A message an assistant wrote in an arena. *)
Definition said_by (author : Chat.t) (t : string) : Message.t :=
  {| Message.id := "ai"; Message.text := t; Message.sender := Sender.ai;
     Message.authorId := Some (Chat.id author);
     Message.authorName := Some (Chat.name author);
     Message.timestamp := 0%Z; Message.isError := None |}.

Definition persona_B : Chat.t := persona "b" "B" openai.
Definition persona_C : Chat.t := persona "c" "C" deepseek.

(** The arena of A with the participants B and C, in which [last] spoke
    last and the human answered. *)
Definition arena (last : Chat.t) : Chat.t :=
  {| Chat.id := "a"; Chat.name := "A"; Chat.avatar := ""; Chat.provider := gemini;
     Chat.modelName := "gemini-3-flash-preview"; Chat.systemPrompt := "Be brief.";
     Chat.temperature := None; Chat.lastMessage := None; Chat.lastTimestamp := None;
     Chat.isPinned := false;
     Chat.messages := [ message Sender.user None "hello"; said_by last "hi";
                        message Sender.user None "go on" ];
     Chat.tags := []; Chat.parentId := None; Chat.draft := None;
     Chat.isGroup := Some true; Chat.participantIds := Some ["b"; "c"] |}.

Definition arena_chats (last : Chat.t) : list Chat.t := [arena last; persona_B; persona_C].

(* ================================================================== *)
(** * Vocabulary of the statements about [triggerAIResponseForChat] *)
(* ================================================================== *)

(** The conversations of a list other than [chatId]. *)
Definition other_chats (chatId : string) (l : list Chat.t) : list Chat.t :=
  filter (fun c => negb (Chat.id c =? chatId)%string) l.

(** A banner the application adds to a log: a system message flagged as an
    error. *)
Definition is_error_banner (m : Message.t) : bool :=
  Sender.eqb (Message.sender m) Sender.system
  && match Message.isError m with Some b => b | None => false end.

Definition settings_with (openaiKey deepseekKey : string) : AppSettings.t :=
  {| AppSettings.openaiKey := openaiKey;
     AppSettings.deepseekKey := deepseekKey;
     AppSettings.defaultProvider := gemini;
     AppSettings.activeTab := tab_chats;
     AppSettings.theme := dark;
     AppSettings.customFolders := [];
     AppSettings.globalSystemPrompt := "[GROUP CHAT PROTOCOL]" |}.

(** The draft that [handleBranch] makes of the persona B: a copy with a new
    id and the parent set, not yet in the list of chats. *)
Definition draft_branch : Chat.t :=
  {| Chat.id := "branch-1"; Chat.name := "Thread: hi..."; Chat.avatar := "";
     Chat.provider := openai; Chat.modelName := "gpt-4o";
     Chat.systemPrompt := "Be brief."; Chat.temperature := None;
     Chat.lastMessage := Some "Starting new thread..."; Chat.lastTimestamp := Some 0%Z;
     Chat.isPinned := false; Chat.messages := []; Chat.tags := [];
     Chat.parentId := Some "b"; Chat.draft := None; Chat.isGroup := None;
     Chat.participantIds := None |}.

(** The application with the chat B and the open draft. *)
Definition app_with_draft : AppState :=
  {| chats := [persona_B]; draftSubChat := Some draft_branch;
     activeChatId := Some "branch-1"; pendingBranch := None |}.

(** Surroundings whose REST back ends answer 200 at once. *)
Definition ready : World :=
  {| API_KEY := None;
     fetch_reply := fun _ _ => Responds 200 (mkData None (Some "Hello"));
     generate_reply := fun _ _ => GenerateThrows "offline";
     clock := fun n => Z.of_nat n |}.

(** The draft that [handleBranch] makes of the arena in which B spoke
    last: a copy with a new id, the parent set and no messages. *)
Definition arena_draft : Chat.t :=
  {| Chat.id := "branch-2"; Chat.name := "Thread: hi..."; Chat.avatar := "";
     Chat.provider := gemini; Chat.modelName := "gemini-3-flash-preview";
     Chat.systemPrompt := "Be brief."; Chat.temperature := None;
     Chat.lastMessage := Some "Starting new thread..."; Chat.lastTimestamp := Some 0%Z;
     Chat.isPinned := false; Chat.messages := []; Chat.tags := [];
     Chat.parentId := Some "a"; Chat.draft := None; Chat.isGroup := Some true;
     Chat.participantIds := Some ["b"; "c"] |}.

(** The application with the arena, its participants and the open draft. *)
Definition app_with_arena_draft : AppState :=
  {| chats := arena_chats persona_B; draftSubChat := Some arena_draft;
     activeChatId := Some "branch-2"; pendingBranch := None |}.

(* ================================================================== *)
(** * Vocabulary of the further statements about [getAIResponse] *)
(* ================================================================== *)

(** A request as the REST branch is meant to send it: to the provider's own
    endpoint, with the caller's key as bearer token, the model asked for, a
    limit of 2048 tokens, and a temperature: none for the model
    'deepseek-reasoner' and for that model only, one within [0, 1.2] for
    every other model. *)
Definition well_formed_request (provider : ModelProvider) (modelName apiKey : string)
    (r : Request.t) : Prop :=
  Request.url r = baseUrl provider
  /\ Request.authorization r = "Bearer " ^^ apiKey
  /\ Payload.model (Request.body r) = modelName
  /\ Payload.max_tokens (Request.body r) = 2048%Z
  /\ match Payload.temperature (Request.body r) with
     | None => modelName = "deepseek-reasoner"
     | Some t => modelName <> "deepseek-reasoner" /\ (0 <= t)%Q /\ (t <= 12 # 10)%Q
     end.

(** The events a call of the REST branch may cause. *)
Definition expected_event (provider : ModelProvider) (modelName apiKey : string)
    (e : Event) : Prop :=
  match e with
  | Fetch r => well_formed_request provider modelName apiKey r
  | Sleep ms => ms = 2000%Z
  | ConsoleError _ _ => True
  | GenerateContent _ => False
  end.

(* ================================================================== *)
(** * Vocabulary of the further statements about [mapHistory] *)
(* ================================================================== *)

(** The roles of a turn sequence, in order. *)
Definition roles (l : list Turn) : list Role.t := map role l.

(** No two neighbours of the list are the same role. *)
Fixpoint no_repeat (rs : list Role.t) : bool :=
  match rs with
  | a :: (b :: _) as rest => negb (Role.eqb a b) && no_repeat rest
  | _ => true
  end.

(** The two roles a provider other than Gemini is sent. *)
Definition strict_role (r : Role.t) : bool :=
  match r with
  | Role.user | Role.assistant => true
  | Role.model => false
  end.

(** The two roles Gemini is sent. *)
Definition gemini_role (r : Role.t) : bool :=
  match r with
  | Role.user | Role.model => true
  | Role.assistant => false
  end.

(** A longer exchange: the assistant opens, the user answers twice, two
    assistants answer in a row and an error banner closes. *)
Definition mixed_history : list Message.t :=
  [ message Sender.ai (Some "Bot") "welcome";
    message Sender.user None "hello";
    message Sender.user None "anyone there?";
    message Sender.ai (Some "Bot") "yes";
    message Sender.ai (Some "Eve") "me too";
    message Sender.system None "Error 500" ].

(* ================================================================== *)
(** * Vocabulary of the further statements about [cleanResponse] *)
(* ================================================================== *)

(** No line of the text starts with a hyphen. *)
Definition no_hyphen_line (text : string) : Prop :=
  Forall (fun line => Js.startsWith line "-" = false) (lines text).

(** The same, read along the text; [bol] tells whether the text starts at
    the start of a line. *)
Fixpoint hyphen_free (bol : bool) (s : string) : bool :=
  match s with
  | EmptyString => true
  | String c s' =>
      negb (bol && is_hyphen c) && hyphen_free (Js.is_line_terminator c) s'
  end.

(** A reply with a hyphen inside a line and a tag line behind a blank. *)
Definition plain_reply : string :=
  " Sure - here:" ^^ LF ^^ " --- END ---" ^^ LF.

(** A message by "Bot" whose text has blanks around it. *)
Definition padded_message : Message.t :=
  message Sender.ai (Some "Bot") ("  two" ^^ LF ^^ "lines ").

(** The tail [-+\s*$] of both patterns, as the matcher runs it: the end of
    the line, the blanks before it, the hyphens before those. *)
Definition at_line_end : Regex.Cont :=
  fun _ n s => if Regex.at_eol s then Some n else None.

Definition closing_blanks : Regex.Cont :=
  Regex.star_greedy Regex.WhiteSpace at_line_end.

Definition closing_run : Regex.Cont :=
  Regex.star_greedy (Regex.Lit "-") closing_blanks.

Definition closing_hyphens : Regex.Cont :=
  Regex.one_then (Regex.Lit "-") closing_run.

(* ================================================================== *)
(** * The chat window: [handleSend] *)
(* ================================================================== *)

(** The persona the user writes as. *)
Module Persona.
Record t : Set := mk {
  id : string;
  name : string;
  avatar : string;
  icon : string
}.
End Persona.

(** [currentSender]: the user, or the chat picked as sender when it is
    still in the list. *)
Definition currentSender (allChats : list Chat.t) (senderPersonaId : string)
  : Persona.t :=
  if (senderPersonaId =? "user")%string then Persona.mk "user" "Me" "" "fa-user"
  else match find (fun c => (Chat.id c =? senderPersonaId)%string) allChats with
       | Some p => Persona.mk (Chat.id p) (Chat.name p) (Chat.avatar p) "fa-robot"
       | None => Persona.mk "user" "Me" "" "fa-user"
       end.

(** What [handleSend] asks of its surroundings, in order: the state setters
    of the window and the callbacks the application handed in. *)
Inductive WindowEffect : Type :=
| setInputText (s : string)
| updateMessages (msgs : list Message.t)
| setIsTyping (b : bool)
| triggerAIResponse (msgs : list Message.t) (specificAuthorId : option string).

(** [handleSend], a closure over the [chat], the [responders], the
    [currentSender] and the three pieces of window state it reads. *)
Definition handleSend (chat : Chat.t) (rs : list Responder.t)
    (sender : Persona.t) (inputText selectedAuthorId senderPersonaId : string)
  : Async (list WindowEffect) :=
  let textToSend := Js.trim inputText in
  if negb (Js.truthy textToSend) && (selectedAuthorId =? "user")%string then ret []
  else
    sent <-
      (if Js.truthy textToSend then
         let isImpersonating := negb (senderPersonaId =? "user")%string in
         t_id <- Date_now ;;
         t_stamp <- Date_now ;;
         let senderMsg :=
           {| Message.id := "msg-" ^^ Js.string_of_Z t_id;
              Message.text := textToSend;
              Message.sender := if isImpersonating then Sender.ai else Sender.user;
              Message.authorId :=
                if isImpersonating then Some (Persona.id sender) else None;
              Message.authorName :=
                if isImpersonating then Some (Persona.name sender) else None;
              Message.timestamp := t_stamp;
              Message.isError := None |} in
         let newMsgs := Chat.messages chat ++ [senderMsg] in
         ret (newMsgs, [setInputText ""; updateMessages newMsgs])
       else ret (Chat.messages chat, [])) ;;
    if (senderPersonaId =? "user")%string then
      let target :=
        if (selectedAuthorId =? "user")%string then
          (* responders.length > 1 ? responders[1].id : undefined *)
          if 1 <? List.length rs then option_map Responder.id (nth_error rs 1)
          else None
        else Some selectedAuthorId in
      ret (snd sent
           ++ [setIsTyping true; triggerAIResponse (fst sent) target; setIsTyping false])
    else ret (snd sent).

(* ================================================================== *)
(** * [src/App.tsx]: the updaters of the list of chats *)
(* ================================================================== *)

(** [Array.from(new Set(l))]: the elements of [l] in the order of their
    first occurrence. *)
Definition Set_values (l : list string) : list string :=
  fold_left (fun seen t => if existsb (String.eqb t) seen then seen else seen ++ [t])
    l [].

(** A [Map] with string keys: its entries in insertion order. *)
Module JsMap.

Definition t (V : Type) : Type := list (string * V).

(** [m.set(k, v)]: the value of an existing key is replaced in place, a new
    key is added at the end. *)
Fixpoint set {V : Type} (k : string) (v : V) (m : t V) : t V :=
  match m with
  | [] => [(k, v)]
  | (k', v') :: m' =>
      if (k' =? k)%string then (k, v) :: m' else (k', v') :: set k v m'
  end.

(** [m.get(k)]. *)
Fixpoint get {V : Type} (k : string) (m : t V) : option V :=
  match m with
  | [] => None
  | (k', v') :: m' => if (k' =? k)%string then Some v' else get k m'
  end.

(** [new Map(entries)]. *)
Definition of_entries {V : Type} (entries : list (string * V)) : t V :=
  fold_left (fun m e => set (fst e) (snd e) m) entries [].

(** [Array.from(m.values())]. *)
Definition values {V : Type} (m : t V) : list V := map snd m.

End JsMap.

(** [Array.from(new Map(chats.map(item => [item.id, item])).values())], the
    list the application starts from and the list it stores. *)
Definition uniqueChats (chats : list Chat.t) : list Chat.t :=
  JsMap.values (JsMap.of_entries (map (fun item => (Chat.id item, item)) chats)).

(** [{ ...c, tags, isPinned }] *)
Definition with_tags (c : Chat.t) (tags : list string) (isPinned : bool) : Chat.t :=
  {| Chat.id := Chat.id c; Chat.name := Chat.name c; Chat.avatar := Chat.avatar c;
     Chat.provider := Chat.provider c; Chat.modelName := Chat.modelName c;
     Chat.systemPrompt := Chat.systemPrompt c; Chat.temperature := Chat.temperature c;
     Chat.lastMessage := Chat.lastMessage c; Chat.lastTimestamp := Chat.lastTimestamp c;
     Chat.isPinned := isPinned; Chat.messages := Chat.messages c; Chat.tags := tags;
     Chat.parentId := Chat.parentId c; Chat.draft := Chat.draft c;
     Chat.isGroup := Chat.isGroup c; Chat.participantIds := Chat.participantIds c |}.

(** The updater [handleArchiveChat] hands to [setChats]. *)
Definition archive (id : string) (prev : list Chat.t) : list Chat.t :=
  map (fun c => if (Chat.id c =? id)%string
                then with_tags c (Set_values (Chat.tags c ++ ["#archived"])) false
                else c) prev.

(** The updater [handleUnarchiveChat] hands to [setChats]. *)
Definition unarchive (id : string) (prev : list Chat.t) : list Chat.t :=
  map (fun c => if (Chat.id c =? id)%string
                then with_tags c
                       (filter (fun t => negb (t =? "#archived")%string) (Chat.tags c))
                       (Chat.isPinned c)
                else c) prev.

(** [{ ...existing, name, systemPrompt, tags }] of [handleImportMany]. *)
Definition merge_imported (existing nc : Chat.t) : Chat.t :=
  {| Chat.id := Chat.id existing;
     Chat.name := Js.or_else (Chat.name existing) (Chat.name nc);
     Chat.avatar := Chat.avatar existing;
     Chat.provider := Chat.provider existing; Chat.modelName := Chat.modelName existing;
     Chat.systemPrompt := Js.or_else (Chat.systemPrompt existing) (Chat.systemPrompt nc);
     Chat.temperature := Chat.temperature existing;
     Chat.lastMessage := Chat.lastMessage existing;
     Chat.lastTimestamp := Chat.lastTimestamp existing;
     Chat.isPinned := Chat.isPinned existing; Chat.messages := Chat.messages existing;
     Chat.tags := Set_values (Chat.tags existing ++ Chat.tags nc);
     Chat.parentId := Chat.parentId existing; Chat.draft := Chat.draft existing;
     Chat.isGroup := Chat.isGroup existing;
     Chat.participantIds := Chat.participantIds existing |}.

(** The callback of [newChats.forEach] in [handleImportMany]. *)
Definition import_step (mergedMap : JsMap.t Chat.t) (nc : Chat.t) : JsMap.t Chat.t :=
  match JsMap.get (Chat.id nc) mergedMap with
  | Some existing => JsMap.set (Chat.id nc) (merge_imported existing nc) mergedMap
  | None => JsMap.set (Chat.id nc) nc mergedMap
  end.

(** The updater [handleImportMany] hands to [setChats]. *)
Definition handleImportMany (newChats prev : list Chat.t) : list Chat.t :=
  let mergedMap := JsMap.of_entries (map (fun c => (Chat.id c, c)) prev) in
  JsMap.values (fold_left import_step newChats mergedMap).

(** The fields an import never changes in a chat it already knows. *)
Definition same_conversation (old new : Chat.t) : Prop :=
  Chat.id new = Chat.id old
  /\ Chat.messages new = Chat.messages old
  /\ Chat.provider new = Chat.provider old
  /\ Chat.modelName new = Chat.modelName old
  /\ Chat.isPinned new = Chat.isPinned old
  /\ Chat.parentId new = Chat.parentId old.

(** The persona B as a remote scan finds it: with another name and a tag. *)
Definition scanned_B : Chat.t :=
  with_tags (persona "b" "Cloud B" openai) ["#synced"] false.

(** Every entry of a map of chats is filed under the id of its chat. *)
Definition keyed_by_id (m : JsMap.t Chat.t) : Prop :=
  Forall (fun e => Chat.id (snd e) = fst e) m.

(** An entry of the map that stands for a chat of the old list. *)
Definition stands_for (old : Chat.t) (e : string * Chat.t) : Prop :=
  fst e = Chat.id old /\ same_conversation old (snd e).

(** A pinned chat with two tags. *)
Definition pinned_B : Chat.t := with_tags persona_B ["#work"; "#general"] true.

(* ================================================================== *)
(** * [src/unnamed/part_004]: the second copy of the service *)
(* ================================================================== *)

(** The file holds a copy of the service whose [mapHistory] differs: it
    glues the messages as it maps them, runs the strict merge as a second
    pass, and puts a filler turn before a leading assistant turn instead of
    rewriting that turn.  The window of step 1 is the same code. *)
Module Variant.

Definition role_of (provider : ModelProvider) (msg : Message.t) : Role.t :=
  match provider with
  | gemini =>
      match Message.sender msg with
      | Sender.user => Role.user
      | _ => Role.model
      end
  | _ =>
      match Message.sender msg with
      | Sender.user => Role.user
      | _ => Role.assistant
      end
  end.

Definition structuredText (msg : Message.t) : string :=
  LF ^^ "--- SOURCE: " ^^ Js.toUpperCase (authorLabel msg) ^^ " ---" ^^ LF
  ^^ Js.trim (Message.text msg) ^^ LF
  ^^ "--- END " ^^ Js.toUpperCase (authorLabel msg) ^^ " ---".

(** The callback of [finalMessages.forEach]. *)
Definition merge_message (provider : ModelProvider) (merged : list Turn)
    (msg : Message.t) : list Turn :=
  match Js.last_opt merged with
  | Some l =>
      if Role.eqb (role l) (role_of provider msg)
      then removelast merged
           ++ [ {| role := role l;
                   content := content l ^^ LF ^^ structuredText msg |} ]
      else merged ++ [ {| role := role_of provider msg;
                          content := structuredText msg |} ]
  | None => merged ++ [ {| role := role_of provider msg;
                           content := structuredText msg |} ]
  end.

Definition merge_messages (provider : ModelProvider) (finalMessages : list Message.t)
  : list Turn :=
  fold_left (merge_message provider) finalMessages [].

(** The filler turn. *)
Definition wake_up : Turn :=
  {| role := Role.user; content := "Wake up and analyze the dialogue log." |}.

Definition mapHistory (history : list Message.t) (provider : ModelProvider)
  : list Turn :=
  if List.length history =? 0 then []
  else
    let merged := merge_messages provider (windowMessages history) in
    match provider with
    | gemini => merged
    | _ =>
        let strictMerged := merge_runs merged in
        match strictMerged with
        | first :: _ =>
            if Role.eqb (role first) Role.assistant
            then wake_up :: strictMerged
            else strictMerged
        | [] => strictMerged
        end
    end.

End Variant.

(* ================================================================== *)
(** * [src/services/aiService.ts]: the assistants of the remote account *)
(* ================================================================== *)

Module Remote.

Inductive Method : Set := GET | POST | DELETE.

(** [{ name, instructions, model }], the body of the creating request. *)
Module NewAssistant.
Record t : Set := mk {
  name : string;
  instructions : string;
  model : string
}.
End NewAssistant.

(** A [fetch] call on the assistants API. *)
Module Call.
Record t : Set := mk {
  method : Method;
  url : string;
  authorization : string;                (* the Authorization header *)
  beta : string;                         (* the OpenAI-Beta header *)
  contentType : option string;           (* the Content-Type header *)
  body : option NewAssistant.t           (* [JSON.stringify({...})] *)
}.
End Call.

(** An assistant in the list the account returns, a JSON object whose
    [name] and [instructions] may be missing. *)
Module Listed.
Record t : Set := mk {
  id : string;
  name : option string;
  instructions : option string;
  model : string
}.
End Listed.

(** What the code reads from a parsed response body, a JSON object. *)
Module Body.
Record t : Set := mk {
  data : option (list Listed.t);         (* [data.data], when it is an array *)
  id : string;                           (* [data.id] *)
  error_message : option string          (* [data.error?.message] *)
}.
End Body.

Inductive Reply : Set :=
| Rejects (message : string)                   (* [fetch] rejects *)
| Unparsable (status : nat) (message : string) (* [res.json()] would reject *)
| Answers (status : nat) (body : Body.t).

(** What a call leaves behind: the request, and the line it writes to the
    console (level and first argument). *)
Inductive Log : Set :=
| Fetched (c : Call.t)
| Console (level label : string).

(** The entries [discoverRemoteOccultPersonas] returns. *)
Module Found.
Record t : Set := mk {
  id : string;
  name : string;
  systemPrompt : string;
  provider : ModelProvider;
  modelName : string;
  tags : list string;
  avatar : string
}.
End Found.

(** The callback of [data.data.forEach]. *)
Definition of_listed (a : Listed.t) : Found.t :=
  {| Found.id := Listed.id a;
     Found.name := Js.opt_or_else (Listed.name a) "Cloud Assistant";
     Found.systemPrompt := Js.opt_or_else (Listed.instructions a) "No instructions provided.";
     Found.provider := openai;
     Found.modelName := Listed.model a;
     Found.tags := ["#synced"; "assistant"];
     Found.avatar := "" |}.

Definition deepseek_entry : Found.t :=
  {| Found.id := "ds-v3-discovery";
     Found.name := "DeepSeek Assistant";
     Found.systemPrompt := "You are a helpful and efficient assistant powered by DeepSeek.";
     Found.provider := deepseek;
     Found.modelName := "deepseek-chat";
     Found.tags := ["#synced"; "deepseek"];
     Found.avatar := "" |}.

Definition gemini_entry : Found.t :=
  {| Found.id := "gem-discovery";
     Found.name := "Gemini Pro Assistant";
     Found.systemPrompt := "You are a helpful and capable assistant powered by Google Gemini.";
     Found.provider := gemini;
     Found.modelName := "gemini-3-pro-preview";
     Found.tags := ["#synced"; "gemini"];
     Found.avatar := "" |}.

Definition list_call (openaiKey : string) : Call.t :=
  {| Call.method := GET;
     Call.url := "https://api.openai.com/v1/assistants?limit=100";
     Call.authorization := "Bearer " ^^ openaiKey;
     Call.beta := "assistants=v2";
     Call.contentType := Some "application/json";
     Call.body := None |}.

(** [discoverRemoteOccultPersonas], with the back end and the process
    environment it reads; it returns what it found and what it left behind. *)
Definition discoverRemoteOccultPersonas (fetch : Call.t -> Reply)
    (API_KEY : option string) (openaiKey deepseekKey : string)
  : list Found.t * list Log :=
  let warn := Console "warn" "OpenAI scan partially failed:" in
  let scan :=
    if Js.truthy openaiKey then
      let c := list_call openaiKey in
      match fetch c with
      | Rejects _ => ([], [Fetched c; warn])
      | Unparsable status _ =>
          if res_ok status then ([], [Fetched c; warn]) else ([], [Fetched c])
      | Answers status body =>
          if res_ok status then
            match Body.data body with
            | Some assistants => (map of_listed assistants, [Fetched c])
            | None => ([], [Fetched c; warn])
            end
          else ([], [Fetched c])
      end
    else ([], []) in
  (fst scan
   ++ (if Js.truthy deepseekKey then [deepseek_entry] else [])
   ++ (if match API_KEY with Some k => Js.truthy k | None => false end
       then [gemini_entry] else []),
   snd scan).

Definition delete_call (assistantId apiKey : string) : Call.t :=
  {| Call.method := DELETE;
     Call.url := "https://api.openai.com/v1/assistants/" ^^ assistantId;
     Call.authorization := "Bearer " ^^ apiKey;
     Call.beta := "assistants=v2";
     Call.contentType := None;
     Call.body := None |}.

(** [deleteRemoteAssistant]; the body of the response is not read. *)
Definition deleteRemoteAssistant (fetch : Call.t -> Reply)
    (assistantId apiKey : string) : bool * list Log :=
  if negb (Js.startsWith assistantId "as-") then (false, [])
  else
    let c := delete_call assistantId apiKey in
    match fetch c with
    | Rejects _ => (false, [Fetched c; Console "error" "Failed to delete remote assistant:"])
    | Unparsable status _ => (res_ok status, [Fetched c])
    | Answers status _ => (res_ok status, [Fetched c])
    end.

(** [{ id } | { error }] *)
Inductive Created : Set :=
| Id (id : string)
| Error (error : string).

Definition create_call (name instructions model apiKey : string) : Call.t :=
  {| Call.method := POST;
     Call.url := "https://api.openai.com/v1/assistants";
     Call.authorization := "Bearer " ^^ apiKey;
     Call.beta := "assistants=v2";
     Call.contentType := Some "application/json";
     Call.body := Some (NewAssistant.mk name instructions model) |}.

(** [createRemoteAssistant]. *)
Definition createRemoteAssistant (fetch : Call.t -> Reply)
    (provider : ModelProvider) (name instructions model apiKey : string)
  : Created * list Log :=
  if negb (ModelProvider_eqb provider openai)
  then (Error "Remote creation only supported for OpenAI.", [])
  else
    let c := create_call name instructions model apiKey in
    let failed (e : string) :=
      (Error (Js.or_else e "Network connection failed."),
       [Fetched c; Console "error" "Failed to create remote assistant:"]) in
    match fetch c with
    | Rejects e => failed e
    | Unparsable _ e => failed e
    | Answers status body =>
        if res_ok status then (Id (Body.id body), [Fetched c])
        else (Error (Js.opt_or_else (Body.error_message body)
                       ("API Error " ^^ Js.string_of_Z (Z.of_nat status))),
              [Fetched c])
    end.

End Remote.

(** An entry the scan returns can be shown and used: it has a name and a
    prompt, and is tagged as synced. *)
Definition usable (f : Remote.Found.t) : Prop :=
  Js.truthy (Remote.Found.name f) = true
  /\ Js.truthy (Remote.Found.systemPrompt f) = true
  /\ hd_error (Remote.Found.tags f) = Some "#synced"
  /\ Remote.Found.avatar f = "".

(** A back end that lists one assistant without a name. *)
Definition one_nameless : Remote.Call.t -> Remote.Reply :=
  fun _ => Remote.Answers 200
             (Remote.Body.mk
                (Some [Remote.Listed.mk "asst_1" None (Some "Be kind.") "gpt-4o"])
                "" None).

(** A back end that refuses with status 500 and no message. *)
Definition refusing : Remote.Call.t -> Remote.Reply :=
  fun _ => Remote.Answers 500 (Remote.Body.mk None "" None).

(* ================================================================== *)
(** * Properties *)
(* ================================================================== *)

(* ================================================================== *)
(** * The window of [mapHistory] *)
(* ================================================================== *)

Section Window.

Local Notation "'len' m" := (Z.of_nat (String.length (Message.text m)))
  (at level 10, m at level 9).

Lemma window_loop_prefix pending : forall totalChars finalMessages,
  exists k, window_loop pending totalChars finalMessages
            = rev (firstn k pending) ++ finalMessages.
Proof.
  induction pending as [|msg rest IH]; intros totalChars finalMessages; simpl.
  - exists 0. reflexivity.
  - destruct ((totalChars + len msg >? MAX_HISTORY_CHARS)%Z
              && (0 <? List.length finalMessages)).
    + exists 0. reflexivity.
    + destruct (IH (totalChars + len msg)%Z (msg :: finalMessages)) as [k Hk].
      exists (S k). rewrite Hk. simpl. rewrite <- app_assoc. reflexivity.
Qed.

Lemma window_loop_budget pending : forall totalChars finalMessages,
  totalChars = total_chars finalMessages ->
  within_budget finalMessages ->
  within_budget (window_loop pending totalChars finalMessages).
Proof.
  induction pending as [|msg rest IH]; intros totalChars finalMessages Htot Hin; simpl.
  - exact Hin.
  - destruct (totalChars + len msg >? MAX_HISTORY_CHARS)%Z eqn:Hover;
      destruct (0 <? List.length finalMessages) eqn:Hlen; simpl; try exact Hin.
    + apply IH; [simpl; lia|].
      right. apply Nat.ltb_ge in Hlen. simpl. lia.
    + apply IH; [simpl; lia|].
      left. simpl. rewrite Z.gtb_ltb in Hover. apply Z.ltb_ge in Hover. lia.
    + apply IH; [simpl; lia|].
      left. simpl. rewrite Z.gtb_ltb in Hover. apply Z.ltb_ge in Hover. lia.
Qed.

Lemma window_loop_keeps pending : forall totalChars finalMessages,
  finalMessages <> [] -> window_loop pending totalChars finalMessages <> [].
Proof.
  induction pending as [|msg rest IH]; intros totalChars finalMessages Hne; simpl.
  - exact Hne.
  - destruct (_ && _); [exact Hne|]. apply IH. discriminate.
Qed.

Lemma window_loop_nonempty pending totalChars :
  pending <> [] -> window_loop pending totalChars [] <> [].
Proof.
  destruct pending as [|msg rest]; [congruence|]. intros _. simpl.
  rewrite andb_false_r. apply window_loop_keeps. discriminate.
Qed.

(** When everything fits, the loop runs to the end. *)
Lemma window_loop_all pending : forall totalChars finalMessages,
  (totalChars + total_chars pending <= MAX_HISTORY_CHARS)%Z ->
  window_loop pending totalChars finalMessages = rev pending ++ finalMessages.
Proof.
  induction pending as [|msg rest IH]; intros totalChars finalMessages Hfit; simpl.
  - reflexivity.
  - simpl in Hfit.
    assert (Hrest : (0 <= total_chars rest)%Z).
    { clear. induction rest; simpl; lia. }
    replace (totalChars + len msg >? MAX_HISTORY_CHARS)%Z with false
      by (symmetry; rewrite Z.gtb_ltb; apply Z.ltb_ge; lia).
    simpl. rewrite IH by lia. rewrite <- app_assoc. reflexivity.
Qed.

(** A message over the budget is admitted alone. *)
Lemma window_loop_oversized msg rest :
  (MAX_HISTORY_CHARS < len msg)%Z ->
  window_loop (msg :: rest) 0 [] = [msg].
Proof.
  intros Hbig. simpl. rewrite andb_false_r.
  destruct rest as [|m2 rest]; simpl; [reflexivity|].
  replace (len msg + len m2 >? MAX_HISTORY_CHARS)%Z with true
    by (symmetry; rewrite Z.gtb_ltb; apply Z.ltb_lt; lia).
  reflexivity.
Qed.

Lemma slice_last_length {A : Type} n (l : list A) :
  List.length (Js.slice_last n l) <= n.
Proof. unfold Js.slice_last. rewrite length_skipn. lia. Qed.

Lemma slice_last_suffix {A : Type} n (l : list A) : is_suffix (Js.slice_last n l) l.
Proof.
  exists (firstn (List.length l - n) l). unfold Js.slice_last.
  symmetry. apply firstn_skipn.
Qed.

Lemma slice_last_snoc {A : Type} n (l : list A) x :
  Js.slice_last (S n) (l ++ [x]) = Js.slice_last n l ++ [x].
Proof.
  unfold Js.slice_last. rewrite length_app. simpl.
  replace (List.length l + 1 - S n) with (List.length l - n) by lia.
  rewrite skipn_app.
  replace (List.length l - n - List.length l) with 0 by lia.
  reflexivity.
Qed.

Lemma is_suffix_trans {A : Type} (a b c : list A) :
  is_suffix a b -> is_suffix b c -> is_suffix a c.
Proof.
  intros [p Hp] [q Hq]. exists (q ++ p). subst. now rewrite app_assoc.
Qed.

Lemma is_suffix_length {A : Type} (a b : list A) :
  is_suffix a b -> List.length a <= List.length b.
Proof. intros [p ->]. rewrite length_app. lia. Qed.

Lemma windowMessages_suffix_recent history :
  is_suffix (windowMessages history)
            (Js.slice_last MAX_HISTORY_MESSAGES (chatMessages history)).
Proof.
  unfold windowMessages.
  set (recent := Js.slice_last MAX_HISTORY_MESSAGES (chatMessages history)).
  destruct (window_loop_prefix (rev recent) 0%Z []) as [k Hk].
  rewrite Hk, app_nil_r.
  exists (rev (skipn k (rev recent))).
  rewrite <- rev_app_distr, firstn_skipn, rev_involutive. reflexivity.
Qed.

Lemma chatMessages_none history :
  chatMessages history = [] <-> Forall (fun m => is_system m = true) history.
Proof.
  unfold chatMessages, is_system. induction history as [|m h IH]; simpl.
  - split; auto.
  - destruct (Sender.eqb (Message.sender m) Sender.system) eqn:E; simpl.
    + rewrite IH. split; [intros; constructor; auto | intros H; inversion H; auto].
    + split; [discriminate | intros H; inversion H; congruence].
Qed.

Lemma windowMessages_nonempty history :
  chatMessages history <> [] -> windowMessages history <> [].
Proof.
  intros Hne. unfold windowMessages. apply window_loop_nonempty.
  intros Hrev. apply (f_equal (@rev _)) in Hrev. rewrite rev_involutive in Hrev.
  cbn [rev] in Hrev. unfold Js.slice_last in Hrev.
  apply (f_equal (@List.length _)) in Hrev. rewrite length_skipn in Hrev.
  destruct (chatMessages history); [congruence|].
  cbn [List.length] in Hrev. unfold MAX_HISTORY_MESSAGES in Hrev. lia.
Qed.

End Window.

Lemma total_chars_app a b : total_chars (a ++ b) = (total_chars a + total_chars b)%Z.
Proof. induction a as [|m a IH]; simpl; [reflexivity | rewrite IH; lia]. Qed.

Lemma total_chars_rev l : total_chars (rev l) = total_chars l.
Proof.
  induction l as [|m l IH]; simpl; [reflexivity|].
  rewrite total_chars_app, IH. simpl. lia.
Qed.

Lemma total_chars_unit l :
  Forall (fun m => String.length (Message.text m) = 1) l ->
  total_chars l = Z.of_nat (List.length l).
Proof.
  induction 1 as [|m l Hm _ IH]; simpl; [reflexivity|].
  rewrite IH, Hm. lia.
Qed.

Lemma chatMessages_all history :
  Forall (fun m => is_system m = false) history -> chatMessages history = history.
Proof.
  unfold chatMessages, is_system.
  induction 1 as [|m l Hm _ IH]; simpl; [reflexivity|].
  rewrite Hm. simpl. now rewrite IH.
Qed.

Lemma Forall_suffix {A : Type} (P : A -> Prop) (w l : list A) :
  is_suffix w l -> Forall P l -> Forall P w.
Proof. intros [older ->] H. apply Forall_app in H. tauto. Qed.

(** C5.  The window [mapHistory] keeps is a contiguous suffix of the
    non-system messages, holds at most 40 of them, stays within 12,000
    characters unless it is a single message, and is not empty when there is
    a non-system message.  Of 50 one-character messages at most 40 are kept
    (the last 40 when none is a system message), and when the last
    non-system message alone exceeds 12,000 characters the window is exactly
    that message. *)
Theorem windowMessages_retains (history : list Message.t) :
  let w := windowMessages history in
  (is_suffix w (chatMessages history)
   /\ List.length w <= 40
   /\ ((total_chars w <= 12000)%Z \/ List.length w = 1)
   /\ (chatMessages history <> [] -> w <> []))
  /\ (List.length history = 50 ->
      Forall (fun m => String.length (Message.text m) = 1) history ->
      List.length w <= 40
      /\ (Forall (fun m => is_system m = false) history -> w = skipn 10 history))
  /\ (forall older msg,
        chatMessages history = older ++ [msg] ->
        (12000 < Z.of_nat (String.length (Message.text msg)))%Z ->
        w = [msg]).
Proof.
  intros w.
  assert (Hsuf : is_suffix w (chatMessages history)).
  { eapply is_suffix_trans; [apply windowMessages_suffix_recent | apply slice_last_suffix]. }
  assert (Hlen : List.length w <= 40).
  { etransitivity; [apply is_suffix_length, windowMessages_suffix_recent|].
    apply (slice_last_length MAX_HISTORY_MESSAGES). }
  split; [|split].
  - repeat split; auto.
    + assert (Hb : within_budget w).
      { apply window_loop_budget; [reflexivity | left; simpl; unfold MAX_HISTORY_CHARS; lia]. }
      destruct Hb as [Hb | Hb]; [left; exact Hb|].
      destruct w as [|m [|m' w']]; simpl in *; lia.
    + apply windowMessages_nonempty.
  - intros H50 Hone. split; [exact Hlen|]. intros Hsys.
    subst w. unfold windowMessages. rewrite (chatMessages_all history Hsys).
    assert (Hrecent : Js.slice_last MAX_HISTORY_MESSAGES history = skipn 10 history).
    { unfold Js.slice_last. rewrite H50. reflexivity. }
    rewrite Hrecent, window_loop_all, rev_involutive, app_nil_r; [reflexivity|].
    rewrite total_chars_rev, total_chars_unit.
    + rewrite length_skipn, H50. unfold MAX_HISTORY_CHARS. simpl. lia.
    + eapply Forall_suffix; [|exact Hone].
      exists (firstn 10 history). symmetry. apply firstn_skipn.
  - intros older msg Hchat Hbig. subst w. unfold windowMessages.
    rewrite Hchat. unfold MAX_HISTORY_MESSAGES. rewrite slice_last_snoc.
    rewrite rev_app_distr. cbn [rev app]. apply window_loop_oversized. exact Hbig.
Qed.

(* ================================================================== *)
(** * Merging and repair in [mapHistory] *)
(* ================================================================== *)

Section Arrays.
Context {A : Type}.

Lemma last_opt_snoc (l : list A) x : Js.last_opt (l ++ [x]) = Some x.
Proof. unfold Js.last_opt. now rewrite rev_unit. Qed.

Lemma snoc_cases (l : list A) : l = [] \/ exists l' x, l = l' ++ [x].
Proof.
  destruct l as [|a l] using rev_ind; [left; reflexivity | right; eauto].
Qed.

Lemma update_last_snoc (f : A -> A) l x : Js.update_last f (l ++ [x]) = l ++ [f x].
Proof. unfold Js.update_last. now rewrite last_opt_snoc, removelast_last. Qed.

Lemma update_last_nil (f : A -> A) : Js.update_last f [] = [].
Proof. reflexivity. Qed.
End Arrays.

Lemma append_nonempty_l a b : a <> "" -> a ^^ b <> "".
Proof. destruct a; [congruence | discriminate]. Qed.

Lemma mapMessage_has_content provider msg : has_content (mapMessage provider msg).
Proof. unfold has_content. simpl. discriminate. Qed.

Lemma merge_step_snoc acc l m :
  merge_step (acc ++ [l]) m
  = if Role.eqb (role l) (role m)
    then acc ++ [ {| role := role l; content := content l ^^ LF ^^ LF ^^ content m |} ]
    else (acc ++ [l]) ++ [m].
Proof. unfold merge_step. now rewrite last_opt_snoc, removelast_last. Qed.

Lemma merge_step_has_content acc m :
  Forall has_content acc -> has_content m -> Forall has_content (merge_step acc m).
Proof.
  intros Hacc Hm. destruct (snoc_cases acc) as [-> | (acc' & l & ->)].
  - repeat constructor. exact Hm.
  - rewrite merge_step_snoc. apply Forall_app in Hacc as [Hacc' Hl].
    inversion Hl as [|? ? Hl' _]; subst.
    destruct (Role.eqb (role l) (role m)).
    + apply Forall_app. split; [exact Hacc'|]. repeat constructor.
      unfold has_content. simpl. now apply append_nonempty_l.
    + repeat (apply Forall_app; split); auto.
Qed.

Lemma merge_step_nonempty acc m : merge_step acc m <> [].
Proof.
  destruct (snoc_cases acc) as [-> | (acc' & l & ->)]; [discriminate|].
  rewrite merge_step_snoc. destruct (Role.eqb _ _); intros H;
    apply (f_equal (@List.length _)) in H; rewrite !length_app in H; simpl in H; lia.
Qed.

Lemma fold_merge_has_content mapped : forall acc,
  Forall has_content acc -> Forall has_content mapped ->
  Forall has_content (fold_left merge_step mapped acc).
Proof.
  induction mapped as [|m l IH]; intros acc Hacc Hl; simpl; [exact Hacc|].
  inversion Hl; subst. apply IH; [apply merge_step_has_content|]; assumption.
Qed.

Lemma fold_merge_nonempty mapped : forall acc,
  acc <> [] -> fold_left merge_step mapped acc <> [].
Proof.
  induction mapped as [|m l IH]; intros acc Hacc; simpl; [exact Hacc|].
  apply IH, merge_step_nonempty.
Qed.

Lemma merge_runs_nonempty mapped : mapped <> [] -> merge_runs mapped <> [].
Proof.
  destruct mapped as [|m l]; [congruence|]. intros _.
  unfold merge_runs. simpl. apply fold_merge_nonempty. discriminate.
Qed.

Lemma rule1_has_content h : Forall has_content h -> Forall has_content (rule1 h).
Proof.
  destruct h as [|first rest]; simpl; [auto|]. intros H.
  destruct (role first); auto. inversion H; subst.
  constructor; [|assumption]. unfold has_content. simpl. discriminate.
Qed.

Lemma rule1_nonempty h : h <> [] -> rule1 h <> [].
Proof. destruct h as [|first rest]; simpl; [congruence|]. destruct (role first); discriminate. Qed.

Lemma rule2_snoc h lastTurn :
  rule2 (h ++ [lastTurn])
  = if (1 <? List.length (h ++ [lastTurn])) && is_assistant lastTurn
    then Js.update_last
           (fun t => {| role := role t;
                        content := content t ^^ LF ^^ LF ^^ "[FOLLOW-UP RESPONSE]:"
                                   ^^ LF ^^ content lastTurn |}) h
    else match h ++ [lastTurn] with
         | [onlyMsg] =>
             if is_assistant onlyMsg
             then [ {| role := Role.user;
                       content := "[DIALOGUE CONTEXT]:" ^^ LF ^^ content onlyMsg |} ]
             else h ++ [lastTurn]
         | _ => h ++ [lastTurn]
         end.
Proof. unfold rule2. now rewrite last_opt_snoc, removelast_last. Qed.

Lemma rule2_has_content h : Forall has_content h -> Forall has_content (rule2 h).
Proof.
  intros H. destruct (snoc_cases h) as [-> | (h' & lastTurn & ->)]; [exact H|].
  rewrite rule2_snoc.
  destruct ((1 <? List.length (h' ++ [lastTurn])) && is_assistant lastTurn).
  - apply Forall_app in H as [H' _].
    destruct (snoc_cases h') as [-> | (h'' & t & ->)]; [constructor|].
    rewrite update_last_snoc. apply Forall_app in H' as [H'' Ht].
    apply Forall_app. split; [exact H''|]. inversion Ht; subst.
    repeat constructor. unfold has_content. simpl. now apply append_nonempty_l.
  - destruct (h' ++ [lastTurn]) as [|onlyMsg [|]]; auto.
    destruct (is_assistant onlyMsg); auto.
    repeat constructor. unfold has_content. simpl. discriminate.
Qed.

Lemma rule2_nonempty h : h <> [] -> rule2 h <> [].
Proof.
  intros H. destruct (snoc_cases h) as [-> | (h' & lastTurn & ->)]; [congruence|].
  rewrite rule2_snoc.
  destruct ((1 <? List.length (h' ++ [lastTurn])) && is_assistant lastTurn) eqn:E.
  - apply andb_prop in E as [E _]. apply Nat.ltb_lt in E.
    rewrite length_app in E. simpl in E.
    destruct (snoc_cases h') as [-> | (h'' & t & ->)]; [simpl in E; lia|].
    rewrite update_last_snoc. intros Hnil. now apply app_eq_nil in Hnil as [_ ?].
  - destruct (h' ++ [lastTurn]) as [|onlyMsg [|]]; try congruence.
    destruct (is_assistant onlyMsg); discriminate.
Qed.

Lemma chatMessages_nonempty history :
  (exists m, In m history /\ is_system m = false) -> chatMessages history <> [].
Proof.
  intros (m & Hin & Hm) Hnil.
  assert (Hf : In m (chatMessages history)).
  { apply filter_In. split; [exact Hin|]. unfold is_system in Hm. now rewrite Hm. }
  rewrite Hnil in Hf. exact Hf.
Qed.

(** C4, as amended.  Every turn [mapHistory] returns has content that is
    not empty, whatever the history and the provider; and the result is not
    empty as soon as the history holds one message that is not a system
    message. *)
Theorem mapHistory_nonempty (history : list Message.t) (provider : ModelProvider) :
  Forall has_content (mapHistory history provider)
  /\ ((exists m, In m history /\ is_system m = false) ->
      mapHistory history provider <> []).
Proof.
  unfold mapHistory. destruct (List.length history =? 0) eqn:Hlen.
  - split; [constructor|]. intros (m & Hin & _).
    apply Nat.eqb_eq in Hlen. destruct history; [contradiction | discriminate].
  - assert (Hmapped : Forall has_content (map (mapMessage provider) (windowMessages history))).
    { apply Forall_map, Forall_forall. intros msg _. apply mapMessage_has_content. }
    assert (Hmerged : Forall has_content
                        (merge_runs (map (mapMessage provider) (windowMessages history)))).
    { apply fold_merge_has_content; [constructor | exact Hmapped]. }
    split.
    + destruct provider; auto using rule1_has_content, rule2_has_content.
    + intros Hex.
      assert (Hne : merge_runs (map (mapMessage provider) (windowMessages history)) <> []).
      { apply merge_runs_nonempty. intros Hnil. apply map_eq_nil in Hnil.
        revert Hnil. apply windowMessages_nonempty, chatMessages_nonempty, Hex. }
      destruct provider; auto using rule1_nonempty, rule2_nonempty.
Qed.

(** C5, at two histories: of fifty one-character messages the last forty
    are kept, and a last message of 12,003 characters is kept alone. *)
Lemma windowMessages_retains_witness :
  windowMessages fifty_short = skipn 10 fifty_short
  /\ windowMessages long_last = [oversized].
Proof.
  split.
  - apply (proj1 (proj2 (windowMessages_retains fifty_short))).
    + reflexivity.
    + unfold fifty_short. apply Forall_forall. intros m Hm.
      apply repeat_spec in Hm. subst m. reflexivity.
    + unfold fifty_short. apply Forall_forall. intros m Hm.
      apply repeat_spec in Hm. subst m. reflexivity.
  - apply (proj2 (proj2 (windowMessages_retains long_last))
             [message Sender.user None "hello"; message Sender.ai (Some "Bot") "hi"]
             oversized).
    + reflexivity.
    + vm_compute. reflexivity.
Defined.

(** C4, at the history of one assistant message. *)
Lemma mapHistory_nonempty_witness : mapHistory bot_says_hi openai <> [].
Proof.
  apply (proj2 (mapHistory_nonempty bot_says_hi openai)).
  exists (message Sender.ai (Some "Bot") "hi").
  split; [left; reflexivity | reflexivity].
Defined.

(** C4 fails as stated: a history that is not empty but holds only a system
    message is mapped to the empty sequence, for every provider. *)
Lemma mapHistory_empty_on_system_only :
  only_system_history <> []
  /\ mapHistory only_system_history openai = []
  /\ mapHistory only_system_history deepseek = []
  /\ mapHistory only_system_history gemini = [].
Proof. repeat split; try reflexivity. discriminate. Qed.

(** A single turn that survives rule 1 is never an assistant turn, so rule 2
    leaves it as it is: the "dialogue context" branch is never taken. *)
Lemma rule2_single_after_rule1 h t : rule1 h = [t] -> rule2 (rule1 h) = [t].
Proof.
  intros H. rewrite H.
  assert (Hrole : is_assistant t = false).
  { destruct h as [|first rest]; simpl in H; [discriminate|].
    unfold is_assistant.
    destruct (role first) eqn:E; inversion H; subst; simpl; now rewrite ?E. }
  unfold rule2. simpl. now rewrite Hrole.
Qed.

(** C1 (defect in the code).  For the history of an assistant message
    followed by a user message, [mapHistory] returns two consecutive user
    turns for both strict providers: the sequence does not alternate. *)
Theorem mapHistory_consecutive_user_turns :
  map role (mapHistory assistant_then_user openai) = [Role.user; Role.user]
  /\ map role (mapHistory assistant_then_user deepseek) = [Role.user; Role.user]
  /\ strict_alternation (mapHistory assistant_then_user openai) = false
  /\ strict_alternation (mapHistory assistant_then_user deepseek) = false.
Proof. repeat split; reflexivity. Qed.

(** C2 (defect in the code).  The history of the single assistant message
    "hi" by "Bot" is mapped to exactly one user turn whose content holds
    "hi"; it is wrapped as "PREVIOUS CONTEXT" by rule 1, and "DIALOGUE
    CONTEXT" does not occur in it. *)
Theorem mapHistory_single_assistant_message :
  mapHistory bot_says_hi openai
  = [ {| role := Role.user;
         content := "[PREVIOUS CONTEXT]:" ^^ LF ^^ "--- SOURCE: BOT ---" ^^ LF
                    ^^ "hi" ^^ LF ^^ "--- END BOT ---" |} ]
  /\ mapHistory bot_says_hi deepseek = mapHistory bot_says_hi openai
  /\ Forall (fun t => Js.includes (content t) "hi" = true
                      /\ Js.includes (content t) "PREVIOUS CONTEXT" = true
                      /\ Js.includes (content t) "DIALOGUE CONTEXT" = false)
       (mapHistory bot_says_hi openai).
Proof. repeat split; try reflexivity. repeat constructor. Qed.

(* ================================================================== *)
(** * [trim] *)
(* ================================================================== *)

Lemma length_append a b : String.length (a ^^ b) = String.length a + String.length b.
Proof. induction a as [|c a IH]; simpl; [reflexivity | now rewrite IH]. Qed.

Lemma append_assoc a b c : (a ^^ b) ^^ c = a ^^ b ^^ c.
Proof. induction a as [|x a IH]; simpl; [reflexivity | now rewrite IH]. Qed.

Lemma append_empty_r a : a ^^ "" = a.
Proof. induction a as [|x a IH]; simpl; [reflexivity | now rewrite IH]. Qed.

Lemma trimStart_length s : String.length (Js.trimStart s) <= String.length s.
Proof.
  induction s as [|c s IH]; simpl; [lia|].
  destruct (Js.is_white_space c); simpl; lia.
Qed.

Lemma trimEnd_length s : String.length (Js.trimEnd s) <= String.length s.
Proof.
  induction s as [|c s IH]; simpl; [lia|].
  destruct (Js.trimEnd s); [destruct (Js.is_white_space c)|]; simpl in *; lia.
Qed.

Lemma trim_length s : String.length (Js.trim s) <= String.length s.
Proof.
  unfold Js.trim. etransitivity; [apply trimEnd_length | apply trimStart_length].
Qed.

Lemma trimEnd_idempotent s : Js.trimEnd (Js.trimEnd s) = Js.trimEnd s.
Proof.
  induction s as [|c s IH]; simpl; [reflexivity|].
  destruct (Js.trimEnd s) as [|d t] eqn:E.
  - destruct (Js.is_white_space c) eqn:Hc; simpl; [reflexivity | now rewrite Hc].
  - change (Js.trimEnd (String c (String d t)))
      with (match Js.trimEnd (String d t) with
            | EmptyString => if Js.is_white_space c then EmptyString else String c EmptyString
            | t' => String c t'
            end).
    now rewrite IH.
Qed.

(** A text that does not start with white space keeps its first code unit
    when its end is trimmed. *)
Lemma trimStart_trimEnd s :
  Js.trimStart s = s -> Js.trimStart (Js.trimEnd s) = Js.trimEnd s.
Proof.
  destruct s as [|c s]; [reflexivity|]. simpl.
  destruct (Js.is_white_space c) eqn:Hc.
  - intros H. apply (f_equal String.length) in H. simpl in H.
    pose proof (trimStart_length s). lia.
  - intros _. destruct (Js.trimEnd s); simpl; now rewrite Hc.
Qed.

Lemma trimStart_idempotent s : Js.trimStart (Js.trimStart s) = Js.trimStart s.
Proof.
  induction s as [|c s IH]; simpl; [reflexivity|].
  destruct (Js.is_white_space c) eqn:Hc; [exact IH | simpl; now rewrite Hc].
Qed.

Lemma trim_idempotent s : Js.trim (Js.trim s) = Js.trim s.
Proof.
  unfold Js.trim.
  rewrite (trimStart_trimEnd (Js.trimStart s)) by apply trimStart_idempotent.
  apply trimEnd_idempotent.
Qed.

(* ================================================================== *)
(** * The matcher and the global replacement *)
(* ================================================================== *)

Section Matcher.

Import Regex.

Lemma star_greedy_grows cs k : grows k -> grows (star_greedy cs k).
Proof.
  intros Hk b n s. revert b n.
  induction s as [|c s IH]; intros b n r; simpl; [apply Hk|].
  destruct (char_matches cs c); [|apply Hk].
  destruct (star_greedy cs k (Js.is_line_terminator c) (S n) s) as [r'|] eqn:E.
  - intros [= <-]. apply IH in E. lia.
  - apply Hk.
Qed.

Lemma star_lazy_unfold cs k b n s :
  star_lazy cs k b n s
  = match k b n s with
    | Some r => Some r
    | None =>
        match s with
        | String c s' =>
            if char_matches cs c
            then star_lazy cs k (Js.is_line_terminator c) (S n) s'
            else None
        | EmptyString => None
        end
    end.
Proof. destruct s; reflexivity. Qed.

Lemma star_lazy_grows cs k : grows k -> grows (star_lazy cs k).
Proof.
  intros Hk b n s. revert b n.
  induction s as [|c s IH]; intros b n r; rewrite star_lazy_unfold;
    destruct (k b n _) as [r'|] eqn:E; try discriminate.
  - intros [= <-]. now apply Hk in E.
  - intros [= <-]. now apply Hk in E.
  - destruct (char_matches cs c); [|discriminate].
    intros H. apply IH in H. lia.
Qed.

Lemma one_then_longer cs k b n s r :
  grows k -> one_then cs k b n s = Some r -> S n <= r.
Proof.
  intros Hk. unfold one_then. destruct s as [|c s]; [discriminate|].
  destruct (char_matches cs c); [apply Hk | discriminate].
Qed.

Lemma one_then_grows cs k : grows k -> grows (one_then cs k).
Proof. intros Hk b n s r H. apply one_then_longer in H; [lia | exact Hk]. Qed.

Lemma m_grows p : forall k, grows k -> grows (m p k).
Proof.
  induction p as [|t p IH]; intros k Hk; simpl; [exact Hk|].
  specialize (IH k Hk). destruct t.
  - intros b n s r. destruct b; [apply IH | discriminate].
  - intros b n s r. destruct (at_eol s); [apply IH | discriminate].
  - now apply one_then_grows.
  - now apply one_then_grows, star_greedy_grows.
  - now apply star_greedy_grows.
  - now apply star_lazy_grows.
Qed.

Lemma replace_loop_length p : forall s skip bol,
  String.length (replace_loop p skip bol s) <= String.length s.
Proof.
  induction s as [|c s IH]; intros skip bol; simpl; [lia|].
  destruct skip as [|k].
  - destruct (match_here p bol (String c s)) as [[|k]|]; simpl;
      try (specialize (IH 0 (Js.is_line_terminator c)); lia).
    specialize (IH k (Js.is_line_terminator c)); lia.
  - specialize (IH k (Js.is_line_terminator c)); lia.
Qed.

Lemma replace_loop_no_match p : forall s bol,
  matches_from p bol s = false -> replace_loop p 0 bol s = s.
Proof.
  induction s as [|c s IH]; intros bol; simpl; [reflexivity|].
  destruct (match_here p bol (String c s)) as [[|k]|]; try discriminate;
    intros H; now rewrite IH.
Qed.

Lemma replace_loop_match_shrinks p : forall s bol,
  matches_from p bol s = true ->
  String.length (replace_loop p 0 bol s) < String.length s.
Proof.
  induction s as [|c s IH]; intros bol; simpl; [discriminate|].
  destruct (match_here p bol (String c s)) as [[|k]|]; simpl.
  - intros H. apply IH in H. lia.
  - intros _. pose proof (replace_loop_length p s k (Js.is_line_terminator c)). lia.
  - intros H. apply IH in H. lia.
Qed.

(** The replacement changes nothing exactly when there is no match. *)
Lemma replaceAll_fixed p s : replaceAll p s = s <-> has_match p s = false.
Proof.
  unfold replaceAll, has_match. split.
  - intros H. destruct (matches_from p true s) eqn:E; [|reflexivity].
    apply replace_loop_match_shrinks in E. rewrite H in E. lia.
  - apply replace_loop_no_match.
Qed.

Lemma replaceAll_length p s : String.length (replaceAll p s) <= String.length s.
Proof. apply replace_loop_length. Qed.

(** Without a match in the text there is none at any of its positions. *)
Lemma matches_from_position p pre : forall b c s k,
  matches_from p b (pre ^^ String c s) = false ->
  match_here p (bol_after b pre) (String c s) <> Some (S k).
Proof.
  induction pre as [|x pre IH]; intros b c s k; simpl.
  - destruct (match_here p b (String c s)) as [[|k']|]; congruence.
  - destruct (match_here p b (String x (pre ^^ String c s))) as [[|k']|];
      try discriminate; apply IH.
Qed.

Lemma m_app p1 : forall p2 k, m (p1 ++ p2) k = m p1 (m p2 k).
Proof.
  induction p1 as [|t p1 IH]; intros p2 k; simpl; [reflexivity|].
  now rewrite IH.
Qed.

Lemma blind_one_then cs k : blind (one_then cs k).
Proof. intros b b' n s. reflexivity. Qed.

Lemma blind_star_greedy cs k : blind k -> blind (star_greedy cs k).
Proof.
  intros Hk b b' n s. revert b b' n.
  induction s as [|c s IH]; intros b b' n; simpl; [apply Hk|].
  destruct (char_matches cs c); [|apply Hk].
  destruct (star_greedy cs k (Js.is_line_terminator c) (S n) s); [reflexivity | apply Hk].
Qed.

Lemma blind_star_lazy cs k : blind k -> blind (star_lazy cs k).
Proof.
  intros Hk b b' n s. rewrite !star_lazy_unfold. now rewrite (Hk b b').
Qed.

(** A greedy star succeeds when what follows it succeeds on the spot. *)
Lemma star_greedy_here cs k b n s r :
  k b n s = Some r -> exists r', star_greedy cs k b n s = Some r'.
Proof.
  intros H. destruct s as [|c s]; simpl; [eauto|].
  destruct (char_matches cs c); [|eauto].
  destruct (star_greedy cs k (Js.is_line_terminator c) (S n) s); eauto.
Qed.

(** A greedy star succeeds when what follows it succeeds after a run of
    matching code units. *)
Lemma star_greedy_run cs k : blind k -> forall s1 s2 b n,
  all_chars (char_matches cs) s1 = true ->
  (exists r, k b (n + String.length s1) s2 = Some r) ->
  exists r, star_greedy cs k b n (s1 ^^ s2) = Some r.
Proof.
  intros Hk. induction s1 as [|c s1 IH]; intros s2 b n Hall [r Hr]; simpl in *.
  - rewrite Nat.add_0_r in Hr. eapply star_greedy_here, Hr.
  - apply andb_prop in Hall as [Hc Hall]. rewrite Hc.
    destruct (IH s2 (Js.is_line_terminator c) (S n) Hall) as [r' Hr'].
    + exists r. rewrite <- Hr, (Hk _ b). f_equal. lia.
    + rewrite Hr'. eauto.
Qed.

Lemma star_lazy_run cs k : blind k -> forall s1 s2 b n,
  all_chars (char_matches cs) s1 = true ->
  (exists r, k b (n + String.length s1) s2 = Some r) ->
  exists r, star_lazy cs k b n (s1 ^^ s2) = Some r.
Proof.
  intros Hk. induction s1 as [|c s1 IH]; intros s2 b n Hall [r Hr];
    rewrite star_lazy_unfold; simpl in *.
  - rewrite Nat.add_0_r in Hr. rewrite Hr. eauto.
  - destruct (k b n (String c (s1 ^^ s2))); [eauto|].
    apply andb_prop in Hall as [Hc Hall]. rewrite Hc.
    apply IH; [exact Hall|].
    exists r. rewrite <- Hr, (Hk _ b). f_equal. lia.
Qed.

Lemma one_then_run cs k b n c s r :
  char_matches cs c = true ->
  k (Js.is_line_terminator c) (S n) s = Some r ->
  one_then cs k b n (String c s) = Some r.
Proof. intros Hc H. unfold one_then. now rewrite Hc. Qed.

(** A run of literals consumes a text equal to it up to case. *)
Lemma lits_run keyword k : blind k -> forall text s b n,
  ci_eqb text keyword = true ->
  m (lits keyword) k b n (text ^^ s) = k b (n + String.length text) s.
Proof.
  intros Hk. induction keyword as [|y keyword IH]; intros text s b n Heq;
    destruct text as [|x text]; simpl in Heq; try discriminate; simpl.
  - now rewrite Nat.add_0_r.
  - apply andb_prop in Heq as [Hx Heq]. unfold one_then. simpl. rewrite Hx.
    rewrite IH by exact Heq. rewrite (Hk _ b). f_equal. lia.
Qed.

Lemma blind_m_lits keyword k : blind k -> blind (m (lits keyword) k).
Proof.
  intros Hk. destruct keyword as [|y keyword]; simpl; [exact Hk|].
  apply blind_one_then.
Qed.

Lemma all_chars_impl (f g : ascii -> bool) s :
  (forall c, f c = true -> g c = true) -> all_chars f s = true -> all_chars g s = true.
Proof.
  intros Hfg. induction s as [|c s IH]; simpl; [reflexivity|].
  intros H. apply andb_prop in H as [Hc H]. now rewrite (Hfg c Hc), IH.
Qed.

Lemma all_chars_app f a b :
  all_chars f (a ^^ b) = all_chars f a && all_chars f b.
Proof. induction a as [|c a IH]; simpl; [reflexivity | now rewrite IH, andb_assoc]. Qed.

Lemma hyphen_matches c : is_hyphen c = true -> char_matches (Lit "-") c = true.
Proof. unfold is_hyphen. intros H. apply Ascii.eqb_eq in H. now subst c. Qed.

(** The tail of both patterns, [-+\s*$], on a run of hyphens at the end of
    a line. *)
Lemma closing_hyphens_match h' post b n :
  hyphens h' -> at_eol post = true ->
  exists r,
    one_then (Lit "-")
      (star_greedy (Lit "-")
         (star_greedy WhiteSpace
            (fun b n s => if at_eol s then Some n else None)))
      b n (h' ^^ post) = Some r.
Proof.
  intros [Hne Hall] Hpost. destruct h' as [|c h0]; [congruence|].
  simpl in Hall. apply andb_prop in Hall as [Hc Hall].
  set (kE := fun (b : bool) (n : nat) (s : string) => if at_eol s then Some n else None).
  assert (HkE : blind kE) by (intros ? ? ? ?; reflexivity).
  destruct (star_greedy_run (Lit "-") (star_greedy WhiteSpace kE)
              (blind_star_greedy _ _ HkE) h0 post
              (Js.is_line_terminator c) (S n)) as [r Hr].
  - eapply all_chars_impl; [apply hyphen_matches | exact Hall].
  - eapply star_greedy_here. unfold kE. now rewrite Hpost.
  - exists r. apply one_then_run; [now apply hyphen_matches | exact Hr].
Qed.

(** Both patterns match at the start of a line that has the shape of a
    tag line. *)
Lemma tagPattern_matches keyword h w k rest h' post :
  hyphens h -> all_chars Js.is_white_space w = true ->
  ci_eqb k keyword = true -> hyphens h' ->
  lt_free rest -> at_eol post = true ->
  exists r,
    match_here (tagPattern keyword) true (h ^^ w ^^ k ^^ rest ^^ h' ^^ post) = Some r.
Proof.
  intros [Hne Hh] Hw Hk Hh' Hrest Hpost.
  unfold match_here, tagPattern. rewrite !m_app.
  set (kE := fun (b : bool) (n : nat) (s : string) => if at_eol s then Some n else None).
  set (kP := one_then (Lit "-") (star_greedy (Lit "-") (star_greedy WhiteSpace kE))).
  assert (HkP : blind kP) by apply blind_one_then.
  change (m [LazyStar Dot; Plus (Lit "-"); Star WhiteSpace; EOL] (fun _ n _ => Some n))
    with (star_lazy Dot kP).
  set (kL := star_lazy Dot kP).
  assert (HkL : blind kL) by now apply blind_star_lazy.
  assert (HL : forall b n, exists r, kL b n (rest ^^ h' ^^ post) = Some r).
  { intros b n. apply star_lazy_run; [exact HkP | exact Hrest |].
    apply closing_hyphens_match; assumption. }
  set (kK := m (lits keyword) kL).
  assert (HkK : blind kK) by now apply blind_m_lits.
  assert (HK : forall b n, exists r, kK b n (k ^^ rest ^^ h' ^^ post) = Some r).
  { intros b n. unfold kK. rewrite lits_run by assumption. apply HL. }
  destruct h as [|c h0]; [congruence|].
  simpl in Hh. apply andb_prop in Hh as [Hc Hh].
  change (m [BOL; Plus (Lit "-"); Star WhiteSpace] kK true 0)
    with (one_then (Lit "-") (star_greedy (Lit "-") (star_greedy WhiteSpace kK)) true 0).
  cbn [append].
  destruct (star_greedy_run (Lit "-") (star_greedy WhiteSpace kK)
              (blind_star_greedy _ _ HkK) h0 (w ^^ k ^^ rest ^^ h' ^^ post)
              (Js.is_line_terminator c) 1) as [r Hr].
  - eapply all_chars_impl; [apply hyphen_matches | exact Hh].
  - apply star_greedy_run; [exact HkK | exact Hw | apply HK].
  - exists r. apply one_then_run; [now apply hyphen_matches | exact Hr].
Qed.

(** Neither pattern has an empty match. *)
Lemma tagPattern_match_nonempty keyword b s r :
  match_here (tagPattern keyword) b s = Some r -> 1 <= r.
Proof.
  unfold match_here, tagPattern. simpl. destruct b; [|discriminate].
  apply one_then_longer, star_greedy_grows, star_greedy_grows, m_grows.
  intros ? ? ? ? [= <-]. lia.
Qed.

End Matcher.

(* ================================================================== *)
(** * Lines *)
(* ================================================================== *)

Lemma lines_shape s :
  exists l0 ls,
    lines s = l0 :: ls
    /\ (exists post, s = l0 ^^ post /\ Regex.at_eol post = true /\ lt_free l0)
    /\ (forall line, In line ls ->
          exists pre post,
            s = pre ^^ line ^^ post
            /\ (forall b, bol_after b pre = true)
            /\ Regex.at_eol post = true /\ lt_free line).
Proof.
  induction s as [|c s (l0 & ls & Hl & (post0 & Hs0 & Hp0 & Hf0) & Hrest)]; simpl.
  - exists "", []. repeat split; [|intros ? []]. exists "". now repeat split.
  - destruct (Js.is_line_terminator c) eqn:Hc.
    + exists "", (lines s). split; [reflexivity|]. split.
      * exists (String c s). simpl. now rewrite Hc.
      * rewrite Hl. intros line [<- | Hin].
        -- exists (String c ""), post0. simpl. rewrite Hc, <- Hs0. now repeat split.
        -- destruct (Hrest line Hin) as (pre & post & Hs & Hb & Hp & Hf).
           exists (String c pre), post. simpl. rewrite <- Hs. now repeat split.
    + rewrite Hl. exists (String c l0), ls. split; [reflexivity|]. split.
      * exists post0. simpl. rewrite <- Hs0. repeat split; [exact Hp0|].
        unfold lt_free. simpl. now rewrite Hc.
      * intros line Hin. destruct (Hrest line Hin) as (pre & post & Hs & Hb & Hp & Hf).
        exists (String c pre), post. simpl. rewrite <- Hs. now repeat split.
Qed.

Lemma lines_position s line :
  In line (lines s) ->
  exists pre post,
    s = pre ^^ line ^^ post /\ bol_after true pre = true
    /\ Regex.at_eol post = true /\ lt_free line.
Proof.
  destruct (lines_shape s) as (l0 & ls & Hl & (post0 & Hs0 & Hp0 & Hf0) & Hrest).
  rewrite Hl. intros [<- | Hin].
  - exists "", post0. now repeat split.
  - destruct (Hrest line Hin) as (pre & post & Hs & Hb & Hp & Hf).
    exists pre, post. repeat split; auto.
Qed.

(** Where a pattern has no match, no line has the shape of its tag. *)
Lemma no_match_no_tag_line keyword y line :
  Regex.has_match (tagPattern keyword) y = false ->
  In line (lines y) -> ~ tag_line keyword line.
Proof.
  intros Hno Hin (h & w & k & rest & h' & -> & Hh & Hw & Hk & Hh').
  destruct (lines_position y _ Hin) as (pre & post & Hy & Hb & Hp & Hf).
  unfold lt_free in Hf. rewrite !all_chars_app in Hf.
  repeat (apply andb_prop in Hf as [? Hf]).
  destruct (tagPattern_matches keyword h w k rest h' post) as [r Hr]; auto.
  pose proof (tagPattern_match_nonempty _ _ _ _ Hr) as Hpos.
  rewrite !append_assoc in Hy.
  destruct Hh as [Hne _]. destruct h as [|c h0]; [congruence|].
  destruct r as [|r]; [lia|].
  unfold Regex.has_match in Hno. rewrite Hy in Hno.
  cbn [append] in Hno, Hr.
  eapply matches_from_position in Hno. rewrite Hb in Hno. exact (Hno Hr).
Qed.

(* ================================================================== *)
(** * [cleanResponse] *)
(* ================================================================== *)

Lemma sourceTag_shape : sourceTag = tagPattern "SOURCE:".
Proof. reflexivity. Qed.

Lemma endTag_shape : endTag = tagPattern "END".
Proof. reflexivity. Qed.

Lemma cleanResponse_nonempty_input c s :
  cleanResponse (String c s)
  = Js.trim (Regex.replaceAll endTag (Regex.replaceAll sourceTag (String c s))).
Proof. reflexivity. Qed.

Lemma cleanResponse_trimmed x : Js.trim (cleanResponse x) = cleanResponse x.
Proof.
  destruct x as [|c s]; [reflexivity|].
  rewrite cleanResponse_nonempty_input. apply trim_idempotent.
Qed.

Lemma cleanResponse_length x : String.length (cleanResponse x) <= String.length x.
Proof.
  destruct x as [|c s]; [reflexivity|].
  rewrite cleanResponse_nonempty_input.
  etransitivity; [apply trim_length|].
  etransitivity; apply replaceAll_length.
Qed.

(** On a trimmed text, cleaning changes nothing exactly when neither
    pattern matches in it. *)
Lemma cleanResponse_fixed y :
  Js.trim y = y ->
  (cleanResponse y = y
   <-> Regex.has_match sourceTag y = false /\ Regex.has_match endTag y = false).
Proof.
  intros Htrim. destruct y as [|c s]; [now repeat split|].
  rewrite cleanResponse_nonempty_input. split.
  - intros H.
    pose proof (trim_length
                  (Regex.replaceAll endTag (Regex.replaceAll sourceTag (String c s)))) as H1.
    pose proof (replaceAll_length endTag (Regex.replaceAll sourceTag (String c s))) as H2.
    pose proof (replaceAll_length sourceTag (String c s)) as H3.
    rewrite H in H1.
    destruct (Regex.has_match sourceTag (String c s)) eqn:Es.
    { apply replace_loop_match_shrinks in Es. unfold Regex.replaceAll in H2, H3, H1. lia. }
    split; [reflexivity|].
    pose proof (proj2 (replaceAll_fixed sourceTag (String c s)) Es) as Hs.
    rewrite Hs in H1, H2.
    destruct (Regex.has_match endTag (String c s)) eqn:Ee; [|reflexivity].
    apply replace_loop_match_shrinks in Ee. unfold Regex.replaceAll in H2, H1. lia.
  - intros [Hs He].
    rewrite (proj2 (replaceAll_fixed sourceTag _) Hs).
    rewrite (proj2 (replaceAll_fixed endTag _) He).
    exact Htrim.
Qed.

(** C3, as amended.  For every text [x], [cleanResponse x] has no white
    space at either end and is not longer than [x]; cleaning it a second
    time changes nothing exactly when neither pattern matches in it any
    more; and when that is so, none of its lines starts with hyphens,
    continues with SOURCE: or END and ends with hyphens. *)
Theorem cleanResponse_idempotent_iff (x : string) :
  let y := cleanResponse x in
  Js.trim y = y
  /\ String.length y <= String.length x
  /\ (cleanResponse y = y
      <-> Regex.has_match sourceTag y = false /\ Regex.has_match endTag y = false)
  /\ (cleanResponse y = y ->
      forall line, In line (lines y) ->
        ~ tag_line "SOURCE:" line /\ ~ tag_line "END" line).
Proof.
  intros y. pose proof (cleanResponse_trimmed x) as Htrim. fold y in Htrim.
  split; [exact Htrim|]. split; [apply cleanResponse_length|].
  split; [now apply cleanResponse_fixed|].
  intros Hfix line Hin. apply cleanResponse_fixed in Hfix as [Hs He]; [|exact Htrim].
  split; eapply no_match_no_tag_line; eauto.
Qed.

(** C3, at the block [mapHistory] builds for "hi": it is cleaned to "hi",
    which cleaning leaves alone and which holds no tag line. *)
Lemma cleanResponse_idempotent_iff_witness :
  cleanResponse echoed_block = "hi"
  /\ forall line, In line (lines (cleanResponse echoed_block)) ->
       ~ tag_line "SOURCE:" line /\ ~ tag_line "END" line.
Proof.
  split; [reflexivity|].
  apply (proj2 (proj2 (proj2 (cleanResponse_idempotent_iff echoed_block)))).
  reflexivity.
Defined.

(** C3 fails as stated: a tag line behind one blank is kept by the first
    cleaning, which only trims the blank, and removed by the second.  The
    first result holds a line that starts with hyphens, continues with
    SOURCE: and ends with hyphens. *)
Lemma cleanResponse_not_idempotent :
  cleanResponse indented_tag = "--- SOURCE: x ---"
  /\ cleanResponse (cleanResponse indented_tag) = ""
  /\ cleanResponse (cleanResponse indented_tag) <> cleanResponse indented_tag
  /\ In "--- SOURCE: x ---" (lines (cleanResponse indented_tag))
  /\ tag_line "SOURCE:" "--- SOURCE: x ---".
Proof.
  repeat split; try reflexivity; try discriminate.
  - left. reflexivity.
  - exists "---", " ", "SOURCE:", " x ", "---". repeat split; discriminate.
Qed.

(* ================================================================== *)
(** * [getAIResponse] *)
(* ================================================================== *)

Lemma log_log st es1 es2 : log (log st es1) es2 = log st (es1 ++ es2).
Proof. unfold log. simpl. now rewrite app_assoc. Qed.

Lemma count_fetches_app tr1 tr2 :
  count_fetches (tr1 ++ tr2) = count_fetches tr1 + count_fetches tr2.
Proof. unfold count_fetches. now rewrite filter_app, length_app. Qed.

(** Without a key the REST branch throws at once: the state is untouched. *)
Lemma getAIResponse_key_missing provider modelName systemPrompt history apiKey
    temperature retryCount w st :
  provider <> gemini -> Js.truthy apiKey = false ->
  getAIResponse provider modelName systemPrompt history apiKey temperature retryCount w st
  = (Throws (key_missing provider), st).
Proof.
  intros Hp Hkey. rewrite getAIResponse_equation_1. cbv zeta.
  destruct provider; [| |congruence]; now rewrite Hkey.
Qed.

(** One attempt of the REST branch, by the outcome of its request. *)
Lemma getAIResponse_rest provider modelName systemPrompt history apiKey
    temperature retryCount w st :
  provider <> gemini -> Js.truthy apiKey = true ->
  let req := rest_request provider modelName systemPrompt history apiKey
               (safeTemperature temperature) in
  getAIResponse provider modelName systemPrompt history apiKey temperature retryCount w st
  = match fetch_reply w (trace st) req with
    | FetchRejects e => (Throws e, log st [Fetch req; failure_log provider e])
    | JsonRejects _ e => (Throws e, log st [Fetch req; failure_log provider e])
    | RespondsNull status e =>
        if negb (res_ok status) && (status =? 401)
        then (Throws (authentication_failed provider),
              log st [Fetch req; failure_log provider (authentication_failed provider)])
        else (Throws e, log st [Fetch req; failure_log provider e])
    | Responds status data =>
        if res_ok status
        then (Returns (cleanResponse (Js.opt_or_else (choice_content data) "No content.")),
              log st [Fetch req])
        else if status =? 401
        then (Throws (authentication_failed provider),
              log st [Fetch req; failure_log provider (authentication_failed provider)])
        else if (status =? 429) && (retryCount <? 1)
        then getAIResponse provider modelName systemPrompt history apiKey temperature
               (retryCount + 1) w (log st [Fetch req; Sleep 2000])
        else (Throws (provider_error provider status data),
              log st [Fetch req; failure_log provider (provider_error provider status data)])
    end.
Proof.
  intros Hp Hkey req. rewrite getAIResponse_equation_1. cbv zeta.
  fold (safeTemperature temperature). fold req.
  assert (Hbody :
    (if negb (Js.truthy apiKey)
     then throw ("API Key missing for " ^^ Js.toUpperCase (provider_string provider)) w st
     else
       let (c, st1) := fetch_json req w st in
       match c with
       | Returns (status, body) =>
           if negb (res_ok status)
           then
             if status =? 401
             then caught provider
                    (Js.toUpperCase (provider_string provider)
                     ^^ ": Authentication Failed. Check API Key.") w st1
             else
               match body with
               | Value data =>
                   if status =? 429
                   then
                     match lt_dec retryCount 1 with
                     | left _ =>
                         getAIResponse provider modelName systemPrompt history apiKey
                           temperature (retryCount + 1) w (snd (sleep 2000 w st1))
                     | right _ =>
                         caught provider
                           (Js.toUpperCase (provider_string provider) ^^ ": "
                            ^^ Js.opt_or_else (error_message data)
                                 ("Error " ^^ Js.string_of_Z (Z.of_nat status))) w st1
                     end
                   else
                     caught provider
                       (Js.toUpperCase (provider_string provider) ^^ ": "
                        ^^ Js.opt_or_else (error_message data)
                             ("Error " ^^ Js.string_of_Z (Z.of_nat status))) w st1
               | Null typeError => caught provider typeError w st1
               end
           else
             match body with
             | Value data =>
                 ret (cleanResponse (Js.opt_or_else (choice_content data) "No content."))
                   w st1
             | Null typeError => caught provider typeError w st1
             end
       | Throws e => caught provider e w st1
       end)
    = match fetch_reply w (trace st) req with
      | FetchRejects e => (Throws e, log st [Fetch req; failure_log provider e])
      | JsonRejects _ e => (Throws e, log st [Fetch req; failure_log provider e])
      | RespondsNull status e =>
          if negb (res_ok status) && (status =? 401)
          then (Throws (authentication_failed provider),
                log st [Fetch req; failure_log provider (authentication_failed provider)])
          else (Throws e, log st [Fetch req; failure_log provider e])
      | Responds status data =>
          if res_ok status
          then (Returns (cleanResponse (Js.opt_or_else (choice_content data) "No content.")),
                log st [Fetch req])
          else if status =? 401
          then (Throws (authentication_failed provider),
                log st [Fetch req; failure_log provider (authentication_failed provider)])
          else if (status =? 429) && (retryCount <? 1)
          then getAIResponse provider modelName systemPrompt history apiKey temperature
                 (retryCount + 1) w (log st [Fetch req; Sleep 2000])
          else (Throws (provider_error provider status data),
                log st [Fetch req; failure_log provider (provider_error provider status data)])
      end).
  { rewrite Hkey. cbn [negb]. unfold fetch_json.
    destruct (fetch_reply w (trace st) req) as [e | status e | status e | status data].
    - unfold caught, bind, emit, throw, log, failure_log. simpl.
      now rewrite <- app_assoc.
    - unfold caught, bind, emit, throw, log, failure_log. simpl.
      now rewrite <- app_assoc.
    - destruct (res_ok status); cbn [negb andb];
        [|destruct (status =? 401)];
        unfold caught, bind, emit, throw, log, failure_log, authentication_failed;
        simpl; now rewrite <- app_assoc.
    - destruct (res_ok status); cbn [negb]; [reflexivity|].
      destruct (status =? 401).
      { unfold caught, bind, emit, throw, log, failure_log, authentication_failed. simpl.
        now rewrite <- app_assoc. }
      destruct (status =? 429); cbn [andb].
      + destruct (lt_dec retryCount 1) as [Hlt | Hge].
        * apply Nat.ltb_lt in Hlt. rewrite Hlt.
          unfold sleep, emit, log. simpl. now rewrite <- app_assoc.
        * apply Nat.ltb_nlt in Hge. rewrite Hge.
          unfold caught, bind, emit, throw, log, failure_log, provider_error. simpl.
          now rewrite <- app_assoc.
      + unfold caught, bind, emit, throw, log, failure_log, provider_error. simpl.
        now rewrite <- app_assoc. }
  destruct provider; [exact Hbody | exact Hbody | congruence].
Qed.

(** A call that is itself a retry issues one request and never sleeps. *)
Lemma getAIResponse_retry_is_final provider modelName systemPrompt history apiKey
    temperature retryCount w st :
  provider <> gemini -> Js.truthy apiKey = true -> 1 <= retryCount ->
  exists es,
    snd (getAIResponse provider modelName systemPrompt history apiKey temperature
           retryCount w st) = log st es
    /\ count_fetches es = 1 /\ filter is_sleep es = [].
Proof.
  intros Hp Hkey Hretry.
  rewrite (getAIResponse_rest _ _ _ _ _ _ _ _ _ Hp Hkey). cbv zeta.
  assert (Hlt : (retryCount <? 1) = false) by (apply Nat.ltb_ge; lia).
  rewrite Hlt.
  destruct (fetch_reply w (trace st) _) as [e | status e | status e | status data];
    [eexists; split; [reflexivity | split; reflexivity] ..
    | destruct (negb (res_ok status) && (status =? 401));
      eexists; (split; [reflexivity | split; reflexivity])
    |].
  destruct (res_ok status); [eexists; split; [reflexivity | split; reflexivity]|].
  rewrite andb_false_r.
  destruct (status =? 401); eexists; split; try reflexivity; split; reflexivity.
Qed.

(** The retry of the REST branch, for answers whose body parses to a value
    other than [null].  With a key: a 429 answer to the first attempt makes
    the call wait 2000 ms and invoke itself once more with the retry counter
    at 1; a 429 answer to a call whose counter is 1 or more is thrown as the
    provider's error; a 401 answer is thrown as an authentication failure
    after that one request, whatever the counter.  Whatever the answers,
    any call issues at most two requests and sleeps at most once, and a
    retry issues one request and never sleeps. *)
Theorem getAIResponse_retries_once (provider : ModelProvider)
    (modelName systemPrompt : string) (history : list Message.t) (apiKey : string)
    (temperature : Q) (w : World) (st : State) :
  provider <> gemini -> Js.truthy apiKey = true ->
  let req := rest_request provider modelName systemPrompt history apiKey
               (safeTemperature temperature) in
  let call := getAIResponse provider modelName systemPrompt history apiKey temperature in
  (forall data,
     fetch_reply w (trace st) req = Responds 429 data ->
     call 0 w st = call 1 w (log st [Fetch req; Sleep 2000]))
  /\ (forall retryCount data,
        1 <= retryCount ->
        fetch_reply w (trace st) req = Responds 429 data ->
        call retryCount w st
        = (Throws (provider_error provider 429 data),
           log st [Fetch req; failure_log provider (provider_error provider 429 data)]))
  /\ (forall retryCount,
        exists es,
          snd (call retryCount w st) = log st es
          /\ count_fetches es <= 2
          /\ List.length (filter is_sleep es) <= 1
          /\ (1 <= retryCount -> count_fetches es = 1 /\ filter is_sleep es = []))
  /\ (forall retryCount data,
        fetch_reply w (trace st) req = Responds 401 data ->
        call retryCount w st
        = (Throws (authentication_failed provider),
           log st [Fetch req; failure_log provider (authentication_failed provider)])).
Proof.
  intros Hp Hkey req call. unfold call. repeat split.
  - intros data Hreply.
    rewrite (getAIResponse_rest _ _ _ _ _ _ 0 _ _ Hp Hkey). cbv zeta. fold req.
    now rewrite Hreply.
  - intros retryCount data Hretry Hreply.
    rewrite (getAIResponse_rest _ _ _ _ _ _ _ _ _ Hp Hkey). cbv zeta. fold req.
    rewrite Hreply. simpl.
    assert (Hlt : (retryCount <? 1) = false) by (apply Nat.ltb_ge; lia).
    now rewrite Hlt.
  - intros retryCount. destruct (Nat.le_gt_cases 1 retryCount) as [Hretry | Hfirst].
    + destruct (getAIResponse_retry_is_final provider modelName systemPrompt history
                  apiKey temperature retryCount w st Hp Hkey Hretry)
        as (es & Hes & Hf & Hs).
      exists es. rewrite Hs, Hf. simpl. repeat split; auto.
    + assert (retryCount = 0) by lia. subst retryCount.
      rewrite (getAIResponse_rest _ _ _ _ _ _ 0 _ _ Hp Hkey). cbv zeta. fold req.
      destruct (fetch_reply w (trace st) req) as [e | status e | status e | status data];
        [eexists; split; [reflexivity | unfold count_fetches, failure_log; simpl; repeat split; lia] ..
        | destruct (negb (res_ok status) && (status =? 401));
          eexists; (split; [reflexivity | unfold count_fetches, failure_log; simpl; repeat split; lia])
        |].
      destruct (res_ok status); [eexists; split; [reflexivity | unfold count_fetches, failure_log; simpl; repeat split; lia]|].
      destruct (status =? 401); [eexists; split; [reflexivity | unfold count_fetches, failure_log; simpl; repeat split; lia]|].
      destruct (status =? 429); simpl;
        [|eexists; split; [reflexivity | unfold count_fetches, failure_log; simpl; repeat split; lia]].
      destruct (getAIResponse_retry_is_final provider modelName systemPrompt history
                  apiKey temperature 1 w (log st [Fetch req; Sleep 2000])
                  Hp Hkey (Nat.le_refl 1))
        as (es & Hes & Hf & Hs).
      exists ([Fetch req; Sleep 2000] ++ es). rewrite Hes, log_log.
      split; [reflexivity|].
      rewrite count_fetches_app, filter_app, Hs, Hf. simpl. repeat split; lia.
  - intros retryCount data Hreply.
    rewrite (getAIResponse_rest _ _ _ _ _ _ _ _ _ Hp Hkey). cbv zeta. fold req.
    now rewrite Hreply.
Qed.

(** The retry in three surroundings: a 429 answer followed by a 200 answer
    gives the reply after two requests and one pause of 2000 ms; two 429
    answers give the provider's error after two requests; a 401 answer gives
    the authentication failure after one request. *)
Lemma getAIResponse_retries_once_witness :
  getAIResponse openai "gpt-4o" "Be brief." bot_says_hi "sk-test" (7 # 10) 0
    busy_once initial
  = (Returns "Hello", log initial [Fetch sample_request; Sleep 2000; Fetch sample_request])
  /\ getAIResponse openai "gpt-4o" "Be brief." bot_says_hi "sk-test" (7 # 10) 0
       always_busy initial
     = (Throws "OPENAI: Error 429",
        log initial [Fetch sample_request; Sleep 2000; Fetch sample_request;
                     failure_log openai "OPENAI: Error 429"])
  /\ getAIResponse openai "gpt-4o" "Be brief." bot_says_hi "sk-test" (7 # 10) 0
       unauthorized initial
     = (Throws "OPENAI: Authentication Failed. Check API Key.",
        log initial [Fetch sample_request;
                     failure_log openai "OPENAI: Authentication Failed. Check API Key."]).
Proof.
  assert (Hp : openai <> gemini) by discriminate.
  split; [|split].
  - rewrite (proj1 (getAIResponse_retries_once openai "gpt-4o" "Be brief." bot_says_hi
                      "sk-test" (7 # 10) busy_once initial Hp eq_refl)
               (mkData (Some "Rate limit reached") None) eq_refl).
    now rewrite (getAIResponse_rest _ _ _ _ _ _ _ _ _ Hp (eq_refl : Js.truthy "sk-test" = true)).
  - rewrite (proj1 (getAIResponse_retries_once openai "gpt-4o" "Be brief." bot_says_hi
                      "sk-test" (7 # 10) always_busy initial Hp eq_refl)
               (mkData None None) eq_refl).
    fold sample_request.
    rewrite (proj1 (proj2 (getAIResponse_retries_once openai "gpt-4o" "Be brief."
                             bot_says_hi "sk-test" (7 # 10) always_busy
                             (log initial [Fetch sample_request; Sleep 2000]) Hp eq_refl))
               1 (mkData None None) (Nat.le_refl 1) eq_refl).
    reflexivity.
  - apply (proj2 (proj2 (proj2 (getAIResponse_retries_once openai "gpt-4o" "Be brief."
                                  bot_says_hi "sk-test" (7 # 10) unauthorized initial
                                  Hp eq_refl)))
             0 (mkData (Some "Incorrect API key") None) eq_refl).
Defined.

(** C6 (defect in the code).  The status of an answer is tested only after
    [res.json()] has resolved, and 429 only after the body has been read.
    For a REST provider with a key and any retry counter: an answer whose
    body [res.json()] rejects is thrown again with the parser's message
    after that one request, whatever its status, 429 and 401 among them: no
    pause, no second request, no authentication failure.  An answer whose
    body parses to [null] is thrown as the TypeError of the property access
    for every status but 401, again after that one request; with status 401
    it is the authentication failure. *)
Theorem getAIResponse_status_after_body (provider : ModelProvider)
    (modelName systemPrompt : string) (history : list Message.t) (apiKey : string)
    (temperature : Q) (retryCount : nat) (w : World) (st : State) :
  provider <> gemini -> Js.truthy apiKey = true ->
  let req := rest_request provider modelName systemPrompt history apiKey
               (safeTemperature temperature) in
  let call := getAIResponse provider modelName systemPrompt history apiKey temperature
                retryCount w st in
  (forall status e,
     fetch_reply w (trace st) req = JsonRejects status e ->
     call = (Throws e, log st [Fetch req; failure_log provider e]))
  /\ (forall status typeError,
        fetch_reply w (trace st) req = RespondsNull status typeError ->
        status <> 401 ->
        call = (Throws typeError, log st [Fetch req; failure_log provider typeError]))
  /\ (forall typeError,
        fetch_reply w (trace st) req = RespondsNull 401 typeError ->
        call = (Throws (authentication_failed provider),
                log st [Fetch req; failure_log provider (authentication_failed provider)])).
Proof.
  intros Hp Hkey req call. unfold call.
  rewrite (getAIResponse_rest _ _ _ _ _ _ _ _ _ Hp Hkey). cbv zeta. fold req.
  repeat split.
  - intros status e ->. reflexivity.
  - intros status typeError -> H401.
    apply Nat.eqb_neq in H401. now rewrite H401, andb_false_r.
  - intros typeError ->. reflexivity.
Qed.

(** C6, for the sample call with the retry counter at 0, in three
    surroundings: a gateway that answers 429 with an empty body, one that
    answers 401 with an empty body, and a back end that answers 429 with the
    body [null].  Each call throws the error of the body after one request;
    none sleeps, asks again or reports an authentication failure. *)
Lemma getAIResponse_status_after_body_witness :
  getAIResponse openai "gpt-4o" "Be brief." bot_says_hi "sk-test" (7 # 10) 0
    busy_gateway initial
  = (Throws "Unexpected end of JSON input",
     log initial [Fetch sample_request;
                  failure_log openai "Unexpected end of JSON input"])
  /\ getAIResponse openai "gpt-4o" "Be brief." bot_says_hi "sk-test" (7 # 10) 0
       unauthorized_gateway initial
     = (Throws "Unexpected end of JSON input",
        log initial [Fetch sample_request;
                     failure_log openai "Unexpected end of JSON input"])
  /\ getAIResponse openai "gpt-4o" "Be brief." bot_says_hi "sk-test" (7 # 10) 0
       busy_null initial
     = (Throws "Cannot read properties of null (reading 'error')",
        log initial [Fetch sample_request;
                     failure_log openai
                       "Cannot read properties of null (reading 'error')"]).
Proof.
  assert (Hp : openai <> gemini) by discriminate.
  split; [|split].
  - apply (proj1 (getAIResponse_status_after_body openai "gpt-4o" "Be brief."
                    bot_says_hi "sk-test" (7 # 10) 0 busy_gateway initial Hp eq_refl)
             429 "Unexpected end of JSON input" eq_refl).
  - apply (proj1 (getAIResponse_status_after_body openai "gpt-4o" "Be brief."
                    bot_says_hi "sk-test" (7 # 10) 0 unauthorized_gateway initial
                    Hp eq_refl)
             401 "Unexpected end of JSON input" eq_refl).
  - apply (proj1 (proj2 (getAIResponse_status_after_body openai "gpt-4o" "Be brief."
                           bot_says_hi "sk-test" (7 # 10) 0 busy_null initial
                           Hp eq_refl))
             429 "Cannot read properties of null (reading 'error')" eq_refl).
    discriminate.
Defined.

(** A retry of the REST branch does not look at the process environment. *)
Lemma getAIResponse_retry_env provider modelName systemPrompt history apiKey
    temperature retryCount w st key1 key2 :
  provider <> gemini -> Js.truthy apiKey = true -> 1 <= retryCount ->
  getAIResponse provider modelName systemPrompt history apiKey temperature retryCount
    (with_API_KEY key1 w) st
  = getAIResponse provider modelName systemPrompt history apiKey temperature retryCount
      (with_API_KEY key2 w) st.
Proof.
  intros Hp Hkey Hretry.
  rewrite (getAIResponse_rest _ _ _ _ _ _ retryCount (with_API_KEY key1 w) st Hp Hkey).
  rewrite (getAIResponse_rest _ _ _ _ _ _ retryCount (with_API_KEY key2 w) st Hp Hkey).
  cbv zeta.
  change (fetch_reply (with_API_KEY key1 w)) with (fetch_reply w).
  change (fetch_reply (with_API_KEY key2 w)) with (fetch_reply w).
  assert (Hlt : (retryCount <? 1) = false) by (apply Nat.ltb_ge; lia).
  rewrite Hlt.
  destruct (fetch_reply w (trace st) _) as [e | status e | status e | status data];
    try reflexivity.
  now rewrite andb_false_r.
Qed.

Lemma getAIResponse_gemini modelName systemPrompt history apiKey temperature
    retryCount w st :
  let req := gemini_request (API_KEY w) modelName systemPrompt history
               (safeTemperature temperature) in
  getAIResponse gemini modelName systemPrompt history apiKey temperature retryCount w st
  = match generate_reply w (trace st) req with
    | GenerateThrows e => (Throws ("Gemini: " ^^ e), log st [GenerateContent req])
    | GenerateReturns text =>
        (Returns (cleanResponse (Js.opt_or_else text "No response.")),
         log st [GenerateContent req])
    end.
Proof.
  intros req. rewrite getAIResponse_equation_1. cbv zeta.
  fold (safeTemperature temperature).
  unfold bind, getenv_API_KEY, try_catch, generateContent, ret, throw. fold req.
  destruct (generate_reply w (trace st) req); reflexivity.
Qed.

(** C9, as amended.  For the REST providers the outcome of [getAIResponse]
    and its effects are the same whatever [process.env.API_KEY] holds.  For
    Gemini they are the same whatever the [apiKey] argument is, and the key
    handed to the SDK is the one of the process environment. *)
Theorem getAIResponse_credential_sources (provider : ModelProvider)
    (modelName systemPrompt : string) (history : list Message.t) (apiKey : string)
    (temperature : Q) (retryCount : nat) (w : World) (st : State) :
  (provider <> gemini ->
   forall key1 key2,
     getAIResponse provider modelName systemPrompt history apiKey temperature
       retryCount (with_API_KEY key1 w) st
     = getAIResponse provider modelName systemPrompt history apiKey temperature
         retryCount (with_API_KEY key2 w) st)
  /\ (forall apiKey',
        getAIResponse gemini modelName systemPrompt history apiKey temperature
          retryCount w st
        = getAIResponse gemini modelName systemPrompt history apiKey' temperature
            retryCount w st)
  /\ snd (getAIResponse gemini modelName systemPrompt history apiKey temperature
            retryCount w st)
     = log st [GenerateContent
                 (gemini_request (API_KEY w) modelName systemPrompt history
                    (safeTemperature temperature))].
Proof.
  split; [|split].
  - intros Hp key1 key2. destruct (Js.truthy apiKey) eqn:Hkey.
    + destruct (Nat.le_gt_cases 1 retryCount) as [Hretry | Hfirst];
        [now apply getAIResponse_retry_env|].
      rewrite (getAIResponse_rest _ _ _ _ _ _ retryCount (with_API_KEY key1 w) st Hp Hkey).
      rewrite (getAIResponse_rest _ _ _ _ _ _ retryCount (with_API_KEY key2 w) st Hp Hkey).
      cbv zeta. fold (with_API_KEY key1 w). fold (with_API_KEY key2 w).
      change (fetch_reply (with_API_KEY key1 w)) with (fetch_reply w).
      change (fetch_reply (with_API_KEY key2 w)) with (fetch_reply w).
      destruct (fetch_reply w (trace st) _) as [e | status e | status e | status data];
        try reflexivity.
      destruct (res_ok status); [reflexivity|].
      destruct (status =? 401); [reflexivity|].
      destruct ((status =? 429) && (retryCount <? 1)); [|reflexivity].
      apply getAIResponse_retry_env; auto. lia.
    + now rewrite !getAIResponse_key_missing.
  - intros apiKey'. now rewrite !getAIResponse_gemini.
  - rewrite getAIResponse_gemini. cbv zeta.
    destruct (generate_reply w (trace st) _); reflexivity.
Qed.

(** C9, for an OpenAI call in surroundings with and without an environment
    key. *)
Lemma getAIResponse_credential_sources_witness :
  getAIResponse openai "gpt-4o" "Be brief." bot_says_hi "sk-test" (7 # 10) 0
    (with_API_KEY (Some "valid-key") busy_once) initial
  = getAIResponse openai "gpt-4o" "Be brief." bot_says_hi "sk-test" (7 # 10) 0
      (with_API_KEY None busy_once) initial.
Proof.
  apply (proj1 (getAIResponse_credential_sources openai "gpt-4o" "Be brief."
                  bot_says_hi "sk-test" (7 # 10) 0 busy_once initial)).
  discriminate.
Defined.

(** C9 fails as stated: the same Gemini call, with the same arguments, gives
    the reply where the environment holds the key the back end accepts and
    throws where the environment holds none. *)
Lemma getAIResponse_gemini_reads_environment :
  fst (getAIResponse gemini "gemini-3-flash-preview" "Be brief." bot_says_hi "" (7 # 10) 0
         (with_API_KEY (Some "valid-key") busy_once) initial)
  = Returns "Hello"
  /\ fst (getAIResponse gemini "gemini-3-flash-preview" "Be brief." bot_says_hi "" (7 # 10) 0
            (with_API_KEY None busy_once) initial)
     = Throws "Gemini: API key not valid".
Proof. rewrite !getAIResponse_gemini. split; reflexivity. Qed.

(* ================================================================== *)
(** * Turn selection in the chat window *)
(* ================================================================== *)

Lemma findIndex_bounds {A : Type} (f : A -> bool) l : (-1 <= findIndex f l)%Z.
Proof.
  induction l as [|x l IH]; simpl; [lia|].
  destruct (f x); [lia|]. destruct (findIndex f l <? 0)%Z eqn:E; [lia|].
  apply Z.ltb_ge in E. lia.
Qed.





Lemma lastAiMsg_authored messages last :
  lastAiMsg messages = Some last -> is_authored_ai last = true.
Proof. unfold lastAiMsg. intros H. now apply find_some in H. Qed.



(* ================================================================== *)
(** * [triggerAIResponseForChat] *)
(* ================================================================== *)

Lemma other_chats_replace chatId msgs last ts prev :
  other_chats chatId (replace_messages chatId msgs last ts prev) = other_chats chatId prev.
Proof.
  unfold other_chats, replace_messages.
  induction prev as [|c prev IH]; simpl; [reflexivity|].
  destruct (Chat.id c =? chatId)%string eqn:E; simpl; rewrite E; simpl; now rewrite IH.
Qed.

Lemma other_chats_finalized chatId finalizedChat prev :
  Chat.id finalizedChat = chatId ->
  other_chats chatId
    (finalizedChat
     :: filter (fun c => negb (Chat.id c =? Chat.id finalizedChat)%string) prev)
  = other_chats chatId prev.
Proof.
  intros <-. unfold other_chats. cbn [filter]. rewrite String.eqb_refl. cbn [negb].
  induction prev as [|c prev IH]; simpl; [reflexivity|].
  destruct (Chat.id c =? Chat.id finalizedChat)%string eqn:E; simpl; [exact IH|].
  rewrite E. simpl. now rewrite IH.
Qed.

Lemma chatBase_draft_id cs draftSubChat chatId base :
  chatBase cs draftSubChat chatId = Some base ->
  isDraft draftSubChat chatId = true -> Chat.id base = chatId.
Proof.
  unfold chatBase. intros Hbase Hdraft. rewrite Hdraft in Hbase. subst draftSubChat.
  simpl in Hdraft. now apply String.eqb_eq.
Qed.

(** C10.  On every path [triggerAIResponseForChat] settles without
    throwing, and whatever the list of chats is when its updates are
    applied, the conversations whose id is not the one passed are the same
    before and after, in the same order and with every field unchanged. *)
Theorem triggerAIResponseForChat_frame (cs : list Chat.t)
    (draft : option Chat.t) (settings : AppSettings.t) (chatId : string)
    (currentMessages : list Message.t) (specificAuthorId : option string)
    (w : World) (st : State) :
  exists updates,
    fst (triggerAIResponseForChat cs draft settings chatId currentMessages
           specificAuthorId w st) = Returns updates
    /\ forall current,
         other_chats chatId (chats (apply_updates updates current))
         = other_chats chatId (chats current).
Proof.
  unfold triggerAIResponseForChat.
  destruct (chatBase cs draft chatId) as [base|] eqn:Hbase;
    [|exists []; split; reflexivity].
  destruct (targetAssistant cs base specificAuthorId) as [target|];
    [|exists []; split; reflexivity].
  destruct (negb (ModelProvider_eqb (Chat.provider target) gemini)
            && negb (Js.truthy (apiKey_for settings (Chat.provider target)))).
  - eexists. split; [reflexivity|]. intros current. apply other_chats_replace.
  - unfold try_catch, bind at 1.
    destruct (getAIResponse _ _ _ _ _ _ _ _ _) as [[aiResponseText | e] st1].
    + destruct (isDraft draft chatId) eqn:Hdraft.
      * eexists. split; [reflexivity|]. intros current.
        apply other_chats_finalized. simpl.
        eapply chatBase_draft_id; eassumption.
      * eexists. split; [reflexivity|]. intros current. apply other_chats_replace.
    + eexists. split; [reflexivity|]. intros current. apply other_chats_replace.
Qed.

(** The path taken when the responder's provider needs a key and the
    application holds none: three clock readings, no event, and one update
    that puts the given messages followed by one error banner into the chats
    whose id is [chatId]. *)
Lemma triggerAIResponseForChat_key_missing (cs : list Chat.t)
    (draft : option Chat.t) (settings : AppSettings.t) (chatId : string)
    (currentMessages : list Message.t) (specificAuthorId : option string)
    (base target : Chat.t) (w : World) (st : State) :
  chatBase cs draft chatId = Some base ->
  targetAssistant cs base specificAuthorId = Some target ->
  Chat.provider target <> gemini ->
  Js.truthy (apiKey_for settings (Chat.provider target)) = false ->
  exists banner last ts,
    triggerAIResponseForChat cs draft settings chatId currentMessages
      specificAuthorId w st
    = (Returns [setChats (replace_messages chatId (currentMessages ++ [banner]) last ts)],
       {| trace := trace st; clock_reads := S (S (S (clock_reads st))) |})
    /\ is_error_banner banner = true.
Proof.
  intros Hbase Htarget Hp Hkey. unfold triggerAIResponseForChat.
  rewrite Hbase, Htarget, Hkey.
  assert (Hneq : ModelProvider_eqb (Chat.provider target) gemini = false)
    by (destruct (Chat.provider target); [reflexivity | reflexivity | congruence]).
  rewrite Hneq.
  cbn [negb andb]. do 3 eexists. split; reflexivity.
Qed.

(** C7 (defect in the code).  With no key for OpenAI, a call for the open
    draft of B, and a call for the open draft of the arena with B pinned as
    responder, settle without any event, and applying their updates leaves
    the application as it was: no message is appended to the draft or to
    any chat.  With a key, the same call for the draft of B moves the draft,
    with the reply appended, to the head of the chats. *)
Theorem triggerAIResponseForChat_draft_error_lost :
  (exists updates,
     triggerAIResponseForChat [persona_B] (Some draft_branch) (settings_with "" "")
       "branch-1" [message Sender.user None "hi"] None ready initial
     = (Returns updates, {| trace := []; clock_reads := 3 |})
     /\ apply_updates updates app_with_draft = app_with_draft)
  /\ (exists updates,
        triggerAIResponseForChat (arena_chats persona_B) (Some arena_draft)
          (settings_with "" "") "branch-2" [message Sender.user None "hi"] (Some "b")
          ready initial
        = (Returns updates, {| trace := []; clock_reads := 3 |})
        /\ apply_updates updates app_with_arena_draft = app_with_arena_draft)
  /\ (exists updates finalizedChat reply,
        fst (triggerAIResponseForChat [persona_B] (Some draft_branch)
               (settings_with "sk-test" "") "branch-1"
               [message Sender.user None "hi"] None ready initial)
        = Returns updates
        /\ chats (apply_updates updates app_with_draft) = [finalizedChat; persona_B]
        /\ Chat.id finalizedChat = "branch-1"
        /\ Chat.messages finalizedChat = [message Sender.user None "hi"; reply]
        /\ Message.text reply = "Hello").
Proof.
  split; [|split].
  - eexists. split; [vm_compute; reflexivity | reflexivity].
  - eexists. split; [vm_compute; reflexivity | reflexivity].
  - do 3 eexists. split; [vm_compute; reflexivity|]. repeat split.
Qed.

(* ================================================================== *)
(** * Further properties of [getAIResponse] *)
(* ================================================================== *)

Lemma safeTemperature_bounds t :
  (0 <= safeTemperature t)%Q /\ (safeTemperature t <= 12 # 10)%Q.
Proof.
  unfold safeTemperature, Math_min, Math_max.
  destruct (Qle_bool t 0) eqn:E0.
  - destruct (Qle_bool 0 (12 # 10)) eqn:E1; split; try apply Qle_refl;
      try (now apply Qle_bool_iff); discriminate.
  - assert (H0 : (0 <= t)%Q).
    { destruct (Qlt_le_dec 0 t) as [H | H]; [now apply Qlt_le_weak|].
      apply Qle_bool_iff in H. congruence. }
    destruct (Qle_bool t (12 # 10)) eqn:E1; split; auto.
    + now apply Qle_bool_iff.
    + discriminate.
    + apply Qle_refl.
Qed.

(** What a request of the REST branch must look like. *)
Lemma rest_request_well_formed provider modelName systemPrompt history apiKey temperature :
  well_formed_request provider modelName apiKey
    (rest_request provider modelName systemPrompt history apiKey
       (safeTemperature temperature)).
Proof.
  unfold well_formed_request, rest_request. simpl. repeat split.
  destruct (modelName =? "deepseek-reasoner")%string eqn:E.
  - now apply String.eqb_eq.
  - split; [now apply String.eqb_neq | apply safeTemperature_bounds].
Qed.

Ltac events_ok Hreq :=
  repeat first
    [ apply Forall_nil
    | apply Forall_cons; [first [exact Hreq | reflexivity | exact I] |] ].

(** The events of a retry of the REST branch. *)
Lemma getAIResponse_retry_events provider modelName systemPrompt history apiKey
    temperature retryCount w st :
  provider <> gemini -> Js.truthy apiKey = true -> 1 <= retryCount ->
  exists es,
    snd (getAIResponse provider modelName systemPrompt history apiKey temperature
           retryCount w st) = log st es
    /\ Forall (expected_event provider modelName apiKey) es.
Proof.
  intros Hp Hkey Hretry.
  rewrite (getAIResponse_rest _ _ _ _ _ _ _ _ _ Hp Hkey). cbv zeta.
  pose proof (rest_request_well_formed provider modelName systemPrompt history apiKey
                temperature) as Hreq.
  assert (Hlt : (retryCount <? 1) = false) by (apply Nat.ltb_ge; lia).
  rewrite Hlt.
  destruct (fetch_reply w (trace st) _) as [e | status e | status e | status data];
    [eexists; split; [reflexivity | events_ok Hreq] ..
    | destruct (negb (res_ok status) && (status =? 401));
      eexists; (split; [reflexivity | events_ok Hreq])
    |].
  destruct (res_ok status); [eexists; split; [reflexivity | events_ok Hreq]|].
  rewrite andb_false_r.
  destruct (status =? 401); eexists; (split; [reflexivity | events_ok Hreq]).
Qed.

(** X1.  Whatever the back ends answer, a call of [getAIResponse] for
    OpenAI or DeepSeek does nothing but: send requests to that provider's
    endpoint, with the caller's key as bearer token, the model asked for, a
    limit of 2048 tokens and a temperature between 0 and 1.2 (for the model
    'deepseek-reasoner', and for it only, no temperature); sleep for
    2000 ms; and log an error.  It never calls the Gemini SDK. *)
Theorem getAIResponse_rest_events (provider : ModelProvider)
    (modelName systemPrompt : string) (history : list Message.t) (apiKey : string)
    (temperature : Q) (retryCount : nat) (w : World) (st : State) :
  provider <> gemini ->
  exists es,
    snd (getAIResponse provider modelName systemPrompt history apiKey temperature
           retryCount w st) = log st es
    /\ Forall (expected_event provider modelName apiKey) es.
Proof.
  intros Hp. destruct (Js.truthy apiKey) eqn:Hkey.
  - destruct (Nat.le_gt_cases 1 retryCount) as [Hretry | Hfirst];
      [now apply getAIResponse_retry_events|].
    rewrite (getAIResponse_rest _ _ _ _ _ _ _ _ _ Hp Hkey). cbv zeta.
    pose proof (rest_request_well_formed provider modelName systemPrompt history apiKey
                  temperature) as Hreq.
    destruct (fetch_reply w (trace st) _) as [e | status e | status e | status data];
      [eexists; split; [reflexivity | events_ok Hreq] ..
      | destruct (negb (res_ok status) && (status =? 401));
        eexists; (split; [reflexivity | events_ok Hreq])
      |].
    destruct (res_ok status);
      [eexists; split; [reflexivity | events_ok Hreq]|].
    destruct (status =? 401);
      [eexists; split; [reflexivity | events_ok Hreq]|].
    destruct ((status =? 429) && (retryCount <? 1));
      [|eexists; split; [reflexivity | events_ok Hreq]].
    destruct (getAIResponse_retry_events provider modelName systemPrompt history apiKey
                temperature (retryCount + 1) w
                (log st [Fetch (rest_request provider modelName systemPrompt history
                                  apiKey (safeTemperature temperature)); Sleep 2000])
                Hp Hkey) as (es & Hes & Hall); [lia|].
    eexists. rewrite Hes, log_log. split; [reflexivity|].
    apply Forall_app. split; [events_ok Hreq | exact Hall].
  - rewrite getAIResponse_key_missing by assumption. exists []. split; [|constructor].
    unfold log. rewrite app_nil_r. now destruct st.
Qed.

(** X1, for the sample call in surroundings that answer 429 and then 200. *)
Lemma getAIResponse_rest_events_witness :
  exists es,
    snd (getAIResponse openai "gpt-4o" "Be brief." bot_says_hi "sk-test" (7 # 10) 0
           busy_once initial) = log initial es
    /\ Forall (expected_event openai "gpt-4o" "sk-test") es.
Proof.
  apply (getAIResponse_rest_events openai "gpt-4o" "Be brief." bot_says_hi "sk-test"
           (7 # 10) 0 busy_once initial).
  discriminate.
Defined.



(** X3.  For OpenAI or DeepSeek without a key, [getAIResponse] throws
    "API Key missing for <PROVIDER>" and causes no event at all: no request,
    no log, no pause. *)
Theorem getAIResponse_without_key (provider : ModelProvider)
    (modelName systemPrompt : string) (history : list Message.t)
    (temperature : Q) (retryCount : nat) (w : World) (st : State) :
  provider <> gemini ->
  getAIResponse provider modelName systemPrompt history "" temperature retryCount w st
  = (Throws ("API Key missing for " ^^ Js.toUpperCase (provider_string provider)), st).
Proof. intros Hp. now apply getAIResponse_key_missing. Qed.

(** X3, for DeepSeek. *)
Lemma getAIResponse_without_key_witness :
  getAIResponse deepseek "deepseek-chat" "Be brief." bot_says_hi "" (7 # 10) 0
    always_busy initial
  = (Throws "API Key missing for DEEPSEEK", initial).
Proof.
  apply (getAIResponse_without_key deepseek "deepseek-chat" "Be brief." bot_says_hi
           (7 # 10) 0 always_busy initial).
  discriminate.
Defined.

(** X4.  A call of [getAIResponse] for Gemini makes exactly one call of the
    SDK and nothing else.  The client holds [process.env.API_KEY], or the
    empty key when there is none; the system prompt travels as the system
    instruction, the normalised history as the contents, and a thinking
    budget of 32768 is asked for exactly when the model name contains "pro".
    An error of the SDK is thrown with the prefix "Gemini: "; an absent or
    empty text is answered by "No response.". *)
Theorem getAIResponse_gemini_call (modelName systemPrompt : string)
    (history : list Message.t) (apiKey : string) (temperature : Q)
    (retryCount : nat) (w : World) (st : State) :
  let call := getAIResponse gemini modelName systemPrompt history apiKey temperature
                retryCount w st in
  exists req,
    snd call = log st [GenerateContent req]
    /\ GenerateRequest.apiKey req = Js.opt_or_else (API_KEY w) ""
    /\ GenerateRequest.model req = modelName
    /\ GenerateRequest.systemInstruction req = systemPrompt
    /\ GenerateRequest.contents req
       = map (fun h => (role h, content h)) (mapHistory history gemini)
    /\ (GenerateRequest.thinkingBudget req = Some 32768%Z
        <-> Js.includes modelName "pro" = true)
    /\ match generate_reply w (trace st) req with
       | GenerateThrows e => fst call = Throws ("Gemini: " ^^ e)
       | GenerateReturns None => fst call = Returns "No response."
       | GenerateReturns (Some text) =>
           fst call = Returns (if Js.truthy text then cleanResponse text
                               else "No response.")
       end.
Proof.
  intros call. unfold call. rewrite getAIResponse_gemini. cbv zeta.
  eexists. split; [destruct (generate_reply w (trace st) _); reflexivity|].
  repeat split.
  - simpl. destruct (Js.includes modelName "pro"); [reflexivity | discriminate].
  - simpl. intros ->. reflexivity.
  - destruct (generate_reply w (trace st) _) as [e | [text|]]; try reflexivity.
    simpl. unfold Js.or_else. now destruct (Js.truthy text).
Qed.

Lemma getAIResponse_returns_cleaned_retry provider modelName systemPrompt history apiKey
    temperature retryCount w st text :
  provider <> gemini -> Js.truthy apiKey = true -> 1 <= retryCount ->
  fst (getAIResponse provider modelName systemPrompt history apiKey temperature
         retryCount w st) = Returns text ->
  exists raw, text = cleanResponse raw.
Proof.
  intros Hp Hkey Hretry.
  rewrite (getAIResponse_rest _ _ _ _ _ _ _ _ _ Hp Hkey). cbv zeta.
  assert (Hlt : (retryCount <? 1) = false) by (apply Nat.ltb_ge; lia).
  rewrite Hlt.
  destruct (fetch_reply w (trace st) _) as [e | status e | status e | status data];
    try discriminate;
    try (destruct (negb (res_ok status) && (status =? 401)); discriminate).
  destruct (res_ok status); [intros [= <-]; eauto|].
  rewrite andb_false_r. destruct (status =? 401); discriminate.
Qed.

(** X5.  Whenever [getAIResponse] returns a text, for any provider, that
    text went through [cleanResponse]: it has no white space at either end. *)
Theorem getAIResponse_returns_trimmed (provider : ModelProvider)
    (modelName systemPrompt : string) (history : list Message.t) (apiKey : string)
    (temperature : Q) (retryCount : nat) (w : World) (st : State) (text : string) :
  fst (getAIResponse provider modelName systemPrompt history apiKey temperature
         retryCount w st) = Returns text ->
  (exists raw, text = cleanResponse raw) /\ Js.trim text = text.
Proof.
  intros Hret.
  assert (Hclean : exists raw, text = cleanResponse raw).
  { destruct (ModelProvider_eqb provider gemini) eqn:Hg.
    - assert (provider = gemini) by (destruct provider; simpl in Hg; congruence).
      subst provider. rewrite getAIResponse_gemini in Hret. cbv zeta in Hret.
      destruct (generate_reply w (trace st) _); [discriminate|].
      simpl in Hret. inversion Hret. eauto.
    - assert (Hp : provider <> gemini) by (intros ->; discriminate).
      destruct (Js.truthy apiKey) eqn:Hkey;
        [|rewrite getAIResponse_key_missing in Hret by assumption; discriminate].
      destruct (Nat.le_gt_cases 1 retryCount) as [Hretry | Hfirst];
        [eapply getAIResponse_returns_cleaned_retry; eassumption|].
      rewrite (getAIResponse_rest _ _ _ _ _ _ _ _ _ Hp Hkey) in Hret. cbv zeta in Hret.
      destruct (fetch_reply w (trace st) _) as [e | status e | status e | status data];
        try discriminate;
        try (destruct (negb (res_ok status) && (status =? 401)); discriminate).
      destruct (res_ok status); [inversion Hret; eauto|].
      destruct (status =? 401); [discriminate|].
      destruct ((status =? 429) && (retryCount <? 1)); [|discriminate].
      eapply getAIResponse_returns_cleaned_retry in Hret; auto. lia. }
  split; [exact Hclean|]. destruct Hclean as [raw ->]. apply cleanResponse_trimmed.
Qed.

(** X5, for the sample call in surroundings that answer 429 and then 200. *)
Lemma getAIResponse_returns_trimmed_witness : Js.trim "Hello" = "Hello".
Proof.
  apply (getAIResponse_returns_trimmed openai "gpt-4o" "Be brief." bot_says_hi "sk-test"
           (7 # 10) 0 busy_once initial "Hello").
  vm_compute. reflexivity.
Defined.

(* ================================================================== *)
(** * Further properties of [mapHistory] *)
(* ================================================================== *)

Lemma last_opt_cons {A : Type} (x y : A) l : Js.last_opt (x :: y :: l) = Js.last_opt (y :: l).
Proof.
  destruct (snoc_cases (y :: l)) as [H | (l' & z & H)]; [discriminate|].
  rewrite H. change (x :: l' ++ [z]) with ((x :: l') ++ [z]).
  now rewrite !last_opt_snoc.
Qed.

Lemma no_repeat_snoc rs a :
  no_repeat (rs ++ [a])
  = no_repeat rs
    && match Js.last_opt rs with
       | Some b => negb (Role.eqb b a)
       | None => true
       end.
Proof.
  induction rs as [|x rs IH]; [reflexivity|].
  destruct rs as [|y rs].
  - simpl. now rewrite andb_true_r.
  - change (no_repeat ((x :: y :: rs) ++ [a]))
      with (negb (Role.eqb x y) && no_repeat ((y :: rs) ++ [a])).
    rewrite IH, last_opt_cons. simpl. now rewrite andb_assoc.
Qed.

Lemma no_repeat_tail a rs : no_repeat (a :: rs) = true -> no_repeat rs = true.
Proof.
  destruct rs as [|b rs]; [reflexivity|]. simpl. intros H.
  now apply andb_prop in H as [_ H].
Qed.

Lemma no_repeat_removelast rs : no_repeat rs = true -> no_repeat (removelast rs) = true.
Proof.
  destruct (snoc_cases rs) as [-> | (rs' & a & ->)]; [reflexivity|].
  rewrite removelast_last, no_repeat_snoc. intros H. now apply andb_prop in H as [H _].
Qed.

Lemma last_opt_map {A B : Type} (f : A -> B) l :
  Js.last_opt (map f l) = option_map f (Js.last_opt l).
Proof.
  destruct (snoc_cases l) as [-> | (l' & x & ->)]; [reflexivity|].
  rewrite map_app. cbn [map]. now rewrite !last_opt_snoc.
Qed.

(** How one step of the merge changes the roles. *)
Lemma merge_step_roles acc m :
  roles (merge_step acc m)
  = match Js.last_opt (roles acc) with
    | Some r => if Role.eqb r (role m) then roles acc else roles acc ++ [role m]
    | None => [role m]
    end.
Proof.
  unfold roles. destruct (snoc_cases acc) as [-> | (acc' & l & ->)]; [reflexivity|].
  rewrite merge_step_snoc.
  replace (Js.last_opt (map role (acc' ++ [l]))) with (Some (role l))
    by (rewrite map_app; cbn [map]; now rewrite last_opt_snoc).
  destruct (Role.eqb (role l) (role m)); rewrite !map_app; reflexivity.
Qed.

Lemma merge_step_no_repeat acc m :
  no_repeat (roles acc) = true -> no_repeat (roles (merge_step acc m)) = true.
Proof.
  intros H. rewrite merge_step_roles.
  destruct (Js.last_opt (roles acc)) as [r|] eqn:Hlast; [|reflexivity].
  destruct (Role.eqb r (role m)) eqn:E; [exact H|].
  now rewrite no_repeat_snoc, H, Hlast, E.
Qed.

Lemma fold_merge_no_repeat mapped : forall acc,
  no_repeat (roles acc) = true ->
  no_repeat (roles (fold_left merge_step mapped acc)) = true.
Proof.
  induction mapped as [|m l IH]; intros acc H; simpl; [exact H|].
  now apply IH, merge_step_no_repeat.
Qed.

Lemma merge_step_role_set (P : Role.t -> bool) acc m :
  forallb P (roles acc) = true -> P (role m) = true ->
  forallb P (roles (merge_step acc m)) = true.
Proof.
  intros Hacc Hm. rewrite merge_step_roles.
  destruct (Js.last_opt (roles acc)) as [r|]; [|simpl; now rewrite Hm].
  destruct (Role.eqb r (role m)); [exact Hacc|].
  rewrite forallb_app, Hacc. simpl. now rewrite Hm.
Qed.

Lemma fold_merge_role_set (P : Role.t -> bool) mapped : forall acc,
  forallb P (roles acc) = true -> forallb P (roles mapped) = true ->
  forallb P (roles (fold_left merge_step mapped acc)) = true.
Proof.
  induction mapped as [|m l IH]; intros acc Hacc Hl; simpl; [exact Hacc|].
  simpl in Hl. apply andb_prop in Hl as [Hm Hl].
  apply IH; [now apply merge_step_role_set | exact Hl].
Qed.

Lemma mapMessage_role_set provider msgs :
  forallb (if ModelProvider_eqb provider gemini then gemini_role else strict_role)
    (roles (map (mapMessage provider) msgs)) = true.
Proof.
  unfold roles. induction msgs as [|m l IH]; [reflexivity|].
  cbn [map forallb]. rewrite IH, andb_true_r.
  destruct provider; simpl; destruct (Message.sender m); reflexivity.
Qed.

(** X6.  For Gemini, [mapHistory] returns turns whose roles are user and
    model only, and no two consecutive turns have the same role. *)
Theorem mapHistory_gemini_alternates (history : list Message.t) :
  forallb gemini_role (roles (mapHistory history gemini)) = true
  /\ no_repeat (roles (mapHistory history gemini)) = true.
Proof.
  unfold mapHistory. destruct (List.length history =? 0); [split; reflexivity|].
  split.
  - apply fold_merge_role_set; [reflexivity | apply (mapMessage_role_set gemini)].
  - now apply fold_merge_no_repeat.
Qed.

Lemma rule1_roles l :
  roles (rule1 l)
  = match roles l with
    | Role.assistant :: rest => Role.user :: rest
    | rs => rs
    end.
Proof.
  destruct l as [|first rest]; [reflexivity|]. unfold roles. simpl.
  destruct (role first) eqn:E; simpl; rewrite ?E; reflexivity.
Qed.

Lemma update_last_roles f l :
  (forall t, role (f t) = role t) -> roles (Js.update_last f l) = roles l.
Proof.
  intros Hf. destruct (snoc_cases l) as [-> | (l' & x & ->)]; [reflexivity|].
  rewrite update_last_snoc. unfold roles. rewrite !map_app. simpl. now rewrite Hf.
Qed.

Lemma rule2_roles l :
  roles (rule2 l)
  = match Js.last_opt (roles l) with
    | None => roles l
    | Some r =>
        if (1 <? List.length (roles l)) && Role.eqb r Role.assistant
        then removelast (roles l)
        else match roles l with
             | [Role.assistant] => [Role.user]
             | rs => rs
             end
    end.
Proof.
  destruct (snoc_cases l) as [-> | (l' & lastTurn & ->)]; [reflexivity|].
  rewrite rule2_snoc. unfold roles at 2 3 4 5. rewrite last_opt_map, last_opt_snoc.
  cbn [option_map]. rewrite length_map. unfold is_assistant.
  destruct ((1 <? List.length (l' ++ [lastTurn]))
            && Role.eqb (role lastTurn) Role.assistant).
  - rewrite update_last_roles by reflexivity.
    unfold roles. rewrite map_app. cbn [map]. now rewrite removelast_last.
  - destruct (l' ++ [lastTurn]) as [|onlyMsg [|second rest]]; try reflexivity.
    + unfold roles. cbn [map]. unfold is_assistant.
      destruct (role onlyMsg) eqn:E; simpl; rewrite ?E; reflexivity.
    + unfold roles. cbn [map]. now destruct (role onlyMsg).
Qed.

Lemma strict_not_assistant r :
  strict_role r = true -> Role.eqb r Role.assistant = false -> r = Role.user.
Proof. destruct r; simpl; congruence. Qed.

Lemma forallb_removelast {A : Type} (P : A -> bool) l :
  forallb P l = true -> forallb P (removelast l) = true.
Proof.
  destruct (snoc_cases l) as [-> | (l' & x & ->)]; [auto|].
  rewrite removelast_last, forallb_app. intros H. now apply andb_prop in H as [H _].
Qed.

(** Rule 2 on roles that already start with a user turn. *)
Lemma repaired_user rest :
  forallb strict_role rest = true -> no_repeat rest = true ->
  let r1 := Role.user :: rest in
  let out := match Js.last_opt r1 with
             | None => r1
             | Some r =>
                 if (1 <? List.length r1) && Role.eqb r Role.assistant
                 then removelast r1
                 else match r1 with
                      | [Role.assistant] => [Role.user]
                      | r1' => r1'
                      end
             end in
  forallb strict_role out = true
  /\ no_repeat (tl out) = true
  /\ (out <> [] -> hd_error out = Some Role.user /\ Js.last_opt out = Some Role.user).
Proof.
  intros Hrest Hnr'. cbv zeta.
  destruct (snoc_cases rest) as [-> | (rest' & z & ->)].
  - simpl. repeat split; reflexivity.
  - change (Role.user :: rest' ++ [z]) with ((Role.user :: rest') ++ [z]).
    rewrite last_opt_snoc, length_app. cbn [List.length].
    replace (1 <? S (List.length rest') + 1) with true
      by (symmetry; apply Nat.ltb_lt; lia).
    cbn [andb]. rewrite forallb_app in Hrest. apply andb_prop in Hrest as [Hrest' Hz].
    simpl in Hz. rewrite andb_true_r in Hz.
    rewrite no_repeat_snoc in Hnr'. apply andb_prop in Hnr' as [Hnr' Hlast].
    destruct (Role.eqb z Role.assistant) eqn:Ez.
    + rewrite removelast_last. cbn [tl hd_error forallb strict_role andb].
      split; [exact Hrest'|]. split; [exact Hnr'|]. intros _. split; [reflexivity|].
      destruct (snoc_cases rest') as [-> | (rest'' & y & ->)]; [reflexivity|].
      change (Role.user :: rest'' ++ [y]) with ((Role.user :: rest'') ++ [y]).
      rewrite last_opt_snoc. rewrite last_opt_snoc in Hlast.
      rewrite forallb_app in Hrest'. apply andb_prop in Hrest' as [_ Hy].
      simpl in Hy. rewrite andb_true_r in Hy.
      assert (z = Role.assistant) by (destruct z; simpl in Ez; congruence). subst z.
      apply negb_true_iff in Hlast. now rewrite (strict_not_assistant y Hy Hlast).
    + cbn [app tl hd_error forallb strict_role andb].
      split; [rewrite forallb_app, Hrest'; simpl; now rewrite Hz|].
      split; [now rewrite no_repeat_snoc, Hnr', Hlast|].
      intros _. split; [reflexivity|].
      change (Role.user :: rest' ++ [z]) with ((Role.user :: rest') ++ [z]).
      rewrite last_opt_snoc. now rewrite (strict_not_assistant z Hz Ez).
Qed.

(** X7.  For OpenAI and DeepSeek, [mapHistory] returns turns whose roles
    are user and assistant only; when there is any turn, the first and the
    last are user turns; and from the second turn on no two consecutive
    turns have the same role. *)
Theorem mapHistory_strict_ends (history : list Message.t) (provider : ModelProvider) :
  provider <> gemini ->
  let out := roles (mapHistory history provider) in
  forallb strict_role out = true
  /\ no_repeat (tl out) = true
  /\ (out <> [] -> hd_error out = Some Role.user /\ Js.last_opt out = Some Role.user).
Proof.
  intros Hp out. subst out. unfold mapHistory.
  destruct (List.length history =? 0);
    [split; [reflexivity | split; [reflexivity | intros H; now elim H]]|].
  cbv zeta.
  assert (Heq : match provider with
                | gemini => merge_runs (map (mapMessage provider) (windowMessages history))
                | _ => rule2 (rule1 (merge_runs (map (mapMessage provider)
                                                   (windowMessages history))))
                end
                = rule2 (rule1 (merge_runs (map (mapMessage provider)
                                              (windowMessages history)))))
    by (destruct provider; [reflexivity | reflexivity | congruence]).
  rewrite Heq. clear Heq.
  set (merged := merge_runs (map (mapMessage provider) (windowMessages history))).
  assert (Hstrict : forallb strict_role (roles merged) = true).
  { apply fold_merge_role_set; [reflexivity|].
    pose proof (mapMessage_role_set provider (windowMessages history)) as H.
    destruct provider; [exact H | exact H | congruence]. }
  assert (Hnr : no_repeat (roles merged) = true) by now apply fold_merge_no_repeat.
  rewrite rule2_roles, rule1_roles. clearbody merged.
  destruct (roles merged) as [|r0 rest];
    [split; [reflexivity | split; [reflexivity | intros H; now elim H]]|].
  assert (Hrest : forallb strict_role rest = true)
    by (simpl in Hstrict; now apply andb_prop in Hstrict as [_ ?]).
  assert (Hnr' : no_repeat rest = true) by (eapply no_repeat_tail; eassumption).
  destruct r0; [ | | discriminate]; exact (repaired_user rest Hrest Hnr').
Qed.

(** X7, for a history that the assistant opens and two assistants close:
    the two turns that are left are both user turns. *)
Lemma mapHistory_strict_ends_witness :
  roles (mapHistory mixed_history deepseek) = [Role.user; Role.user]
  /\ hd_error (roles (mapHistory mixed_history deepseek)) = Some Role.user
  /\ Js.last_opt (roles (mapHistory mixed_history deepseek)) = Some Role.user.
Proof.
  split; [reflexivity|].
  apply (proj2 (proj2 (mapHistory_strict_ends mixed_history deepseek ltac:(discriminate)))).
  discriminate.
Defined.

Lemma chatMessages_no_system history :
  Forall (fun m => is_system m = false) (chatMessages history).
Proof.
  unfold chatMessages, is_system. apply Forall_forall. intros m Hm.
  apply filter_In in Hm as [_ Hm]. now apply negb_true_iff in Hm.
Qed.

Lemma slice_last_short {A : Type} n (l : list A) :
  List.length l <= n -> Js.slice_last n l = l.
Proof.
  intros H. unfold Js.slice_last.
  replace (List.length l - n) with 0 by lia. reflexivity.
Qed.

Lemma windowMessages_recent history :
  windowMessages (Js.slice_last MAX_HISTORY_MESSAGES (chatMessages history))
  = windowMessages history.
Proof.
  unfold windowMessages.
  set (recent := Js.slice_last MAX_HISTORY_MESSAGES (chatMessages history)).
  assert (Hsame : chatMessages recent = recent).
  { apply chatMessages_all.
    apply (Forall_suffix _ recent (chatMessages history)).
    - apply slice_last_suffix.
    - apply chatMessages_no_system. }
  rewrite Hsame, slice_last_short; [reflexivity|].
  apply slice_last_length.
Qed.

(** X8.  [mapHistory] depends on the last 40 non-system messages of the
    history only: system messages, and whatever is older than those 40,
    never reach the provider. *)
Theorem mapHistory_recent_only (history : list Message.t) (provider : ModelProvider) :
  mapHistory history provider
  = mapHistory (Js.slice_last MAX_HISTORY_MESSAGES (chatMessages history)) provider.
Proof.
  unfold mapHistory. rewrite windowMessages_recent.
  destruct history as [|m0 history']; [reflexivity|].
  cbn [List.length Nat.eqb].
  set (history := m0 :: history').
  destruct (Js.slice_last MAX_HISTORY_MESSAGES (chatMessages history)) as [|r0 recent] eqn:E;
    [|reflexivity].
  cbn [List.length Nat.eqb].
  assert (Hw : windowMessages history = []).
  { unfold windowMessages. rewrite E. reflexivity. }
  rewrite Hw. now destruct provider.
Qed.

Lemma merge_step_length acc m :
  List.length (merge_step acc m) <= S (List.length acc).
Proof.
  destruct (snoc_cases acc) as [-> | (acc' & l & ->)]; [simpl; lia|].
  rewrite merge_step_snoc.
  destruct (Role.eqb (role l) (role m)); rewrite !length_app; simpl; lia.
Qed.

Lemma fold_merge_length mapped : forall acc,
  List.length (fold_left merge_step mapped acc)
  <= List.length acc + List.length mapped.
Proof.
  induction mapped as [|m mapped IH]; intros acc; simpl; [lia|].
  specialize (IH (merge_step acc m)).
  pose proof (merge_step_length acc m). lia.
Qed.

Lemma rule1_length l : List.length (rule1 l) = List.length l.
Proof. destruct l as [|first rest]; [reflexivity|]. simpl. now destruct (role first). Qed.

Lemma rule2_length l : List.length (rule2 l) <= List.length l.
Proof.
  destruct (snoc_cases l) as [-> | (l' & lastTurn & ->)]; [simpl; lia|].
  rewrite rule2_snoc.
  destruct ((1 <? List.length (l' ++ [lastTurn])) && is_assistant lastTurn).
  - destruct (snoc_cases l') as [-> | (l'' & x & ->)]; [simpl; lia|].
    rewrite update_last_snoc, !length_app. simpl. lia.
  - destruct (l' ++ [lastTurn]) as [|onlyMsg [|second rest]]; simpl; try lia.
    destruct (is_assistant onlyMsg); simpl; lia.
Qed.

(** X9.  A mapped history has at most 40 turns, and never more turns than
    the history has non-system messages. *)
Theorem mapHistory_length (history : list Message.t) (provider : ModelProvider) :
  List.length (mapHistory history provider) <= MAX_HISTORY_MESSAGES
  /\ List.length (mapHistory history provider) <= List.length (chatMessages history).
Proof.
  assert (Hw : List.length (windowMessages history) <= MAX_HISTORY_MESSAGES
               /\ List.length (windowMessages history)
                  <= List.length (chatMessages history)).
  { pose proof (is_suffix_length _ _ (windowMessages_suffix_recent history)) as H1.
    pose proof (slice_last_length MAX_HISTORY_MESSAGES (chatMessages history)) as H2.
    pose proof (is_suffix_length _ _
                  (slice_last_suffix MAX_HISTORY_MESSAGES (chatMessages history))) as H3.
    lia. }
  assert (Hm : List.length (merge_runs (map (mapMessage provider) (windowMessages history)))
               <= List.length (windowMessages history)).
  { unfold merge_runs.
    pose proof (fold_merge_length (map (mapMessage provider) (windowMessages history)) [])
      as H.
    rewrite length_map in H. simpl in H. exact H. }
  unfold mapHistory. destruct (List.length history =? 0); [simpl; lia|].
  cbv zeta.
  set (merged := merge_runs (map (mapMessage provider) (windowMessages history))) in *.
  pose proof (rule2_length (rule1 merged)) as H2. rewrite rule1_length in H2.
  destruct provider; lia.
Qed.

Section Cleaning.

Import Regex.

Lemma lit_hyphen_only c : char_matches (Lit "-") c = true -> is_hyphen c = true.
Proof.
  destruct c as [[] [] [] [] [] [] [] []]; vm_compute; intros H;
    solve [reflexivity | discriminate].
Qed.

Lemma tagPattern_needs_hyphen keyword b c s :
  b && is_hyphen c = false -> match_here (tagPattern keyword) b (String c s) = None.
Proof.
  intros H. unfold match_here, tagPattern. simpl.
  destruct b; [|reflexivity]. simpl in H.
  destruct (char_matches (Lit "-") c) eqn:E;
    [apply lit_hyphen_only in E; congruence|].
  unfold one_then. simpl in E |- *. now rewrite E.
Qed.

Lemma hyphen_free_matches keyword : forall u b v,
  hyphen_free b u = true ->
  matches_from (tagPattern keyword) b (u ^^ v)
  = matches_from (tagPattern keyword) (bol_after b u) v.
Proof.
  induction u as [|c u IH]; intros b v H; [reflexivity|].
  cbn [hyphen_free] in H. apply andb_prop in H as [Hc Hu].
  apply negb_true_iff in Hc.
  cbn [append matches_from bol_after].
  rewrite (tagPattern_needs_hyphen keyword b c (u ^^ v) Hc). now apply IH.
Qed.

Lemma hyphen_free_replace keyword : forall u b v,
  hyphen_free b u = true ->
  replace_loop (tagPattern keyword) 0 b (u ^^ v)
  = u ^^ replace_loop (tagPattern keyword) 0 (bol_after b u) v.
Proof.
  induction u as [|c u IH]; intros b v H; [reflexivity|].
  cbn [hyphen_free] in H. apply andb_prop in H as [Hc Hu].
  apply negb_true_iff in Hc.
  cbn [append replace_loop bol_after].
  rewrite (tagPattern_needs_hyphen keyword b c (u ^^ v) Hc). now rewrite IH.
Qed.

Lemma replace_loop_empty p skip b : replace_loop p skip b "" = "".
Proof. reflexivity. Qed.

Lemma hyphen_free_fixed keyword u b :
  hyphen_free b u = true -> replace_loop (tagPattern keyword) 0 b u = u.
Proof.
  intros H. rewrite <- (append_empty_r u) at 1.
  rewrite hyphen_free_replace by exact H.
  now rewrite replace_loop_empty, append_empty_r.
Qed.

End Cleaning.

Lemma startsWith_hyphen c s : Js.startsWith (String c s) "-" = is_hyphen c.
Proof.
  destruct c as [[] [] [] [] [] [] [] []]; destruct s; reflexivity.
Qed.

Lemma line_terminator_no_hyphen c :
  Js.is_line_terminator c = true -> is_hyphen c = false.
Proof.
  destruct c as [[] [] [] [] [] [] [] []]; vm_compute; intros H;
    solve [reflexivity | discriminate].
Qed.

Lemma lines_hyphen_free s : forall b,
  (b = true -> Js.startsWith (hd "" (lines s)) "-" = false) ->
  Forall (fun line => Js.startsWith line "-" = false) (tl (lines s)) ->
  hyphen_free b s = true.
Proof.
  induction s as [|c s IH]; intros b Hhd Htl; [reflexivity|].
  cbn [hyphen_free lines] in *.
  destruct (Js.is_line_terminator c) eqn:Hc.
  - rewrite (line_terminator_no_hyphen c Hc), andb_false_r. cbn [negb andb].
    cbn [tl] in Htl. apply IH.
    + intros _. destruct (lines s); [reflexivity | now inversion Htl].
    + destruct (lines s); [constructor | now inversion Htl].
  - assert (Hs : hyphen_free false s = true).
    { apply IH; [discriminate|]. destruct (lines s); [constructor | exact Htl]. }
    rewrite Hs, andb_true_r.
    destruct b; [|reflexivity].
    assert (Hh : is_hyphen c = false).
    { rewrite <- (Hhd eq_refl). destruct (lines s); cbn [hd];
        now rewrite startsWith_hyphen. }
    now rewrite Hh.
Qed.

Lemma no_hyphen_line_free text : no_hyphen_line text -> hyphen_free true text = true.
Proof.
  unfold no_hyphen_line. intros H. apply lines_hyphen_free.
  - intros _. destruct (lines text); [reflexivity | now inversion H].
  - destruct (lines text); [constructor | now inversion H].
Qed.

(** X10.  A text in which no line starts with a hyphen is only trimmed by
    [cleanResponse]: nothing inside it is removed. *)
Theorem cleanResponse_only_trims (text : string) :
  no_hyphen_line text -> cleanResponse text = Js.trim text.
Proof.
  intros H. apply no_hyphen_line_free in H.
  destruct text as [|c s]; [reflexivity|].
  rewrite cleanResponse_nonempty_input, sourceTag_shape, endTag_shape.
  unfold Regex.replaceAll.
  rewrite (hyphen_free_fixed "SOURCE:" _ true H).
  now rewrite (hyphen_free_fixed "END" _ true H).
Qed.

(** X10, at a reply that holds a hyphen inside a line and a tag line behind
    a blank: only the white space at its ends is removed. *)
Lemma cleanResponse_only_trims_witness :
  cleanResponse plain_reply = "Sure - here:" ^^ LF ^^ " --- END ---".
Proof.
  rewrite (cleanResponse_only_trims plain_reply); [reflexivity|].
  unfold no_hyphen_line. repeat constructor.
Defined.

Section RoundTrip.

Import Regex.

Lemma blind_closing_blanks : blind closing_blanks.
Proof. apply blind_star_greedy. intros ? ? ? ?. reflexivity. Qed.

Lemma blind_closing_hyphens : blind closing_hyphens.
Proof. apply blind_one_then. Qed.

(** A greedy star takes the whole run when what follows succeeds there. *)
Lemma star_greedy_exact cs k : blind k -> forall s1 s2 b n r,
  all_chars (char_matches cs) s1 = true ->
  match s2 with
  | String c _ => char_matches cs c = false
  | EmptyString => True
  end ->
  k b (n + String.length s1) s2 = Some r ->
  star_greedy cs k b n (s1 ^^ s2) = Some r.
Proof.
  intros Hk. induction s1 as [|c s1 IH]; intros s2 b n r Hall Hs2 Hr.
  - cbn [append]. simpl in Hr. rewrite Nat.add_0_r in Hr.
    destruct s2 as [|c2 s2]; simpl; [exact Hr|]. now rewrite Hs2.
  - simpl in Hall. apply andb_prop in Hall as [Hc Hall].
    cbn [append star_greedy]. rewrite Hc.
    rewrite (IH s2 (Js.is_line_terminator c) (S n) r Hall Hs2); [reflexivity|].
    rewrite (Hk _ b), <- Hr. f_equal. simpl. lia.
Qed.

Lemma lt_free_cons c s :
  lt_free (String c s) <-> Js.is_line_terminator c = false /\ lt_free s.
Proof.
  unfold lt_free. simpl. rewrite andb_true_iff, negb_true_iff. reflexivity.
Qed.

Lemma lt_free_app a b : lt_free (a ^^ b) <-> lt_free a /\ lt_free b.
Proof. unfold lt_free. rewrite all_chars_app, andb_true_iff. reflexivity. Qed.

(** Blanks cannot reach the end of the line across a hyphen. *)
Lemma closing_blanks_blocked y : forall rest b n,
  lt_free y -> closing_blanks b n (y ^^ String "-" rest) = None.
Proof.
  induction y as [|c y IH]; intros rest b n Hy; [reflexivity|].
  apply lt_free_cons in Hy as [Hc Hy].
  unfold closing_blanks. cbn [append star_greedy]. fold closing_blanks.
  rewrite (IH rest _ _ Hy). unfold at_line_end, at_eol. rewrite Hc.
  now destruct (char_matches WhiteSpace c).
Qed.

Lemma string_cons_app c a b : String c (a ^^ b) = String c a ^^ b.
Proof. reflexivity. Qed.

(** Hyphens and blanks cannot reach the end of the line when a blank and,
    later, a hyphen lie ahead. *)
Lemma closing_run_blocked y : forall u rest b n,
  lt_free y -> lt_free u ->
  closing_run b n (y ^^ String " " (u ^^ String "-" rest)) = None.
Proof.
  induction y as [|c y IH]; intros u rest b n Hy Hu.
  - cbn [append]. unfold closing_run. cbn [star_greedy].
    change (char_matches (Lit "-") " ") with false. cbv iota.
    rewrite string_cons_app. apply closing_blanks_blocked.
    apply lt_free_cons. now split.
  - apply lt_free_cons in Hy as [Hc Hy].
    unfold closing_run. cbn [append star_greedy]. fold closing_run.
    rewrite (IH u rest _ _ Hy Hu).
    assert (Hb : closing_blanks b n (String c (y ^^ String " " (u ^^ String "-" rest)))
                 = None).
    { replace (String c (y ^^ String " " (u ^^ String "-" rest)))
        with (String c (y ^^ String " " u) ^^ String "-" rest)
        by (cbn [append]; now rewrite append_assoc).
      apply closing_blanks_blocked. apply lt_free_cons. split; [exact Hc|].
      apply lt_free_app. split; [exact Hy|]. apply lt_free_cons. now split. }
    rewrite Hb. now destruct (char_matches (Lit "-") c).
Qed.

Lemma closing_hyphens_blocked c y u rest b n :
  lt_free y -> lt_free u ->
  closing_hyphens b n (String c (y ^^ String " " (u ^^ String "-" rest))) = None.
Proof.
  intros Hy Hu. unfold closing_hyphens, one_then.
  destruct (char_matches (Lit "-") c); [|reflexivity].
  now apply closing_run_blocked.
Qed.

(** The lazy [.*?] walks over a label up to the last run of hyphens. *)
Lemma star_lazy_label X : forall rest b n r,
  lt_free X ->
  closing_hyphens false (n + String.length X + 1) ("---" ^^ rest) = Some r ->
  star_lazy Dot closing_hyphens b n (X ^^ " ---" ^^ rest) = Some r.
Proof.
  induction X as [|c X IH]; intros rest b n r HX Hr.
  - cbn [append String.length] in *. rewrite Nat.add_0_r in Hr.
    rewrite star_lazy_unfold.
    change (closing_hyphens b n
              (String " " (String "-" (String "-" (String "-" rest))))) with (@None nat).
    change (char_matches Dot " ") with true. cbv iota.
    rewrite star_lazy_unfold.
    replace (S n) with (n + 1) by lia.
    change (Js.is_line_terminator " ") with false. now rewrite Hr.
  - apply lt_free_cons in HX as [Hc HX].
    cbn [append]. rewrite star_lazy_unfold.
    change (X ^^ String " " (String "-" (String "-" (String "-" rest))))
      with (X ^^ String " " ("--" ^^ String "-" rest)).
    rewrite closing_hyphens_blocked by (auto; reflexivity).
    unfold char_matches. rewrite Hc. cbn [negb].
    apply (IH rest false (S n) r HX).
    rewrite <- Hr. f_equal. simpl. lia.
Qed.

Lemma not_hyphen_no_match c : is_hyphen c = false -> char_matches (Lit "-") c = false.
Proof.
  intros H. destruct (char_matches (Lit "-") c) eqn:E; [|reflexivity].
  apply lit_hyphen_only in E. congruence.
Qed.

(** The closing run of three hyphens, before a text that does not go on
    with a hyphen. *)
Lemma closing_hyphens_final post b n r :
  match post with
  | String c _ => is_hyphen c = false
  | EmptyString => True
  end ->
  closing_blanks false (n + 3) post = Some r ->
  closing_hyphens b n ("---" ^^ post) = Some r.
Proof.
  intros Hpost Hr. unfold closing_hyphens.
  change ("---" ^^ post) with (String "-" ("--" ^^ post)).
  apply one_then_run; [reflexivity|].
  apply (star_greedy_exact (Lit "-") closing_blanks blind_closing_blanks "--" post).
  - reflexivity.
  - destruct post as [|c post]; [exact I | now apply not_hyphen_no_match].
  - rewrite (blind_closing_blanks _ false). rewrite <- Hr. f_equal. simpl. lia.
Qed.

Lemma ci_eqb_refl s : ci_eqb s s = true.
Proof. induction s as [|c s IH]; simpl; [reflexivity|]. now rewrite Ascii.eqb_refl. Qed.

(** The match of a pattern on the tag line [mapHistory] writes. *)
Lemma tagPattern_exact keyword L post r :
  match keyword with
  | String c _ => Js.is_white_space c = false
  | EmptyString => False
  end ->
  lt_free L ->
  closing_hyphens false (6 + String.length keyword + String.length L) ("---" ^^ post)
  = Some r ->
  match_here (tagPattern keyword) true
    ("--- " ^^ keyword ^^ " " ^^ L ^^ " ---" ^^ post) = Some r.
Proof.
  intros Hkw HL Hr. unfold match_here, tagPattern. rewrite !m_app.
  change (m [LazyStar Dot; Plus (Lit "-"); Star WhiteSpace; EOL] (fun _ n _ => Some n))
    with (star_lazy Dot closing_hyphens).
  set (kL := star_lazy Dot closing_hyphens).
  assert (HkL : blind kL) by (apply blind_star_lazy, blind_closing_hyphens).
  set (kK := m (lits keyword) kL).
  assert (HkK : blind kK) by now apply blind_m_lits.
  change (m [BOL; Plus (Lit "-"); Star WhiteSpace] kK true 0)
    with (one_then (Lit "-") (star_greedy (Lit "-") (star_greedy WhiteSpace kK)) true 0).
  change ("--- " ^^ keyword ^^ " " ^^ L ^^ " ---" ^^ post)
    with (String "-" ("--" ^^ (" " ^^ keyword ^^ " " ^^ L ^^ " ---" ^^ post))).
  apply one_then_run; [reflexivity|].
  apply (star_greedy_exact (Lit "-") _ (blind_star_greedy _ _ HkK) "--");
    [reflexivity | reflexivity |].
  apply (star_greedy_exact WhiteSpace kK HkK " ").
  - reflexivity.
  - destruct keyword as [|c keyword]; [contradiction | exact Hkw].
  - unfold kK. rewrite (lits_run keyword kL HkL keyword) by apply ci_eqb_refl.
    apply (star_lazy_label (" " ^^ L)).
    + apply lt_free_cons. now split.
    + rewrite <- Hr. f_equal. cbn [append String.length]. simpl. lia.
Qed.

Lemma replace_loop_skip p : forall u b v,
  replace_loop p (String.length u) b (u ^^ v) = replace_loop p 0 (bol_after b u) v.
Proof.
  induction u as [|c u IH]; intros b v; [now destruct v|].
  cbn [String.length append replace_loop bol_after]. apply IH.
Qed.

(** A match at the start of the text is dropped. *)
Lemma replace_loop_drop p c u v b s :
  s = String c (u ^^ v) ->
  match_here p b s = Some (S (String.length u)) ->
  replace_loop p 0 b s = replace_loop p 0 (bol_after (Js.is_line_terminator c) u) v.
Proof.
  intros -> H. cbn [replace_loop]. rewrite H. apply replace_loop_skip.
Qed.

Lemma bol_after_app u : forall b v, bol_after b (u ^^ v) = bol_after (bol_after b u) v.
Proof. induction u as [|c u IH]; intros b v; [reflexivity | apply IH]. Qed.

Lemma hyphen_free_app u : forall b v,
  hyphen_free b (u ^^ v) = hyphen_free b u && hyphen_free (bol_after b u) v.
Proof.
  induction u as [|c u IH]; intros b v; [reflexivity|].
  cbn [append hyphen_free bol_after]. now rewrite IH, andb_assoc.
Qed.

Lemma lt_free_hyphen_free x : lt_free x -> hyphen_free false x = true.
Proof.
  induction x as [|c x IH]; intros H; [reflexivity|].
  apply lt_free_cons in H as [Hc H]. cbn [hyphen_free]. rewrite Hc. now apply IH.
Qed.

Lemma lt_free_bol_after x : forall b, lt_free x -> x <> "" -> bol_after b x = false.
Proof.
  induction x as [|c x IH]; intros b H Hne; [congruence|].
  apply lt_free_cons in H as [Hc H]. cbn [bol_after]. rewrite Hc.
  destruct x as [|d x]; [reflexivity|]. now apply IH.
Qed.

Lemma matches_from_empty p b : matches_from p b "" = false.
Proof. reflexivity. Qed.

End RoundTrip.

Lemma trimEnd_blank w : all_chars Js.is_white_space w = true -> Js.trimEnd w = "".
Proof.
  induction w as [|c w IH]; simpl; [reflexivity|].
  intros H. apply andb_prop in H as [Hc H]. now rewrite IH, Hc.
Qed.

Lemma trimEnd_app_blank s w :
  all_chars Js.is_white_space w = true -> Js.trimEnd (s ^^ w) = Js.trimEnd s.
Proof.
  intros H. induction s as [|c s IH]; simpl; [now apply trimEnd_blank|].
  now rewrite IH.
Qed.

Lemma trim_fixed_head t T0 :
  Js.trim (String t T0) = String t T0 -> Js.is_white_space t = false.
Proof.
  intros H. destruct (Js.is_white_space t) eqn:E; [|reflexivity].
  unfold Js.trim in H. cbn [Js.trimStart] in H. rewrite E in H.
  apply (f_equal String.length) in H.
  pose proof (trimEnd_length (Js.trimStart T0)).
  pose proof (trimStart_length T0). simpl in H. lia.
Qed.

Lemma trim_fixed_trimEnd T : Js.trim T = T -> Js.trimEnd T = T.
Proof.
  intros H. rewrite <- H at 1. unfold Js.trim. rewrite trimEnd_idempotent. exact H.
Qed.

Lemma white_space_line_terminator c :
  Js.is_white_space c = false -> Js.is_line_terminator c = false.
Proof.
  destruct c as [[] [] [] [] [] [] [] []]; vm_compute; intros H;
    solve [reflexivity | discriminate].
Qed.

Lemma white_space_no_hyphen c : Js.is_white_space c = true -> is_hyphen c = false.
Proof.
  destruct c as [[] [] [] [] [] [] [] []]; vm_compute; intros H;
    solve [reflexivity | discriminate].
Qed.

(** A trimmed text between two line feeds is trimmed back to itself. *)
Lemma trim_wrapped T : Js.trim T = T -> Js.trim (LF ^^ T ^^ LF) = T.
Proof.
  intros H. destruct T as [|t T0]; [reflexivity|].
  pose proof (trim_fixed_head t T0 H) as Ht.
  unfold Js.trim, LF. cbn [append Js.trimStart].
  change (Js.is_white_space "010") with true. cbv iota. rewrite Ht.
  rewrite string_cons_app, trimEnd_app_blank by reflexivity.
  now apply trim_fixed_trimEnd.
Qed.

Lemma hyphen_free_wrapped b T :
  hyphen_free true T = true -> hyphen_free b (LF ^^ T ^^ LF) = true.
Proof.
  intros H. unfold LF. cbn [append hyphen_free].
  change (is_hyphen "010") with false. rewrite andb_false_r. cbn [negb andb].
  change (Js.is_line_terminator "010") with true.
  rewrite hyphen_free_app, H. cbn [hyphen_free andb].
  change (is_hyphen "010") with false. now rewrite andb_false_r.
Qed.

Lemma bol_after_line_feed b u : bol_after b (u ^^ LF) = true.
Proof. now rewrite bol_after_app. Qed.

Lemma lt_free_no_match keyword x :
  lt_free x -> Regex.matches_from (tagPattern keyword) false x = false.
Proof.
  intros H. rewrite <- (append_empty_r x).
  rewrite hyphen_free_matches by now apply lt_free_hyphen_free.
  reflexivity.
Qed.

(** Behind the opening tag line the first pattern finds nothing more. *)
Lemma sourceTag_rest b u U :
  lt_free U -> hyphen_free b u = true ->
  Regex.matches_from (tagPattern "SOURCE:") b (u ^^ "--- END " ^^ U ^^ " ---") = false.
Proof.
  intros HU Hu. rewrite hyphen_free_matches by exact Hu.
  change ("--- END " ^^ U ^^ " ---") with (String "-" ("-- END " ^^ U ^^ " ---")).
  cbn [Regex.matches_from].
  assert (Hm : Regex.match_here (tagPattern "SOURCE:") (bol_after b u)
                 (String "-" ("-- END " ^^ U ^^ " ---")) = None)
    by now destruct (bol_after b u).
  rewrite Hm.
  apply lt_free_no_match. apply lt_free_app. split; [reflexivity|].
  apply lt_free_app. split; [exact HU | reflexivity].
Qed.

Lemma closing_blanks_end b n : closing_blanks b n "" = Some n.
Proof. reflexivity. Qed.

Lemma closing_blanks_line b n t rest :
  Js.is_white_space t = false ->
  closing_blanks b n (LF ^^ String t rest) = Some n.
Proof.
  intros Ht. unfold closing_blanks, LF. cbn [append Regex.star_greedy Regex.char_matches].
  change (Js.is_white_space "010") with true. cbv iota.
  rewrite Ht. unfold at_line_end, Regex.at_eol.
  now rewrite (white_space_line_terminator t Ht).
Qed.

Lemma closing_blanks_blank_line b n rest :
  closing_blanks b n (LF ^^ LF ^^ String "-" rest) = Some (S n).
Proof. reflexivity. Qed.

(** The first replacement removes the opening tag line. *)
Lemma sourceTag_unwraps U t T0 :
  lt_free U -> Js.is_white_space t = false -> hyphen_free true (String t T0) = true ->
  Regex.replaceAll (tagPattern "SOURCE:")
    ("--- SOURCE: " ^^ U ^^ " ---" ^^ LF ^^ String t T0 ^^ LF ^^ "--- END " ^^ U ^^ " ---")
  = (LF ^^ String t T0 ^^ LF) ^^ "--- END " ^^ U ^^ " ---".
Proof.
  intros HU Ht HT. unfold Regex.replaceAll.
  set (T := String t T0) in *.
  set (E1 := "--- END " ^^ U ^^ " ---").
  rewrite (replace_loop_drop (tagPattern "SOURCE:") "-" ("-- SOURCE: " ^^ U ^^ " ---")
             (LF ^^ T ^^ LF ^^ E1) true).
  - rewrite lt_free_bol_after.
    + replace (LF ^^ T ^^ LF ^^ E1) with ((LF ^^ T ^^ LF) ^^ E1)
        by now rewrite !append_assoc.
      apply replace_loop_no_match.
      apply sourceTag_rest; [exact HU | now apply hyphen_free_wrapped].
    + apply lt_free_app. split; [reflexivity|].
      apply lt_free_app. split; [exact HU | reflexivity].
    + discriminate.
  - now rewrite !append_assoc.
  - apply (tagPattern_exact "SOURCE:" U (LF ^^ T ^^ LF ^^ E1)); [reflexivity | exact HU |].
    apply closing_hyphens_final; [reflexivity|].
    replace (S (String.length ("-- SOURCE: " ^^ U ^^ " ---")))
      with (6 + String.length "SOURCE:" + String.length U + 3)
      by (rewrite !length_append; simpl; lia).
    exact (closing_blanks_line false _ t (T0 ^^ LF ^^ E1) Ht).
Qed.

(** The first replacement on an empty message: the opening tag line goes
    with the line feed behind it. *)
Lemma sourceTag_unwraps_empty U :
  lt_free U ->
  Regex.replaceAll (tagPattern "SOURCE:")
    ("--- SOURCE: " ^^ U ^^ " ---" ^^ LF ^^ "" ^^ LF ^^ "--- END " ^^ U ^^ " ---")
  = LF ^^ "--- END " ^^ U ^^ " ---".
Proof.
  intros HU. unfold Regex.replaceAll.
  set (E1 := "--- END " ^^ U ^^ " ---").
  rewrite (replace_loop_drop (tagPattern "SOURCE:") "-"
             (("-- SOURCE: " ^^ U ^^ " ---") ^^ LF) (LF ^^ E1) true).
  - rewrite bol_after_line_feed.
    apply replace_loop_no_match.
    apply sourceTag_rest; [exact HU | reflexivity].
  - now rewrite !append_assoc.
  - apply (tagPattern_exact "SOURCE:" U (LF ^^ "" ^^ LF ^^ E1)); [reflexivity | exact HU |].
    apply closing_hyphens_final; [reflexivity|].
    replace (S (String.length (("-- SOURCE: " ^^ U ^^ " ---") ^^ LF)))
      with (S (6 + String.length "SOURCE:" + String.length U + 3))
      by (rewrite !length_append; simpl; lia).
    apply closing_blanks_blank_line.
Qed.

(** The second replacement removes the closing tag line. *)
Lemma endTag_unwraps u U :
  lt_free U -> hyphen_free true u = true -> bol_after true u = true ->
  Regex.replaceAll (tagPattern "END") (u ^^ "--- END " ^^ U ^^ " ---") = u.
Proof.
  intros HU Hu Hb. unfold Regex.replaceAll.
  rewrite hyphen_free_replace by exact Hu. rewrite Hb.
  rewrite (replace_loop_drop (tagPattern "END") "-" ("-- END " ^^ U ^^ " ---") "" true).
  - rewrite replace_loop_empty. apply append_empty_r.
  - now rewrite append_empty_r.
  - apply (tagPattern_exact "END" U ""); [reflexivity | exact HU |].
    apply closing_hyphens_final; [exact I|].
    rewrite closing_blanks_end. f_equal. rewrite !length_append. simpl. lia.
Qed.

(** What [mapHistory] wraps around a trimmed text, [cleanResponse] takes
    off again. *)
Lemma cleanResponse_block U T :
  lt_free U -> Js.trim T = T -> hyphen_free true T = true ->
  cleanResponse ("--- SOURCE: " ^^ U ^^ " ---" ^^ LF ^^ T ^^ LF ^^ "--- END " ^^ U ^^ " ---")
  = T.
Proof.
  intros HU Htrim HT.
  change ("--- SOURCE: " ^^ U ^^ " ---" ^^ LF ^^ T ^^ LF ^^ "--- END " ^^ U ^^ " ---")
    with (String "-" ("-- SOURCE: " ^^ U ^^ " ---" ^^ LF ^^ T ^^ LF
                      ^^ "--- END " ^^ U ^^ " ---")).
  rewrite cleanResponse_nonempty_input, sourceTag_shape, endTag_shape.
  change (String "-" ("-- SOURCE: " ^^ U ^^ " ---" ^^ LF ^^ T ^^ LF
                      ^^ "--- END " ^^ U ^^ " ---"))
    with ("--- SOURCE: " ^^ U ^^ " ---" ^^ LF ^^ T ^^ LF ^^ "--- END " ^^ U ^^ " ---").
  destruct T as [|t T0].
  - rewrite sourceTag_unwraps_empty by exact HU.
    now rewrite endTag_unwraps.
  - pose proof (trim_fixed_head t T0 Htrim) as Ht.
    rewrite sourceTag_unwraps by assumption.
    rewrite endTag_unwraps.
    + now apply trim_wrapped.
    + exact HU.
    + now apply hyphen_free_wrapped.
    + change (LF ^^ String t T0 ^^ LF) with ((LF ^^ String t T0) ^^ LF).
      apply bol_after_line_feed.
Qed.

Lemma upper_char_lt_free c :
  Js.is_line_terminator c = false -> lt_free (Js.upper_char c).
Proof.
  destruct c as [[] [] [] [] [] [] [] []]; vm_compute; intros H;
    solve [reflexivity | discriminate].
Qed.

Lemma toUpperCase_lt_free s : lt_free s -> lt_free (Js.toUpperCase s).
Proof.
  induction s as [|c s IH]; intros H; [reflexivity|].
  apply lt_free_cons in H as [Hc H]. cbn [Js.toUpperCase].
  apply lt_free_app. split; [now apply upper_char_lt_free | now apply IH].
Qed.

(** X11.  Round trip of the protocol tags: for a message whose author label
    holds no line break and whose trimmed text has no line that starts with
    a hyphen, [cleanResponse] turns the block [mapHistory] writes for the
    message back into the trimmed text of the message. *)
Theorem cleanResponse_unwraps_mapMessage (provider : ModelProvider) (msg : Message.t) :
  lt_free (authorLabel msg) ->
  no_hyphen_line (Js.trim (Message.text msg)) ->
  cleanResponse (content (mapMessage provider msg)) = Js.trim (Message.text msg).
Proof.
  intros Hlabel Htext.
  change (content (mapMessage provider msg))
    with ("--- SOURCE: " ^^ Js.toUpperCase (authorLabel msg) ^^ " ---" ^^ LF
          ^^ Js.trim (Message.text msg) ^^ LF
          ^^ "--- END " ^^ Js.toUpperCase (authorLabel msg) ^^ " ---").
  apply cleanResponse_block.
  - now apply toUpperCase_lt_free.
  - apply trim_idempotent.
  - now apply no_hyphen_line_free.
Qed.

(** X11, for a two-line message by "Bot" with blanks around it. *)
Lemma cleanResponse_unwraps_mapMessage_witness :
  content (mapMessage openai padded_message)
  = "--- SOURCE: BOT ---" ^^ LF ^^ "two" ^^ LF ^^ "lines" ^^ LF ^^ "--- END BOT ---"
  /\ cleanResponse (content (mapMessage openai padded_message))
     = "two" ^^ LF ^^ "lines".
Proof.
  split; [reflexivity|].
  rewrite (cleanResponse_unwraps_mapMessage openai padded_message); [reflexivity | |].
  - reflexivity.
  - unfold no_hyphen_line. repeat constructor.
Defined.

Ltac one_message :=
  cbv [bind Date_now ret fst];
  match goal with
  | |- context [Returns [setChats (replace_messages _ (_ ++ [?M]) _ _)]] => exists M
  end;
  eexists; split; [reflexivity|].

(** X12.  For a chat of the list (not the open draft) whose responder can
    be resolved, [triggerAIResponseForChat] settles without throwing and
    asks for exactly one update: the messages of the chat become the given
    messages followed by one new message.  That message is either an error
    banner, or a message of the responder, sent as 'ai' under the
    responder's id and name. *)
Theorem triggerAIResponseForChat_appends_one (cs : list Chat.t)
    (draft : option Chat.t) (settings : AppSettings.t) (chatId : string)
    (currentMessages : list Message.t) (specificAuthorId : option string)
    (base target : Chat.t) (w : World) (st : State) :
  isDraft draft chatId = false ->
  chatBase cs draft chatId = Some base ->
  targetAssistant cs base specificAuthorId = Some target ->
  exists newMsg ts,
    fst (triggerAIResponseForChat cs draft settings chatId currentMessages
           specificAuthorId w st)
    = Returns [setChats (replace_messages chatId (currentMessages ++ [newMsg])
                           (Message.text newMsg) ts)]
    /\ (is_error_banner newMsg = true
        \/ (Message.sender newMsg = Sender.ai
            /\ Message.authorId newMsg = Some (Chat.id target)
            /\ Message.authorName newMsg = Some (Chat.name target)
            /\ Message.isError newMsg = None)).
Proof.
  intros Hdraft Hbase Htarget. unfold triggerAIResponseForChat.
  rewrite Hbase, Htarget, Hdraft.
  destruct (negb (ModelProvider_eqb (Chat.provider target) gemini)
            && negb (Js.truthy (apiKey_for settings (Chat.provider target)))).
  - one_message.
    left. reflexivity.
  - unfold try_catch, bind at 1.
    destruct (getAIResponse _ _ _ _ _ _ _ _ _) as [[aiResponseText | e] st1].
    + one_message.
      right. repeat split.
    + one_message.
      left. reflexivity.
Qed.

(** X12, for the chat B of the list, with a key and a back end that answers
    at once: the reply "Hello" is appended as a message of B. *)
Lemma triggerAIResponseForChat_appends_one_witness :
  exists newMsg ts,
    fst (triggerAIResponseForChat [persona_B] None (settings_with "sk-test" "") "b"
           [message Sender.user None "hi"] None ready initial)
    = Returns [setChats (replace_messages "b" ([message Sender.user None "hi"] ++ [newMsg])
                           (Message.text newMsg) ts)]
    /\ (is_error_banner newMsg = true
        \/ (Message.sender newMsg = Sender.ai
            /\ Message.authorId newMsg = Some (Chat.id persona_B)
            /\ Message.authorName newMsg = Some (Chat.name persona_B)
            /\ Message.isError newMsg = None)).
Proof.
  apply (triggerAIResponseForChat_appends_one [persona_B] None
           (settings_with "sk-test" "") "b" [message Sender.user None "hi"] None
           persona_B persona_B ready initial); reflexivity.
Defined.

(** The responder [triggerAIResponseForChat] resolves when it is handed
    the id of the open draft: none, as the draft is not in the list. *)
Lemma triggerAIResponseForChat_draft_itself (cs : list Chat.t) (d : Chat.t)
    (settings : AppSettings.t) (msgs : list Message.t) (w : World) (st : State) :
  find (fun c => (Chat.id c =? Chat.id d)%string) cs = None ->
  Js.truthy (Chat.id d) = true -> Chat.id d <> "user" ->
  triggerAIResponseForChat cs (Some d) settings (Chat.id d) msgs (Some (Chat.id d)) w st
  = (Returns [], st).
Proof.
  intros Hfind Htruthy Huser. unfold triggerAIResponseForChat, chatBase, isDraft.
  rewrite String.eqb_refl. unfold targetAssistant. rewrite Htruthy.
  apply String.eqb_neq in Huser. rewrite Huser. cbn [negb andb].
  now rewrite Hfind.
Qed.

Ltac run_handleSend :=
  cbv [bind Date_now ret fst snd]; eexists; split; [reflexivity|];
  intros msgs sid Hin; cbn [app In] in Hin;
  repeat (destruct Hin as [Hin | Hin]; [try discriminate Hin|]);
  try contradiction.

(** X13.  A message the user writes as themselves, without picking a
    responder, is handed on: [handleSend] clears the input, stores the
    messages of the chat followed by the new user message, and calls
    [triggerAIResponse] with those messages and the id of the chat itself,
    between the two settings of the typing flag.  For a chat of the list
    [triggerAIResponseForChat] resolves that id to the chat itself: the
    participants of a group are not consulted.  Whoever the user writes as,
    no hand-off carries another id. *)
Theorem handleSend_default_responder (chat : Chat.t) (cs : list Chat.t)
    (inputText senderPersonaId : string) (w : World) (st : State) :
  find (fun c => (Chat.id c =? Chat.id chat)%string) cs = Some chat ->
  Js.truthy (Chat.id chat) = true -> Chat.id chat <> "user" ->
  exists effects,
    fst (handleSend chat (responders chat cs) (currentSender cs senderPersonaId)
           inputText "user" senderPersonaId w st) = Returns effects
    /\ (forall msgs sid, In (triggerAIResponse msgs sid) effects ->
          sid = Some (Chat.id chat) /\ targetAssistant cs chat sid = Some chat)
    /\ (Js.truthy (Js.trim inputText) = true -> senderPersonaId = "user" ->
        exists senderMsg,
          effects = [ setInputText "";
                      updateMessages (Chat.messages chat ++ [senderMsg]);
                      setIsTyping true;
                      triggerAIResponse (Chat.messages chat ++ [senderMsg])
                        (Some (Chat.id chat));
                      setIsTyping false ]
          /\ Message.sender senderMsg = Sender.user
          /\ Message.text senderMsg = Js.trim inputText
          /\ Message.authorId senderMsg = None
          /\ Message.isError senderMsg = None)
    /\ targetAssistant cs chat (Some (Chat.id chat)) = Some chat.
Proof.
  intros Hfind Htruthy Huser.
  assert (Htarget : targetAssistant cs chat (Some (Chat.id chat)) = Some chat).
  { unfold targetAssistant. rewrite Htruthy.
    apply String.eqb_neq in Huser. rewrite Huser. exact Hfind. }
  unfold handleSend. rewrite String.eqb_refl.
  destruct (Js.truthy (Js.trim inputText)); cbn [negb andb].
  - destruct (senderPersonaId =? "user")%string eqn:Epersona;
      cbv [bind Date_now ret fst snd]; eexists; (split; [reflexivity|]);
      (split; [|split; [|exact Htarget]]).
    + intros msgs sid Hin. cbn [app In] in Hin.
      repeat (destruct Hin as [Hin | Hin]; [try discriminate Hin|]);
        try contradiction.
      injection Hin as <- <-. now split.
    + intros _ _. eexists. cbn [app negb]. repeat split.
    + intros msgs sid Hin. cbn [app In] in Hin.
      repeat (destruct Hin as [Hin | Hin]; [try discriminate Hin|]);
        contradiction.
    + intros _ Hme. apply String.eqb_neq in Epersona. contradiction.
  - exists []. split; [reflexivity|].
    split; [intros ? ? [] | split; [discriminate | exact Htarget]].
Qed.

(** X13, for the arena of the personas B and C: the message "hi" is handed
    on with the id of the arena, which resolves to the arena. *)
Lemma handleSend_default_responder_witness :
  exists effects,
    fst (handleSend (arena persona_B) (responders (arena persona_B) (arena_chats persona_B))
           (currentSender (arena_chats persona_B) "user") "hi" "user" "user"
           ready initial) = Returns effects
    /\ In (triggerAIResponse
             (Chat.messages (arena persona_B)
              ++ [ {| Message.id := "msg-0"; Message.text := "hi";
                      Message.sender := Sender.user; Message.authorId := None;
                      Message.authorName := None; Message.timestamp := 1%Z;
                      Message.isError := None |} ])
             (Some "a")) effects
    /\ targetAssistant (arena_chats persona_B) (arena persona_B) (Some "a")
       = Some (arena persona_B).
Proof.
  destruct (handleSend_default_responder (arena persona_B) (arena_chats persona_B)
              "hi" "user" ready initial eq_refl eq_refl ltac:(discriminate))
    as (effects & Hrun & Hall & Hsent & Htarget).
  exists effects. split; [exact Hrun|]. split; [|exact Htarget].
  destruct (Hsent eq_refl eq_refl) as (senderMsg & -> & _).
  injection Hrun as Hmsg. rewrite <- Hmsg.
  right. right. right. left. reflexivity.
Defined.

(** X14.  In the open draft of a thread, a message sent without picking a
    responder, or with the draft itself picked, is never answered: the id
    handed on is the id of the draft, which is not in the list of chats, and
    [triggerAIResponseForChat] settles without any update or event. *)
Theorem handleSend_draft_unanswered (d : Chat.t) (cs : list Chat.t)
    (settings : AppSettings.t) (inputText selectedAuthorId senderPersonaId : string)
    (w : World) (st : State) :
  find (fun c => (Chat.id c =? Chat.id d)%string) cs = None ->
  Js.truthy (Chat.id d) = true -> Chat.id d <> "user" ->
  selectedAuthorId = "user" \/ selectedAuthorId = Chat.id d ->
  exists effects,
    fst (handleSend d (responders d cs) (currentSender cs senderPersonaId)
           inputText selectedAuthorId senderPersonaId w st) = Returns effects
    /\ forall msgs sid, In (triggerAIResponse msgs sid) effects ->
         forall w' st',
           triggerAIResponseForChat cs (Some d) settings (Chat.id d) msgs sid w' st'
           = (Returns [], st').
Proof.
  intros Hfind Htruthy Huser Hsel.
  pose proof (fun msgs w' st' =>
                triggerAIResponseForChat_draft_itself cs d settings msgs w' st'
                  Hfind Htruthy Huser) as Hnone.
  unfold handleSend.
  destruct Hsel as [-> | ->].
  - rewrite String.eqb_refl.
    destruct (Js.truthy (Js.trim inputText)); cbn [negb andb].
    + destruct (senderPersonaId =? "user")%string; run_handleSend.
      injection Hin as <- <-. intros w' st'. apply Hnone.
    + exists []. split; [reflexivity | intros ? ? []].
  - apply String.eqb_neq in Huser. rewrite Huser, andb_false_r.
    destruct (Js.truthy (Js.trim inputText));
      destruct (senderPersonaId =? "user")%string; run_handleSend;
      injection Hin as <- <-; intros w' st'; apply Hnone.
Qed.

(** X14, for the draft of a thread of B, with a key for B's provider and a
    back end that answers at once. *)
Lemma handleSend_draft_unanswered_witness :
  exists effects,
    fst (handleSend draft_branch (responders draft_branch [persona_B])
           (currentSender [persona_B] "user") "hi" "user" "user" ready initial)
    = Returns effects
    /\ forall msgs sid, In (triggerAIResponse msgs sid) effects ->
         forall w' st',
           triggerAIResponseForChat [persona_B] (Some draft_branch)
             (settings_with "sk-test" "") (Chat.id draft_branch) msgs sid w' st'
           = (Returns [], st').
Proof.
  apply handleSend_draft_unanswered;
    [reflexivity | reflexivity | discriminate | now left].
Defined.

Section Maps.

Context {V : Type}.

Lemma JsMap_set_keys k (v : V) m :
  map fst (JsMap.set k v m)
  = if existsb (String.eqb k) (map fst m) then map fst m else map fst m ++ [k].
Proof.
  induction m as [|[k' v'] m IH]; [reflexivity|].
  cbn [JsMap.set map fst existsb]. rewrite (String.eqb_sym k k').
  destruct (k' =? k)%string eqn:E; cbn [orb map fst].
  - apply String.eqb_eq in E. now subst.
  - rewrite IH. now destruct (existsb (String.eqb k) (map fst m)).
Qed.

Lemma existsb_eqb_In k (l : list string) : existsb (String.eqb k) l = true <-> In k l.
Proof.
  rewrite existsb_exists. split.
  - intros (x & Hin & Hx). apply String.eqb_eq in Hx. now subst.
  - intros H. exists k. split; [exact H | apply String.eqb_refl].
Qed.

Lemma JsMap_set_NoDup k (v : V) m :
  NoDup (map fst m) -> NoDup (map fst (JsMap.set k v m)).
Proof.
  intros H. rewrite JsMap_set_keys.
  destruct (existsb (String.eqb k) (map fst m)) eqn:E; [exact H|].
  apply NoDup_app; [exact H | repeat constructor; intros [] |].
  intros x Hx [<- | []]. apply existsb_eqb_In in Hx. congruence.
Qed.

Lemma JsMap_set_keeps_key k (v : V) m x :
  In x (map fst m) -> In x (map fst (JsMap.set k v m)).
Proof.
  intros H. rewrite JsMap_set_keys.
  destruct (existsb (String.eqb k) (map fst m)); [exact H|].
  apply in_or_app. now left.
Qed.

Lemma JsMap_set_has_key k (v : V) m : In k (map fst (JsMap.set k v m)).
Proof.
  rewrite JsMap_set_keys.
  destruct (existsb (String.eqb k) (map fst m)) eqn:E.
  - now apply existsb_eqb_In.
  - apply in_or_app. right. now left.
Qed.

Lemma JsMap_set_Forall (P : string * V -> Prop) k v m :
  Forall P m -> P (k, v) -> Forall P (JsMap.set k v m).
Proof.
  intros Hm Hv. induction Hm as [|[k' v'] m Hk Hm IH]; cbn [JsMap.set].
  - now repeat constructor.
  - destruct (k' =? k)%string; constructor; assumption.
Qed.

Lemma JsMap_get_In k m (v : V) : JsMap.get k m = Some v -> In (k, v) m.
Proof.
  induction m as [|[k' v'] m IH]; cbn [JsMap.get]; [discriminate|].
  destruct (k' =? k)%string eqn:E.
  - intros [= <-]. apply String.eqb_eq in E. subst. now left.
  - intros H. right. now apply IH.
Qed.

Lemma JsMap_set_fresh k (v : V) m :
  ~ In k (map fst m) -> JsMap.set k v m = m ++ [(k, v)].
Proof.
  induction m as [|[k' v'] m IH]; intros H; [reflexivity|].
  cbn [JsMap.set]. cbn [map fst In] in H.
  destruct (k' =? k)%string eqn:E.
  - apply String.eqb_eq in E. tauto.
  - cbn [app]. rewrite IH; [reflexivity | tauto].
Qed.

Lemma JsMap_of_entries_distinct (entries : list (string * V)) : forall acc,
  NoDup (map fst (acc ++ entries)) ->
  fold_left (fun m e => JsMap.set (fst e) (snd e) m) entries acc = acc ++ entries.
Proof.
  induction entries as [|[k v] entries IH]; intros acc H; cbn [fold_left fst snd].
  - now rewrite app_nil_r.
  - rewrite JsMap_set_fresh.
    + rewrite IH; rewrite <- app_assoc; [reflexivity | exact H].
    + rewrite map_app in H. apply NoDup_remove_2 in H.
      intros Hin. apply H. apply in_or_app. now left.
Qed.

End Maps.

Lemma fold_set_keys_NoDup {V : Type} (entries : list (string * V)) : forall acc,
  NoDup (map fst acc) ->
  NoDup (map fst (fold_left (fun m e => JsMap.set (fst e) (snd e) m) entries acc)).
Proof.
  induction entries as [|e entries IH]; intros acc H; [exact H|].
  cbn [fold_left]. apply IH. now apply JsMap_set_NoDup.
Qed.

Lemma keyed_ids m : keyed_by_id m -> map Chat.id (JsMap.values m) = map fst m.
Proof.
  unfold keyed_by_id, JsMap.values. induction 1 as [|e m He _ IH]; [reflexivity|].
  cbn [map]. now rewrite He, IH.
Qed.

Lemma of_entries_keyed (l : list Chat.t) : forall acc,
  keyed_by_id acc ->
  keyed_by_id (fold_left (fun m e => JsMap.set (fst e) (snd e) m)
                 (map (fun c => (Chat.id c, c)) l) acc).
Proof.
  induction l as [|c l IH]; intros acc H; [exact H|].
  cbn [map fold_left fst snd]. apply IH. now apply JsMap_set_Forall.
Qed.

Lemma import_step_keyed m nc : keyed_by_id m -> keyed_by_id (import_step m nc).
Proof.
  intros H. unfold import_step.
  destruct (JsMap.get (Chat.id nc) m) as [existing|] eqn:E.
  - apply JsMap_set_Forall; [exact H|].
    apply JsMap_get_In in E. unfold keyed_by_id in H.
    rewrite Forall_forall in H. exact (H _ E).
  - now apply JsMap_set_Forall.
Qed.

Lemma import_step_NoDup m nc :
  NoDup (map fst m) -> NoDup (map fst (import_step m nc)).
Proof.
  intros H. unfold import_step.
  destruct (JsMap.get (Chat.id nc) m); now apply JsMap_set_NoDup.
Qed.

Lemma import_step_keeps_key m nc x :
  In x (map fst m) -> In x (map fst (import_step m nc)).
Proof.
  intros H. unfold import_step.
  destruct (JsMap.get (Chat.id nc) m); now apply JsMap_set_keeps_key.
Qed.

Lemma import_step_has_key m nc : In (Chat.id nc) (map fst (import_step m nc)).
Proof.
  unfold import_step. destruct (JsMap.get (Chat.id nc) m); apply JsMap_set_has_key.
Qed.

Lemma fold_import_invariant newChats : forall m,
  keyed_by_id m -> NoDup (map fst m) ->
  keyed_by_id (fold_left import_step newChats m)
  /\ NoDup (map fst (fold_left import_step newChats m))
  /\ (forall x, In x (map fst m) -> In x (map fst (fold_left import_step newChats m)))
  /\ (forall c, In c newChats ->
        In (Chat.id c) (map fst (fold_left import_step newChats m))).
Proof.
  induction newChats as [|nc newChats IH]; intros m Hk Hn; cbn [fold_left].
  - repeat split; auto. intros c [].
  - destruct (IH (import_step m nc) (import_step_keyed m nc Hk)
                (import_step_NoDup m nc Hn)) as (H1 & H2 & H3 & H4).
    repeat split; auto.
    + intros x Hx. apply H3. now apply import_step_keeps_key.
    + intros c [<- | Hc]; [apply H3, import_step_has_key | now apply H4].
Qed.

Lemma of_entries_keeps_keys (l : list Chat.t) : forall acc x,
  In x (map fst acc) \/ In x (map Chat.id l) ->
  In x (map fst (fold_left (fun m e => JsMap.set (fst e) (snd e) m)
                   (map (fun c => (Chat.id c, c)) l) acc)).
Proof.
  induction l as [|c l IH]; intros acc x H; cbn [map fold_left fst snd].
  - destruct H as [H | []]. exact H.
  - apply IH. destruct H as [H | [<- | H]].
    + left. now apply JsMap_set_keeps_key.
    + left. apply JsMap_set_has_key.
    + now right.
Qed.

(** X15.  Whatever the two lists hold, the list [handleImportMany] makes
    has no two chats with the same id, and holds a chat for every id of the
    old list and of the imported chats. *)
Theorem handleImportMany_distinct_ids (newChats prev : list Chat.t) :
  NoDup (map Chat.id (handleImportMany newChats prev))
  /\ (forall c, In c prev \/ In c newChats ->
        In (Chat.id c) (map Chat.id (handleImportMany newChats prev))).
Proof.
  unfold handleImportMany, JsMap.of_entries. cbv zeta.
  set (m0 := fold_left (fun m e => JsMap.set (fst e) (snd e) m)
               (map (fun c => (Chat.id c, c)) prev) []).
  assert (Hk0 : keyed_by_id m0) by (apply of_entries_keyed; constructor).
  assert (Hn0 : NoDup (map fst m0)) by (apply fold_set_keys_NoDup; constructor).
  destruct (fold_import_invariant newChats m0 Hk0 Hn0) as (Hk & Hn & Hold & Hnew).
  rewrite (keyed_ids _ Hk). split; [exact Hn|].
  intros c [Hc | Hc]; [|now apply Hnew].
  apply Hold. apply of_entries_keeps_keys. right. now apply in_map.
Qed.

Lemma same_conversation_refl c : same_conversation c c.
Proof. now repeat split. Qed.

Lemma same_conversation_merged old existing nc :
  same_conversation old existing -> same_conversation old (merge_imported existing nc).
Proof. intros H. exact H. Qed.

(** Setting a key keeps the entries that stand for the old chats in their
    places, as long as the new value still stands for the chat it replaces. *)
Lemma JsMap_set_prefix k v : forall prev merged,
  Forall2 stands_for prev merged -> forall added,
  (forall existing, JsMap.get k (merged ++ added) = Some existing ->
     forall old, same_conversation old existing -> same_conversation old v) ->
  exists merged' added',
    JsMap.set k v (merged ++ added) = merged' ++ added'
    /\ Forall2 stands_for prev merged'.
Proof.
  induction 1 as [|old [k0 v0] prev merged [Hkey Hsame] Hrest IH]; intros added Hv.
  - exists [], (JsMap.set k v added). split; [reflexivity | constructor].
  - cbn [app JsMap.set JsMap.get fst snd] in *.
    destruct (k0 =? k)%string eqn:E.
    + exists ((k, v) :: merged), added. split; [reflexivity|].
      constructor; [|exact Hrest]. split; cbn [fst snd].
      * apply String.eqb_eq in E. congruence.
      * now apply (Hv v0).
    + destruct (IH added Hv) as (merged' & added' & Hset & Hrel).
      exists ((k0, v0) :: merged'), added'. rewrite Hset. split; [reflexivity|].
      constructor; [now split | exact Hrel].
Qed.

Lemma import_step_prefix prev merged added nc :
  Forall2 stands_for prev merged ->
  exists merged' added',
    import_step (merged ++ added) nc = merged' ++ added'
    /\ Forall2 stands_for prev merged'.
Proof.
  intros H. unfold import_step.
  destruct (JsMap.get (Chat.id nc) (merged ++ added)) as [existing|] eqn:E.
  - apply JsMap_set_prefix; [exact H|].
    intros existing' Hget old Hold. rewrite E in Hget. injection Hget as <-.
    now apply same_conversation_merged.
  - apply JsMap_set_prefix; [exact H|].
    intros existing' Hget. rewrite E in Hget. discriminate.
Qed.

Lemma fold_import_prefix prev newChats : forall merged added,
  Forall2 stands_for prev merged ->
  exists merged' added',
    fold_left import_step newChats (merged ++ added) = merged' ++ added'
    /\ Forall2 stands_for prev merged'.
Proof.
  induction newChats as [|nc newChats IH]; intros merged added H; cbn [fold_left].
  - now exists merged, added.
  - destruct (import_step_prefix prev merged added nc H) as (m1 & a1 & -> & H1).
    now apply IH.
Qed.

Lemma entries_stand_for prev :
  Forall2 stands_for prev (map (fun c => (Chat.id c, c)) prev).
Proof.
  induction prev as [|c prev IH]; constructor; [|exact IH].
  split; [reflexivity | apply same_conversation_refl].
Qed.

Lemma of_entries_distinct (l : list Chat.t) :
  NoDup (map Chat.id l) ->
  JsMap.of_entries (map (fun c => (Chat.id c, c)) l) = map (fun c => (Chat.id c, c)) l.
Proof.
  intros H. unfold JsMap.of_entries.
  rewrite JsMap_of_entries_distinct; [reflexivity|].
  cbn [app]. now rewrite map_map.
Qed.

(** X16.  When the chats of the list have distinct ids, [handleImportMany]
    leaves each of them in its place, with its id, messages, provider,
    model, pin and parent as they were; what the import adds comes behind
    them. *)
Theorem handleImportMany_keeps_conversations (newChats prev : list Chat.t) :
  NoDup (map Chat.id prev) ->
  exists merged added,
    handleImportMany newChats prev = merged ++ added
    /\ Forall2 same_conversation prev merged.
Proof.
  intros Hdistinct. unfold handleImportMany. cbv zeta.
  rewrite (of_entries_distinct prev Hdistinct).
  destruct (fold_import_prefix prev newChats (map (fun c => (Chat.id c, c)) prev) []
              (entries_stand_for prev)) as (merged & added & Hfold & Hrel).
  rewrite app_nil_r in Hfold. rewrite Hfold.
  exists (map snd merged), (map snd added). unfold JsMap.values.
  split; [apply map_app|].
  clear Hfold. induction Hrel as [|old e prev' merged' [_ He] _ IH]; cbn [map].
  - constructor.
  - constructor; [exact He|]. apply IH. now inversion Hdistinct.
Qed.

(** X16, for a list that holds B and an import that brings B again, under
    another name and with a tag, and C: B keeps its place and name and gains
    the tag, C is added behind it. *)
Lemma handleImportMany_keeps_conversations_witness :
  handleImportMany [scanned_B; persona_C] [persona_B]
  = [with_tags persona_B ["#synced"] false; persona_C]
  /\ exists merged added,
       handleImportMany [scanned_B; persona_C] [persona_B] = merged ++ added
       /\ Forall2 same_conversation [persona_B] merged.
Proof.
  split; [reflexivity|].
  apply handleImportMany_keeps_conversations. repeat constructor. intros [].
Defined.

(** X17.  The list the application stores and starts from has no two chats
    with the same id, and is the list itself when the ids were distinct. *)
Theorem uniqueChats_distinct_ids (l : list Chat.t) :
  NoDup (map Chat.id (uniqueChats l))
  /\ (NoDup (map Chat.id l) -> uniqueChats l = l).
Proof.
  unfold uniqueChats. split.
  - unfold JsMap.of_entries. rewrite keyed_ids.
    + apply fold_set_keys_NoDup. constructor.
    + apply of_entries_keyed. constructor.
  - intros H. rewrite (of_entries_distinct l H). unfold JsMap.values.
    rewrite map_map. apply map_id.
Qed.

(** X17, for the list of the two personas, whose ids differ. *)
Lemma uniqueChats_distinct_ids_witness :
  uniqueChats [persona_B; persona_C] = [persona_B; persona_C].
Proof.
  apply (proj2 (uniqueChats_distinct_ids [persona_B; persona_C])).
  repeat constructor; [intros [H | []]; discriminate H | intros []].
Defined.

Lemma Set_values_fold l : forall seen,
  NoDup (seen ++ l) ->
  fold_left (fun seen t => if existsb (String.eqb t) seen then seen else seen ++ [t])
    l seen = seen ++ l.
Proof.
  induction l as [|t l IH]; intros seen H; cbn [fold_left].
  - now rewrite app_nil_r.
  - assert (Hfresh : existsb (String.eqb t) seen = false).
    { destruct (existsb (String.eqb t) seen) eqn:E; [|reflexivity].
      apply existsb_eqb_In in E. apply NoDup_remove_2 in H.
      exfalso. apply H. apply in_or_app. now left. }
    rewrite Hfresh, IH; rewrite <- app_assoc; [reflexivity | exact H].
Qed.

Lemma Set_values_distinct l : NoDup l -> Set_values l = l.
Proof. intros H. unfold Set_values. now rewrite Set_values_fold. Qed.

Lemma Set_values_fold_spec l : forall seen,
  NoDup seen ->
  let out := fold_left
               (fun seen t => if existsb (String.eqb t) seen then seen else seen ++ [t])
               l seen in
  NoDup out /\ forall x, In x out <-> In x seen \/ In x l.
Proof.
  induction l as [|t l IH]; intros seen H; cbn [fold_left].
  - split; [exact H | intros x; cbn [In]; tauto].
  - destruct (existsb (String.eqb t) seen) eqn:E.
    + destruct (IH seen H) as [H1 H2]. split; [exact H1|].
      intros x. rewrite H2. cbn [In]. apply existsb_eqb_In in E.
      split; [tauto | intros [Hx | [Ht | Hx]]; subst; auto].
    + assert (Hn : NoDup (seen ++ [t])).
      { apply NoDup_app; [exact H | repeat constructor; intros [] |].
        intros x Hx [<- | []]. apply existsb_eqb_In in Hx. congruence. }
      destruct (IH (seen ++ [t]) Hn) as [H1 H2]. split; [exact H1|].
      intros x. rewrite H2, in_app_iff. cbn [In]. tauto.
Qed.

Lemma Set_values_NoDup l : NoDup (Set_values l).
Proof. apply (Set_values_fold_spec l []). constructor. Qed.

Lemma Set_values_In l x : In x (Set_values l) <-> In x l.
Proof.
  destruct (Set_values_fold_spec l [] (NoDup_nil _)) as [_ Hspec].
  unfold Set_values. rewrite Hspec. cbn [In]. tauto.
Qed.

Lemma filter_not_tag tag l :
  ~ In tag l -> filter (fun t => negb (t =? tag)%string) (l ++ [tag]) = l.
Proof.
  intros H. rewrite filter_app. cbn [filter]. rewrite String.eqb_refl. cbn [negb].
  rewrite app_nil_r. induction l as [|t l IH]; [reflexivity|].
  cbn [filter]. cbn [In] in H.
  destruct (t =? tag)%string eqn:E.
  - apply String.eqb_eq in E. tauto.
  - cbn [negb]. rewrite IH; [reflexivity | tauto].
Qed.

(** X18.  Archiving a chat and taking it out of the archive again gives
    the chat back with its tags, when these were distinct and '#archived'
    was not among them, but without its pin. *)
Theorem unarchive_archive (id : string) (prev : list Chat.t) :
  Forall (fun c => Chat.id c = id ->
                   NoDup (Chat.tags c) /\ ~ In "#archived" (Chat.tags c)) prev ->
  unarchive id (archive id prev)
  = map (fun c => if (Chat.id c =? id)%string
                  then with_tags c (Chat.tags c) false else c) prev.
Proof.
  intros H. unfold unarchive, archive. rewrite map_map.
  apply map_ext_Forall. eapply Forall_impl; [|exact H].
  intros c Hc. cbv beta.
  destruct (Chat.id c =? id)%string eqn:E.
  - apply String.eqb_eq in E. destruct (Hc E) as [Hdistinct Hnot].
    cbn [with_tags Chat.id]. rewrite (proj2 (String.eqb_eq _ _) E).
    unfold with_tags at 1. cbn [Chat.tags Chat.isPinned Chat.id Chat.name Chat.avatar
      Chat.provider Chat.modelName Chat.systemPrompt Chat.temperature Chat.lastMessage
      Chat.lastTimestamp Chat.messages Chat.parentId Chat.draft Chat.isGroup
      Chat.participantIds with_tags].
    rewrite Set_values_distinct.
    + now rewrite filter_not_tag.
    + apply NoDup_app; [exact Hdistinct | repeat constructor; intros [] |].
      intros x Hx [<- | []]. contradiction.
  - now rewrite E.
Qed.

(** X18, for the pinned chat B with two tags: it comes back unpinned. *)
Lemma unarchive_archive_witness :
  unarchive "b" (archive "b" [pinned_B; persona_C])
  = [with_tags persona_B ["#work"; "#general"] false; persona_C].
Proof.
  rewrite (unarchive_archive "b" [pinned_B; persona_C]); [reflexivity|].
  apply Forall_cons; [|apply Forall_cons; [|apply Forall_nil]].
  - intros _. change (Chat.tags pinned_B) with ["#work"; "#general"]. split.
    + repeat constructor; cbn [In]; intuition discriminate.
    + cbn [In]. intuition discriminate.
  - intros H. discriminate H.
Defined.

(** X19.  After archiving, every chat with the given id carries '#archived',
    has no tag twice and is not pinned; archiving it a second time changes
    nothing. *)
Theorem archive_idempotent (id : string) (prev : list Chat.t) :
  archive id (archive id prev) = archive id prev
  /\ forall c, In c (archive id prev) -> Chat.id c = id ->
       In "#archived" (Chat.tags c) /\ NoDup (Chat.tags c) /\ Chat.isPinned c = false.
Proof.
  split.
  - unfold archive. rewrite map_map. apply map_ext. intros c.
    destruct (Chat.id c =? id)%string eqn:E; [|now rewrite E].
    cbn [with_tags Chat.id]. rewrite E. unfold with_tags. cbn.
    f_equal. set (s := Set_values (Chat.tags c ++ ["#archived"])).
    assert (Hs : NoDup s) by apply Set_values_NoDup.
    assert (Hin : In "#archived" s).
    { apply Set_values_In, in_or_app. right. now left. }
    unfold Set_values. rewrite fold_left_app.
    fold (Set_values s). rewrite (Set_values_distinct s Hs). cbn [fold_left].
    apply existsb_eqb_In in Hin. now rewrite Hin.
  - unfold archive. intros c Hc Hid. apply in_map_iff in Hc as (c0 & <- & _).
    destruct (Chat.id c0 =? id)%string eqn:E.
    + cbn. repeat split.
      * apply Set_values_In, in_or_app. right. now left.
      * apply Set_values_NoDup.
    + apply String.eqb_neq in E. contradiction.
Qed.

(* ================================================================== *)
(** * The second copy of [mapHistory] *)
(* ================================================================== *)

Lemma merge_message_roles provider acc msg :
  roles (Variant.merge_message provider acc msg)
  = match Js.last_opt (roles acc) with
    | Some r =>
        if Role.eqb r (Variant.role_of provider msg) then roles acc
        else roles acc ++ [Variant.role_of provider msg]
    | None => [Variant.role_of provider msg]
    end.
Proof.
  unfold roles, Variant.merge_message.
  destruct (snoc_cases acc) as [-> | (acc' & l & ->)]; [reflexivity|].
  rewrite last_opt_snoc, removelast_last.
  replace (Js.last_opt (map role (acc' ++ [l]))) with (Some (role l))
    by (rewrite map_app; cbn [map]; now rewrite last_opt_snoc).
  destruct (Role.eqb (role l) (Variant.role_of provider msg)); rewrite !map_app;
    reflexivity.
Qed.

Lemma merge_messages_no_repeat provider msgs : forall acc,
  no_repeat (roles acc) = true ->
  no_repeat (roles (fold_left (Variant.merge_message provider) msgs acc)) = true.
Proof.
  induction msgs as [|m l IH]; intros acc H; cbn [fold_left]; [exact H|].
  apply IH. rewrite merge_message_roles.
  destruct (Js.last_opt (roles acc)) as [r|] eqn:Hlast; [|reflexivity].
  destruct (Role.eqb r (Variant.role_of provider m)) eqn:E; [exact H|].
  now rewrite no_repeat_snoc, H, Hlast, E.
Qed.

Lemma merge_messages_role_set (P : Role.t -> bool) provider msgs :
  (forall m, P (Variant.role_of provider m) = true) -> forall acc,
  forallb P (roles acc) = true ->
  forallb P (roles (fold_left (Variant.merge_message provider) msgs acc)) = true.
Proof.
  intros HP. induction msgs as [|m l IH]; intros acc H; cbn [fold_left]; [exact H|].
  apply IH. rewrite merge_message_roles.
  destruct (Js.last_opt (roles acc)) as [r|]; [|simpl; now rewrite HP].
  destruct (Role.eqb r (Variant.role_of provider m)); [exact H|].
  rewrite forallb_app, H. simpl. now rewrite HP.
Qed.

(** The strict merge changes nothing in turns that already alternate. *)
Lemma fold_merge_fixed l : forall acc,
  no_repeat (roles (acc ++ l)) = true -> fold_left merge_step l acc = acc ++ l.
Proof.
  induction l as [|m l IH]; intros acc H; cbn [fold_left].
  - now rewrite app_nil_r.
  - assert (Hstep : merge_step acc m = acc ++ [m]).
    { destruct (snoc_cases acc) as [-> | (acc' & x & ->)]; [reflexivity|].
      rewrite merge_step_snoc.
      destruct (Role.eqb (role x) (role m)) eqn:E; [|reflexivity].
      exfalso. unfold roles in H. rewrite <- app_assoc in H. cbn [app] in H.
      rewrite map_app in H. cbn [map] in H.
      clear IH. induction (map role acc') as [|r rs IHrs].
      - cbn [app no_repeat] in H. now rewrite E in H.
      - apply IHrs. eapply no_repeat_tail. exact H. }
    rewrite Hstep, IH; rewrite <- app_assoc; [reflexivity | exact H].
Qed.

(** X20.  In the second copy of the service, the turns [mapHistory] returns
    never repeat a role, for any provider; for OpenAI and DeepSeek the roles
    are user and assistant only and the first turn, when there is one, is a
    user turn. *)
Theorem Variant_mapHistory_alternates (history : list Message.t)
    (provider : ModelProvider) :
  let out := roles (Variant.mapHistory history provider) in
  no_repeat out = true
  /\ (provider <> gemini ->
      forallb strict_role out = true
      /\ (out <> [] -> hd_error out = Some Role.user)).
Proof.
  cbv zeta. unfold Variant.mapHistory.
  destruct (List.length history =? 0);
    [split; [reflexivity | intros _; split; [reflexivity | intros H; now elim H]]|].
  cbv zeta.
  set (merged := Variant.merge_messages provider (windowMessages history)).
  assert (Hnr : no_repeat (roles merged) = true)
    by now apply merge_messages_no_repeat.
  assert (Hfix : merge_runs merged = merged)
    by now apply fold_merge_fixed.
  rewrite Hfix.
  assert (Hstrict : provider <> gemini -> forallb strict_role (roles merged) = true).
  { intros Hp. apply merge_messages_role_set; [|reflexivity].
    intros m. destruct provider; [| |congruence]; simpl;
      now destruct (Message.sender m). }
  assert (Hfill : forall first rest, merged = first :: rest ->
            forallb strict_role (roles merged) = true ->
            let out := roles (if Role.eqb (role first) Role.assistant
                              then Variant.wake_up :: merged else merged) in
            no_repeat out = true /\ forallb strict_role out = true
            /\ hd_error out = Some Role.user).
  { intros first rest Hm Hs. rewrite Hm in *. cbv zeta.
    cbn [roles map forallb] in Hs. apply andb_prop in Hs as [Hf Hs].
    destruct (role first) eqn:Hr; try discriminate; cbn [Role.eqb].
    - cbn [roles map forallb hd_error]. rewrite Hr. cbn [strict_role andb].
      repeat split; [|exact Hs]. cbn [roles map] in Hnr. now rewrite Hr in Hnr.
    - cbn [roles map forallb hd_error Variant.wake_up role]. rewrite Hr.
      cbn [strict_role andb]. repeat split; [|exact Hs].
      cbn [roles map] in Hnr. rewrite Hr in Hnr.
      change (no_repeat (Role.user :: Role.assistant :: map role rest))
        with (negb (Role.eqb Role.user Role.assistant)
              && no_repeat (Role.assistant :: map role rest)).
      exact Hnr. }
  destruct provider.
  - destruct merged as [|first rest] eqn:Hm;
      [split; [reflexivity | intros _; split; [reflexivity | intros H; now elim H]]|].
    destruct (Hfill first rest eq_refl (Hstrict ltac:(discriminate))) as (H1 & H2 & H3).
    split; [exact H1 | intros _; split; [exact H2 | intros _; exact H3]].
  - destruct merged as [|first rest] eqn:Hm;
      [split; [reflexivity | intros _; split; [reflexivity | intros H; now elim H]]|].
    destruct (Hfill first rest eq_refl (Hstrict ltac:(discriminate))) as (H1 & H2 & H3).
    split; [exact H1 | intros _; split; [exact H2 | intros _; exact H3]].
  - split; [exact Hnr | intros H; now elim H].
Qed.

(** X20, for a history that the assistant opens, with DeepSeek: the filler
    turn comes first and the roles alternate. *)
Lemma Variant_mapHistory_alternates_witness :
  roles (Variant.mapHistory mixed_history deepseek)
  = [Role.user; Role.assistant; Role.user; Role.assistant]
  /\ hd_error (roles (Variant.mapHistory mixed_history deepseek)) = Some Role.user.
Proof.
  split; [reflexivity|].
  apply (proj2 (proj2 (Variant_mapHistory_alternates mixed_history deepseek)
                  ltac:(discriminate))).
  discriminate.
Defined.

(** X21.  In the second copy of the service the strict pass over the merged
    turns is idle: the first pass leaves no two neighbours with the same
    role, so the second returns its input unchanged. *)
Theorem Variant_strict_pass_idle (provider : ModelProvider)
    (finalMessages : list Message.t) :
  merge_runs (Variant.merge_messages provider finalMessages)
  = Variant.merge_messages provider finalMessages.
Proof.
  unfold merge_runs. apply (fold_merge_fixed _ []).
  now apply merge_messages_no_repeat.
Qed.

(* ================================================================== *)
(** * The assistants of the remote account *)
(* ================================================================== *)

Lemma or_else_truthy a d : Js.truthy d = true -> Js.truthy (Js.or_else a d) = true.
Proof. intros H. unfold Js.or_else. now destruct (Js.truthy a) eqn:E. Qed.

Lemma opt_or_else_truthy a d :
  Js.truthy d = true -> Js.truthy (Js.opt_or_else a d) = true.
Proof. intros H. destruct a as [s|]; [now apply or_else_truthy | exact H]. Qed.

Lemma of_listed_usable a : usable (Remote.of_listed a).
Proof. repeat split; now apply opt_or_else_truthy. Qed.

(** X22.  Whatever the back end answers, every entry
    [discoverRemoteOccultPersonas] returns has a name and a prompt, is
    tagged '#synced' first and has no avatar; the only request made is the
    listing request with the OpenAI key as bearer token; and without an
    OpenAI key nothing is requested or logged. *)
Theorem discoverRemoteOccultPersonas_entries (fetch : Remote.Call.t -> Remote.Reply)
    (API_KEY : option string) (openaiKey deepseekKey : string) :
  let result := Remote.discoverRemoteOccultPersonas fetch API_KEY openaiKey deepseekKey in
  Forall usable (fst result)
  /\ (forall c, In (Remote.Fetched c) (snd result) ->
        Js.truthy openaiKey = true /\ c = Remote.list_call openaiKey)
  /\ (Js.truthy openaiKey = false -> snd result = []).
Proof.
  cbv zeta. unfold Remote.discoverRemoteOccultPersonas. cbv zeta.
  assert (Hfixed : Forall usable
            ((if Js.truthy deepseekKey then [Remote.deepseek_entry] else [])
             ++ (if match API_KEY with Some k => Js.truthy k | None => false end
                 then [Remote.gemini_entry] else []))).
  { apply Forall_app. split.
    - destruct (Js.truthy deepseekKey); repeat constructor.
    - destruct (match API_KEY with Some k => Js.truthy k | None => false end);
        repeat constructor. }
  destruct (Js.truthy openaiKey).
  - cbn [fst snd].
    destruct (fetch (Remote.list_call openaiKey)) as [e | status e | status body];
      [| destruct (res_ok status)
       | destruct (res_ok status); [destruct (Remote.Body.data body) as [l|]|]];
      cbn [fst snd app];
      (split; [|split; [|discriminate]]);
      try exact Hfixed;
      try (intros c [Hc | Hc]; [injection Hc as <-; now split |];
           repeat (destruct Hc as [Hc | Hc]; [discriminate Hc|]); contradiction).
    apply Forall_app. split; [|exact Hfixed].
    apply Forall_forall. intros f Hf. apply in_map_iff in Hf as (a & <- & _).
    apply of_listed_usable.
  - cbn [fst snd app]. split; [exact Hfixed|]. split; [intros c []|reflexivity].
Qed.

(** X22, for an account that lists one assistant without a name: it is
    found under the name "Cloud Assistant", before the DeepSeek entry. *)
Lemma discoverRemoteOccultPersonas_entries_witness :
  map Remote.Found.name
    (fst (Remote.discoverRemoteOccultPersonas one_nameless None "sk-test" "ds-test"))
  = ["Cloud Assistant"; "DeepSeek Assistant"]
  /\ Forall usable
       (fst (Remote.discoverRemoteOccultPersonas one_nameless None "sk-test" "ds-test")).
Proof.
  split; [reflexivity|].
  apply (proj1 (discoverRemoteOccultPersonas_entries one_nameless None "sk-test" "ds-test")).
Defined.

(** X23.  [createRemoteAssistant] never reports a failure with an empty
    text; for a provider other than OpenAI it makes no request; and it
    returns an id only when the creating request was answered with a status
    from 200 to 299, and then the id of that answer. *)
Theorem createRemoteAssistant_outcomes (fetch : Remote.Call.t -> Remote.Reply)
    (provider : ModelProvider) (name instructions model apiKey : string) :
  let result := Remote.createRemoteAssistant fetch provider name instructions model apiKey in
  (forall e, fst result = Remote.Error e -> Js.truthy e = true)
  /\ (provider <> openai -> snd result = [])
  /\ (forall i, fst result = Remote.Id i ->
        provider = openai
        /\ exists status body,
             fetch (Remote.create_call name instructions model apiKey)
             = Remote.Answers status body
             /\ res_ok status = true /\ Remote.Body.id body = i).
Proof.
  cbv zeta. unfold Remote.createRemoteAssistant.
  destruct provider; cbn [ModelProvider_eqb negb];
    try (split; [intros e [= <-]; reflexivity
                | split; [reflexivity | intros i H; discriminate H]]).
  cbv zeta.
  destruct (fetch (Remote.create_call name instructions model apiKey))
    as [e0 | status e0 | status body] eqn:Hfetch.
  - cbn [fst snd]. split; [|split; [congruence | discriminate]].
    intros e [= <-]. now apply or_else_truthy.
  - cbn [fst snd]. split; [|split; [congruence | discriminate]].
    intros e [= <-]. now apply or_else_truthy.
  - destruct (res_ok status) eqn:Hok; cbn [fst snd].
    + split; [discriminate|]. split; [congruence|].
      intros i [= <-]. split; [reflexivity|]. now exists status, body.
    + split; [|split; [congruence | discriminate]].
      intros e [= <-]. now apply opt_or_else_truthy.
Qed.

(** X23, for a back end that refuses with status 500 and no message. *)
Lemma createRemoteAssistant_outcomes_witness :
  fst (Remote.createRemoteAssistant refusing openai "Bot" "Be kind." "gpt-4o" "sk-test")
  = Remote.Error "API Error 500"
  /\ Js.truthy "API Error 500" = true.
Proof.
  split; [reflexivity|].
  apply (proj1 (createRemoteAssistant_outcomes refusing openai "Bot" "Be kind."
                  "gpt-4o" "sk-test")).
  reflexivity.
Defined.

(** X24.  [deleteRemoteAssistant] makes no request for an id that does not
    start with 'as-', and reports success only when the one deleting
    request it made, for that id and with the key as bearer token, was
    answered with a status from 200 to 299. *)
Theorem deleteRemoteAssistant_guard (fetch : Remote.Call.t -> Remote.Reply)
    (assistantId apiKey : string) :
  let result := Remote.deleteRemoteAssistant fetch assistantId apiKey in
  (Js.startsWith assistantId "as-" = false -> result = (false, []))
  /\ (fst result = true ->
      Js.startsWith assistantId "as-" = true
      /\ snd result = [Remote.Fetched (Remote.delete_call assistantId apiKey)]
      /\ match fetch (Remote.delete_call assistantId apiKey) with
         | Remote.Rejects _ => False
         | Remote.Unparsable status _ | Remote.Answers status _ => res_ok status = true
         end).
Proof.
  cbv zeta. unfold Remote.deleteRemoteAssistant.
  destruct (Js.startsWith assistantId "as-"); cbn [negb].
  - split; [discriminate|].
    destruct (fetch (Remote.delete_call assistantId apiKey)); cbn [fst snd];
      intros H; try discriminate H; now repeat split.
  - split; [reflexivity | discriminate].
Qed.
